(** * Longevity Ledger: a shallow embedding of the ledger store

    The repository holds two rewrites of one React application:
    - [src/src/App.tsx], the feature-complete variant (module [App]);
    - the "minimal, compile-safe version" (module [Mini]).

    Both keep one [Ledger] per profile in [localStorage], serialised with
    [JSON.stringify] and read back with [JSON.parse].  The development
    below embeds
    - the JavaScript values that [JSON.parse] can produce and that
      [JSON.stringify] consumes, with an executable printer and parser;
    - the typed records of the two variants and their pure updaters
      (the arrow functions handed to [setDb]);
    - the two effects of the top-level component (load on profile change,
      save on data or profile change) as explicit state passing over the
      triple (profile, db, localStorage);
    - the renders that throw on a [db] of the wrong shape, after which
      the page is gone and only the storage is left. *)

From Stdlib Require Import ZArith NArith Ascii String List Sorted.
From Stdlib Require Import DecimalString DecimalFacts DecimalPos DecimalN.
From stdpp Require Import base option list strings gmap.

Local Open Scope string_scope.
Local Open Scope Z_scope.
Local Open Scope list_scope.

(** ** JavaScript numbers

    A [number] is NaN, an infinity, or a finite value.  A finite value is
    kept as the decimal scientific notation that [Number::toString]
    prints: sign, mantissa and power of ten, i.e. [± mantissa * 10^exponent].
    Rounding to binary64 is outside the model; signed zero is kept because
    [JSON.stringify] and [parseFloat] distinguish it. *)

Inductive number :=
| NaN
| Infinity (negative : bool)
| Finite (negative : bool) (mantissa : N) (exponent : Z).

#[global] Instance number_eq_dec : EqDecision number.
Proof. solve_decision. Defined.

(** Remove the trailing zeros of a mantissa, at most [fuel] of them. *)
Fixpoint strip_zeros (fuel : nat) (m : N) (e : Z) : N * Z :=
  match fuel with
  | O => (m, e)
  | S fuel' =>
      if (N.eqb (m mod 10) 0 && negb (N.eqb m 0))%bool
      then strip_zeros fuel' (m / 10)%N (e + 1)
      else (m, e)
  end.

(** The canonical representative of [± m * 10^e]. *)
Definition mkFinite (neg : bool) (m : N) (e : Z) : number :=
  if N.eqb m 0 then Finite neg 0 0
  else let '(m', e') := strip_zeros (N.to_nat (N.log2 m)) m e in Finite neg m' e'.

(** ** JavaScript values *)

#[local] Unset Elimination Schemes.
Inductive value :=
| VUndefined
| VNull
| VBool (b : bool)
| VNum (n : number)
| VStr (s : string)
| VArr (elements : list value)
| VObj (properties : list (string * value)).
#[local] Set Elimination Schemes.

(** The error that the modelled code can throw. *)
Inductive Error := SyntaxError.

Inductive completion (A : Type) :=
| Normal (a : A)
| Throw (e : Error).
Arguments Normal {A} a.
Arguments Throw {A} e.

(** ** Text helpers *)

(** The quotation mark (code unit 34) and the reverse solidus (92). *)
Definition dquote : ascii := ascii_of_N 34.
Definition backslash : ascii := ascii_of_N 92.

Definition digit_string (n : N) : string := NilZero.string_of_uint (N.to_uint n).

Fixpoint repeat_char (c : ascii) (n : nat) : string :=
  match n with O => "" | S n' => String c (repeat_char c n') end.

Fixpoint take_str (n : nat) (s : string) : string :=
  match n, s with
  | S n', String c r => String c (take_str n' r)
  | _, _ => ""
  end.

Fixpoint drop_str (n : nat) (s : string) : string :=
  match n, s with
  | S n', String _ r => drop_str n' r
  | _, _ => s
  end.

Fixpoint join (sep : string) (l : list string) : string :=
  match l with
  | [] => ""
  | [x] => x
  | x :: rest => x +:+ sep +:+ join sep rest
  end.

(** ** [Number::toString] (radix 10) on finite values

    With [k] digits and the decimal point after digit [n]:
    plain integer when [k <= n <= 21], fixed point when [0 < n <= 21],
    leading ["0."] when [-6 < n <= 0], and exponent notation otherwise. *)

Definition exponent_text (x : Z) : string :=
  "e" +:+ (if Z.ltb x 0 then "-" else "+") +:+ digit_string (Z.abs_N x).

(** The digits [s] of the mantissa with the point placed for exponent [e]. *)
Definition Number_toString_digits (s : string) (e : Z) : string :=
  let k := Z.of_nat (String.length s) in
  let n := k + e in
  if (Z.leb k n && Z.leb n 21)%bool then
    s +:+ repeat_char "0" (Z.to_nat (n - k))
  else if (Z.ltb 0 n && Z.leb n 21)%bool then
    take_str (Z.to_nat n) s +:+ "." +:+ drop_str (Z.to_nat n) s
  else if (Z.ltb (-6) n && Z.leb n 0)%bool then
    "0." +:+ repeat_char "0" (Z.to_nat (- n)) +:+ s
  else if Z.eqb k 1 then s +:+ exponent_text (n - 1)
  else take_str 1 s +:+ "." +:+ drop_str 1 s +:+ exponent_text (n - 1).

Definition Number_toString_finite (neg : bool) (m : N) (e : Z) : string :=
  if N.eqb m 0 then "0" else
  let body := Number_toString_digits (digit_string m) e in
  if neg then "-" +:+ body else body.

(** ** [JSON.stringify] *)

Definition hex_digit (n : N) : ascii :=
  match n with
  | 0 => "0" | 1 => "1" | 2 => "2" | 3 => "3" | 4 => "4" | 5 => "5" | 6 => "6"
  | 7 => "7" | 8 => "8" | 9 => "9" | 10 => "a" | 11 => "b" | 12 => "c"
  | 13 => "d" | 14 => "e" | _ => "f"
  end%N%char.

(** One code unit inside a JSON string literal ([QuoteJSONString]). *)
Definition quote_char (c : ascii) : string :=
  let n := N_of_ascii c in
  if N.eqb n 34 then String backslash (String dquote "")
  else if N.eqb n 92 then String backslash (String backslash "")
  else if N.eqb n 8 then "\b"
  else if N.eqb n 12 then "\f"
  else if N.eqb n 10 then "\n"
  else if N.eqb n 13 then "\r"
  else if N.eqb n 9 then "\t"
  else if N.ltb n 32 then
    "\u00" +:+ String (hex_digit (n / 16)) (String (hex_digit (n mod 16)) "")
  else String c "".

Fixpoint quote_chars (s : string) : string :=
  match s with
  | "" => ""
  | String c r => quote_char c +:+ quote_chars r
  end.

Definition QuoteJSONString (s : string) : string :=
  String dquote (quote_chars s) +:+ String dquote "".

(** [SerializeJSONProperty]: [None] stands for the result [undefined]. *)
Fixpoint SerializeJSONProperty (v : value) : option string :=
  match v with
  | VUndefined => None
  | VNull => Some "null"
  | VBool true => Some "true"
  | VBool false => Some "false"
  | VNum (Finite neg m e) => Some (Number_toString_finite neg m e)
  | VNum _ => Some "null"
  | VStr s => Some (QuoteJSONString s)
  | VArr l =>
      Some ("[" +:+
            join "," (map (fun x => default "null" (SerializeJSONProperty x)) l)
            +:+ "]")
  | VObj ps =>
      Some ("{" +:+
            join "," (omap (fun kv =>
                        match SerializeJSONProperty (snd kv) with
                        | Some t => Some (QuoteJSONString (fst kv) +:+ ":" +:+ t)
                        | None => None
                        end) ps)
            +:+ "}")
  end.

Definition JSON_stringify (v : value) : option string := SerializeJSONProperty v.

(** [JSON.stringify(v, null, 2)]: the same with a two-space gap. *)
Definition newline : string := String (ascii_of_N 10) "".
Definition gap : string := "  ".

Fixpoint SerializeJSONPropertyGap (indent : string) (v : value) : option string :=
  let stepback := indent in
  let indent' := indent +:+ gap in
  match v with
  | VArr l =>
      match map (fun x => default "null" (SerializeJSONPropertyGap indent' x)) l with
      | [] => Some "[]"
      | partial =>
          Some ("[" +:+ newline +:+ indent' +:+
                join ("," +:+ newline +:+ indent') partial +:+
                newline +:+ stepback +:+ "]")
      end
  | VObj ps =>
      match omap (fun kv =>
                    match SerializeJSONPropertyGap indent' (snd kv) with
                    | Some t => Some (QuoteJSONString (fst kv) +:+ ": " +:+ t)
                    | None => None
                    end) ps with
      | [] => Some "{}"
      | partial =>
          Some ("{" +:+ newline +:+ indent' +:+
                join ("," +:+ newline +:+ indent') partial +:+
                newline +:+ stepback +:+ "}")
      end
  | _ => SerializeJSONProperty v
  end.

Definition JSON_stringify_2 (v : value) : option string :=
  SerializeJSONPropertyGap "" v.

(** ** [JSON.parse]

    A recursive-descent reader of the JSON grammar (ECMA-404): white space
    is space, tab, line feed and carriage return; a string literal holds
    no raw control character; a number is an optional minus sign, an
    integer part without superfluous leading zero, an optional fraction
    (a point and at least one digit) and an optional exponent (e or E, an
    optional sign and at least one digit). *)

Definition is_ws (c : ascii) : bool :=
  let n := N_of_ascii c in
  (N.eqb n 32 || N.eqb n 9 || N.eqb n 10 || N.eqb n 13)%bool.

Fixpoint skip_ws (s : string) : string :=
  match s with
  | String c r => if is_ws c then skip_ws r else s
  | "" => ""
  end.

Definition is_digit (c : ascii) : bool :=
  let n := N_of_ascii c in (N.leb 48 n && N.leb n 57)%bool.

(** The longest prefix of decimal digits, and what follows it. *)
Fixpoint span_digits (s : string) : string * string :=
  match s with
  | String c r =>
      if is_digit c
      then let '(d, rest) := span_digits r in (String c d, rest)
      else ("", s)
  | "" => ("", "")
  end.

(** Value of a string of decimal digits, most significant first. *)
Fixpoint digits_value (acc : N) (s : string) : N :=
  match s with
  | String c r => digits_value (acc * 10 + (N_of_ascii c - 48))%N r
  | "" => acc
  end.

Definition hex_value (c : ascii) : option N :=
  let n := N_of_ascii c in
  if (N.leb 48 n && N.leb n 57)%bool then Some (n - 48)%N
  else if (N.leb 65 n && N.leb n 70)%bool then Some (n - 55)%N
  else if (N.leb 97 n && N.leb n 102)%bool then Some (n - 87)%N
  else None.

(** A code unit written [\uXXXX], kept as its UTF-8 bytes (strings of the
    model are byte strings). *)
Definition code_unit_bytes (u : N) : string :=
  if N.ltb u 128 then String (ascii_of_N u) ""
  else if N.ltb u 2048 then
    String (ascii_of_N (192 + u / 64)) (String (ascii_of_N (128 + u mod 64)) "")
  else
    String (ascii_of_N (224 + u / 4096))
      (String (ascii_of_N (128 + (u / 64) mod 64))
         (String (ascii_of_N (128 + u mod 64)) "")).

(** Optional exponent part [[eE] [+-]? digits]; [None] when an [e] is not
    followed by a well-formed exponent. *)
Definition parse_exponent (s : string) : option (Z * string) :=
  match s with
  | String c r =>
      if (Ascii.eqb c "e" || Ascii.eqb c "E")%bool then
        let '(neg, r1) :=
          match r with
          | String "-" r' => (true, r')
          | String "+" r' => (false, r')
          | _ => (false, r)
          end in
        match span_digits r1 with
        | ("", _) => None
        | (ds, rest) =>
            let x := Z.of_N (digits_value 0 ds) in
            Some (if neg then - x else x, rest)
        end
      else Some (0, s)
  | "" => Some (0, "")
  end.

(** Optional fraction part: a point and at least one digit. *)
Definition parse_fraction (s : string) : option (string * string) :=
  match s with
  | String c r =>
      if Ascii.eqb c "." then
        match span_digits r with
        | ("", _) => None
        | (fp, rest) => Some (fp, rest)
        end
      else Some ("", s)
  | "" => Some ("", "")
  end.

(** An integer part of several digits must not start with a zero. *)
Definition has_leading_zero (ip : string) : bool :=
  match ip with
  | String c (String _ _) => Ascii.eqb c "0"
  | _ => false
  end.

(** A JSON number without its sign. *)
Definition parse_unsigned (neg : bool) (s : string) : option (number * string) :=
  match span_digits s with
  | ("", _) => None
  | (ip, s2) =>
      if has_leading_zero ip then None else
      match parse_fraction s2 with
      | None => None
      | Some (fp, s3) =>
          match parse_exponent s3 with
          | None => None
          | Some (x, rest) =>
              Some (mkFinite neg (digits_value 0 (ip +:+ fp))
                      (x - Z.of_nat (String.length fp)), rest)
          end
      end
  end.

(** A JSON number at the head of [s]. *)
Definition parse_number (s : string) : option (number * string) :=
  match s with
  | String c r =>
      if Ascii.eqb c "-" then parse_unsigned true r else parse_unsigned false s
  | "" => None
  end.

(** The characters of a string literal after its opening quotation mark,
    up to and including the closing one. *)
Fixpoint parse_string_body (s : string) : option (string * string) :=
  match s with
  | "" => None
  | String c r =>
      if Ascii.eqb c dquote then Some ("", r)
      else if Ascii.eqb c backslash then
        match r with
        | String e r1 =>
            let simple (x : N) :=
              match parse_string_body r1 with
              | Some (t, rest) => Some (String (ascii_of_N x) t, rest)
              | None => None
              end in
            if Ascii.eqb e dquote then simple 34%N
            else if Ascii.eqb e backslash then simple 92%N
            else if Ascii.eqb e "/" then simple 47%N
            else if Ascii.eqb e "b" then simple 8%N
            else if Ascii.eqb e "f" then simple 12%N
            else if Ascii.eqb e "n" then simple 10%N
            else if Ascii.eqb e "r" then simple 13%N
            else if Ascii.eqb e "t" then simple 9%N
            else if Ascii.eqb e "u" then
              match r1 with
              | String h1 (String h2 (String h3 (String h4 r2))) =>
                  match hex_value h1, hex_value h2, hex_value h3, hex_value h4 with
                  | Some a, Some b, Some c', Some d =>
                      match parse_string_body r2 with
                      | Some (t, rest) =>
                          Some (code_unit_bytes (a * 4096 + b * 256 + c' * 16 + d)
                                +:+ t, rest)
                      | None => None
                      end
                  | _, _, _, _ => None
                  end
              | _ => None
              end
            else None
        | "" => None
        end
      else if N.ltb (N_of_ascii c) 32 then None
      else
        match parse_string_body r with
        | Some (t, rest) => Some (String c t, rest)
        | None => None
        end
  end.

(** [CreateDataProperty] on the object under construction: a repeated key
    keeps its place and takes the later value. *)
Fixpoint set_property (k : string) (v : value) (ps : list (string * value))
  : list (string * value) :=
  match ps with
  | [] => [(k, v)]
  | (k', v') :: rest =>
      if String.eqb k k' then (k, v) :: rest else (k', v') :: set_property k v rest
  end.

(** The text after the word [p], when the text starts with it. *)
Fixpoint starts_with (p s : string) : option string :=
  match p with
  | "" => Some s
  | String a p' =>
      match s with
      | String b s' => if Ascii.eqb a b then starts_with p' s' else None
      | "" => None
      end
  end.

(** The text after the character [c], when the text starts with it. *)
Definition after_char (c : ascii) (s : string) : option string :=
  match s with
  | String c' r => if Ascii.eqb c' c then Some r else None
  | "" => None
  end.

Fixpoint parse_value (fuel : nat) (s : string) : option (value * string) :=
  match fuel with
  | O => None
  | S fuel' =>
      match skip_ws s with
      | "" => None
      | String c r as s0 =>
          if Ascii.eqb c "[" then
            match after_char "]" (skip_ws r) with
            | Some r' => Some (VArr [], r')
            | None =>
                match parse_elements fuel' r with
                | Some (l, rest) => Some (VArr l, rest)
                | None => None
                end
            end
          else if Ascii.eqb c "{" then
            match after_char "}" (skip_ws r) with
            | Some r' => Some (VObj [], r')
            | None =>
                match parse_members fuel' r [] with
                | Some (ps, rest) => Some (VObj ps, rest)
                | None => None
                end
            end
          else if Ascii.eqb c dquote then
            match parse_string_body r with
            | Some (t, rest) => Some (VStr t, rest)
            | None => None
            end
          else if Ascii.eqb c "t" then
            match starts_with "true" s0 with
            | Some rest => Some (VBool true, rest) | None => None end
          else if Ascii.eqb c "f" then
            match starts_with "false" s0 with
            | Some rest => Some (VBool false, rest) | None => None end
          else if Ascii.eqb c "n" then
            match starts_with "null" s0 with
            | Some rest => Some (VNull, rest) | None => None end
          else
            match parse_number s0 with
            | Some (n, rest) => Some (VNum n, rest)
            | None => None
            end
      end
  end
with parse_elements (fuel : nat) (s : string) : option (list value * string) :=
  match fuel with
  | O => None
  | S fuel' =>
      match parse_value fuel' s with
      | None => None
      | Some (v, r) =>
          match after_char "," (skip_ws r) with
          | Some r' =>
              match parse_elements fuel' r' with
              | Some (l, rest) => Some (v :: l, rest)
              | None => None
              end
          | None =>
              match after_char "]" (skip_ws r) with
              | Some r' => Some ([v], r')
              | None => None
              end
          end
      end
  end
with parse_members (fuel : nat) (s : string) (acc : list (string * value))
  : option (list (string * value) * string) :=
  match fuel with
  | O => None
  | S fuel' =>
      match after_char dquote (skip_ws s) with
      | None => None
      | Some r =>
          match parse_string_body r with
          | None => None
          | Some (k, r1) =>
              match after_char ":" (skip_ws r1) with
              | None => None
              | Some r2 =>
                  match parse_value fuel' r2 with
                  | None => None
                  | Some (v, r3) =>
                      let acc' := set_property k v acc in
                      match after_char "," (skip_ws r3) with
                      | Some r4 => parse_members fuel' r4 acc'
                      | None =>
                          match after_char "}" (skip_ws r3) with
                          | Some r4 => Some (acc', r4)
                          | None => None
                          end
                      end
                  end
              end
          end
      end
  end.

(** [JSON.parse(text)]: the whole text is one JSON value between optional
    white space, otherwise a [SyntaxError].  A number is kept as the
    decimal that is written, as [parseFloat] below keeps it. *)
Definition JSON_parse (text : string) : completion value :=
  match parse_value (2 * String.length text + 2) text with
  | Some (v, rest) =>
      match skip_ws rest with
      | "" => Normal v
      | _ => Throw SyntaxError
      end
  | None => Throw SyntaxError
  end.

(** ** [parseFloat]

    Leading white space is dropped, then the longest prefix that is a
    decimal literal is read; without such a prefix the result is NaN.

    White space is the [WhiteSpace] and the [LineTerminator] of
    ECMAScript.  A string of the model holds the UTF-8 bytes of the text,
    so the white space beyond U+007F takes two or three characters of it:
    U+00A0; U+1680, U+2000 to U+200A, U+2028, U+2029, U+202F, U+205F,
    U+3000 and U+FEFF. *)

(** U+0009 to U+000D and U+0020; also the byte A0 on its own, which
    begins no character in UTF-8 and is U+00A0 where a character of the
    string stands for a code unit. *)
Definition is_js_space (c : ascii) : bool :=
  let n := N_of_ascii c in
  (N.eqb n 32 || (N.leb 9 n && N.leb n 13) || N.eqb n 160)%bool.

(** U+00A0, the bytes C2 A0. *)
Definition is_js_space2 (c1 c2 : ascii) : bool :=
  (N.eqb (N_of_ascii c1) 194 && N.eqb (N_of_ascii c2) 160)%bool.

(** U+1680 (E1 9A 80), U+2000 to U+200A, U+2028, U+2029 and U+202F
    (E2 80 80 to 8A, A8, A9, AF), U+205F (E2 81 9F), U+3000 (E3 80 80)
    and U+FEFF (EF BB BF). *)
Definition is_js_space3 (c1 c2 c3 : ascii) : bool :=
  let a := N_of_ascii c1 in
  let b := N_of_ascii c2 in
  let c := N_of_ascii c3 in
  ((N.eqb a 225 && N.eqb b 154 && N.eqb c 128)
   || (N.eqb a 226 && N.eqb b 128 &&
       ((N.leb 128 c && N.leb c 138) || N.eqb c 168 || N.eqb c 169 || N.eqb c 175))
   || (N.eqb a 226 && N.eqb b 129 && N.eqb c 159)
   || (N.eqb a 227 && N.eqb b 128 && N.eqb c 128)
   || (N.eqb a 239 && N.eqb b 187 && N.eqb c 191))%bool.

Fixpoint skip_js_space (s : string) : string :=
  match s with
  | String c1 r1 =>
      if is_js_space c1 then skip_js_space r1 else
      match r1 with
      | String c2 r2 =>
          if is_js_space2 c1 c2 then skip_js_space r2 else
          match r2 with
          | String c3 r3 => if is_js_space3 c1 c2 c3 then skip_js_space r3 else s
          | "" => s
          end
      | "" => s
      end
  | "" => ""
  end.

(** The value read is kept as the decimal that was written; see
    [exact_in_binary64] for the decimals that the code keeps as they are. *)
Definition parseFloat (text : string) : number :=
  let s := skip_js_space text in
  let '(neg, s1) :=
    match s with
    | String "-" r => (true, r)
    | String "+" r => (false, r)
    | _ => (false, s)
    end in
  if String.prefix "Infinity" s1 then Infinity neg else
  let '(ip, s2) := span_digits s1 in
  let '(fp, s3) :=
    match s2 with
    | String "." r => span_digits r
    | _ => ("", s2)
    end in
  match ip +:+ fp with
  | "" => NaN
  | ds =>
      let x := match parse_exponent s3 with Some (x, _) => x | None => 0 end in
      mkFinite neg (digits_value 0 ds) (x - Z.of_nat (String.length fp))
  end.

(** The numbers of the model that are numbers of the code.  A finite
    number of the code is a binary64; it is printed, and kept here, as the
    shortest decimal that reads back as that binary64.  A decimal of at
    most 15 significant digits whose magnitude lies between 1e-300 and
    1e300 is such a shortest decimal, that of the binary64 nearest to it.
    A longer or a larger one is rounded by the code (to another decimal,
    to an infinity or to zero) where the model keeps it as it is. *)
Definition exact_in_binary64 (n : number) : bool :=
  match n with
  | Finite _ m e => (N.ltb m (10 ^ 15) && Z.leb (-300) e && Z.leb e 285)%bool
  | _ => true
  end.

(** [String.prototype.trim] leaves nothing. *)
Fixpoint is_blank (s : string) : bool :=
  match s with
  | "" => true
  | String c1 r1 =>
      if is_js_space c1 then is_blank r1 else
      match r1 with
      | String c2 r2 =>
          if is_js_space2 c1 c2 then is_blank r2 else
          match r2 with
          | String c3 r3 => (is_js_space3 c1 c2 c3 && is_blank r3)%bool
          | "" => false
          end
      | "" => false
      end
  end.

(** ** Arrays *)

(** [Array.prototype.sort(cmp)].  The sort is stable (ECMAScript 2019), so
    for a consistent comparator its result is determined; it is computed
    here by insertion from the right, an element going before the first
    one it does not compare greater than. *)
Section ArraySort.
Context {A : Type} (cmp : A -> A -> Z).

Fixpoint sort_insert (x : A) (l : list A) : list A :=
  match l with
  | [] => [x]
  | y :: l' => if Z.ltb 0 (cmp x y) then y :: sort_insert x l' else x :: y :: l'
  end.

Fixpoint Array_sort (l : list A) : list A :=
  match l with
  | [] => []
  | x :: l' => sort_insert x (Array_sort l')
  end.

End ArraySort.

(** [arr.at(-1)]: the last element, [undefined] on the empty array. *)
Definition at_minus_1 {A : Type} (l : list A) : option A := last l.

(** [a.localeCompare(b)] on date strings.  The dates that the date inputs
    and [today()] produce are ISO dates, [YYYY-MM-DD]: digits, with
    hyphens at the same two places.  Two of them differ first at a digit,
    and collation orders the digits as their code units are ordered; so on
    ISO dates [localeCompare] is the comparison of the code units, which
    is what the model computes.  What collation makes of other strings
    (letters of either case, accents, equivalent forms) is not modelled:
    the properties of the sorted views are stated for ISO dates. *)
Definition localeCompare (a b : string) : Z :=
  match String.compare a b with
  | Lt => -1
  | Eq => 0
  | Gt => 1
  end.

(** [YYYY-MM-DD]. *)
Definition is_ISO_date (s : string) : bool :=
  match s with
  | String y1 (String y2 (String y3 (String y4 (String h1
      (String m1 (String m2 (String h2 (String e1 (String e2 ""))))))))) =>
      (is_digit y1 && is_digit y2 && is_digit y3 && is_digit y4 &&
       Ascii.eqb h1 "-" && is_digit m1 && is_digit m2 &&
       Ascii.eqb h2 "-" && is_digit e1 && is_digit e2)%bool
  | _ => false
  end.

(** ** Profiles and the persisted slots *)

Definition ID := string.
Definition ISODate := string.

Inductive Profile := Paul | Claire.

#[global] Instance Profile_eq_dec : EqDecision Profile.
Proof. solve_decision. Defined.

Definition PROFILES : list Profile := [Paul; Claire].

Definition Profile_name (p : Profile) : string :=
  match p with Paul => "Paul" | Claire => "Claire" end.

Definition storageKey (p : Profile) : string :=
  "longevity-ledger-" +:+ Profile_name p.

(** [localStorage]: string keys to string values. *)
Abbreviation Storage := (gmap string string).

(** What every record of a ledger carries. *)
Class Entry (R : Type) := {
  entry_id : R -> ID;
  entry_date : R -> ISODate;
  entry_value : R -> value        (* the object as [JSON.stringify] sees it *)
}.

(** The random source and the clock: the [n]-th call of
    [Math.random().toString(36)] and of [new Date().toISOString()]. *)
Record World := {
  Math_random_toString36 : nat -> string;
  Date_toISOString : nat -> string
}.

(** [uid()] and [today()] at the [n]-th call. *)
Definition uid (w : World) (n : nat) : ID :=
  drop_str 2 (Math_random_toString36 w n).
Definition today (w : World) (n : nat) : ISODate :=
  take_str 10 (Date_toISOString w n).

(** Optional properties of an object literal: an absent property is not
    written. *)
Definition opt_num (k : string) (x : option number) : list (string * value) :=
  match x with Some n => [(k, VNum n)] | None => [] end.
Definition opt_str (k : string) (x : option string) : list (string * value) :=
  match x with Some s => [(k, VStr s)] | None => [] end.

(** ** What the dashboard prints

    [Number::toString] on every number, [Number.prototype.toFixed],
    [String(v)] on every value, and the read of a property. *)

Definition Number_toString (n : number) : string :=
  match n with
  | NaN => "NaN"
  | Infinity neg => if neg then "-Infinity" else "Infinity"
  | Finite neg m e => Number_toString_finite neg m e
  end.

(** The digits that [toFixed] prints for a finite value are those of the
    binary64 value nearest to it, which the model does not keep: they are
    a parameter, given the number of fraction digits and the value. *)
Record Binary64 := {
  toFixed_finite : nat -> bool -> N -> Z -> string
}.

(** [n.toFixed(digits)]; a value that is not finite is printed by
    [Number::toString]. *)
Definition Number_toFixed (fp : Binary64) (digits : nat) (n : number) : string :=
  match n with
  | Finite neg m e => toFixed_finite fp digits neg m e
  | _ => Number_toString n
  end.

(** The error of a property read on [null] or [undefined], of the call
    of something that is not a function, and of the conversion of an
    object that has no callable [toString] or [valueOf]. *)
Inductive Exception := TypeError.

Inductive outcome (A : Type) :=
| Returns (a : A)
| Throws (e : Exception).
Arguments Returns {A} a.
Arguments Throws {A} e.

(** The value of the own property [k]; the last one written counts. *)
Fixpoint own_property (k : string) (ps : list (string * value)) : option value :=
  match ps with
  | [] => None
  | (k', v) :: rest =>
      match own_property k rest with
      | Some v' => Some v'
      | None => if String.eqb k k' then Some v else None
      end
  end.

(** [String(v)].  An array is joined with commas, [null] and [undefined]
    elements printing nothing; a plain object prints ["[object Object]"]
    unless an own property hides [Object.prototype.toString], in which
    case nothing callable is left to convert it. *)
Fixpoint ToString (v : value) : outcome string :=
  match v with
  | VUndefined => Returns "undefined"
  | VNull => Returns "null"
  | VBool b => Returns (if b then "true" else "false")
  | VNum n => Returns (Number_toString n)
  | VStr s => Returns s
  | VArr l =>
      match
        (fix elements (l : list value) : outcome (list string) :=
           match l with
           | [] => Returns []
           | x :: rest =>
               match (match x with
                      | VUndefined | VNull => Returns ""
                      | _ => ToString x
                      end) with
               | Returns t =>
                   match elements rest with
                   | Returns ts => Returns (t :: ts)
                   | Throws e => Throws e
                   end
               | Throws e => Throws e
               end
           end) l
      with
      | Returns ts => Returns (join "," ts)
      | Throws e => Throws e
      end
  | VObj ps =>
      if bool_decide ("toString" ∈ map fst ps) then Throws TypeError
      else Returns "[object Object]"
  end.

(** [v?.k] and, on a [v] that is neither [null] nor [undefined], [v.k],
    for a name [k] that no built-in prototype defines: only a plain
    object can have it. *)
Definition optional_field (k : string) (v : value) : value :=
  match v with
  | VObj ps => default VUndefined (own_property k ps)
  | _ => VUndefined
  end.

(** [v.toFixed(digits)] on any value: only a number has the method. *)
Definition toFixed_call (fp : Binary64) (digits : nat) (v : value) : outcome string :=
  match v with
  | VNum n => Returns (Number_toFixed fp digits n)
  | _ => Throws TypeError
  end.

(** [null] and [undefined]: a property read on them throws. *)
Definition is_nullish (v : value) : bool :=
  match v with VUndefined | VNull => true | _ => false end.

(** Arrays and strings: what [[...v]] can spread, and what has [at]. *)
Definition is_array_or_string (v : value) : bool :=
  match v with VArr _ | VStr _ => true | _ => false end.

(** * The feature-complete variant: [src/src/App.tsx] *)
Module App.

Module BloodPanel.
Record t := mk {
  id : ID;
  date : ISODate;
  lab : option string;
  apoB : option number;
  ldl : option number;
  hdl : option number;
  tg : option number;
  lpa : option number;
  hscrp : option number;
  a1c : option number;
  fastingGlucose : option number;
  fastingInsulin : option number;
  alt : option number;
  ast : option number;
  creatinine : option number;
  egfr : option number;
  uric : option number;
  tsh : option number;
  ft4 : option number;
  vitaminD : option number;
  ferritin : option number;
  b12 : option number;
  folate : option number;
  notes : option string
}.

(** [{ id: uid(), date: today() }] *)
Definition fresh (i : ID) (d : ISODate) : t :=
  mk i d None None None None None None None None None None None None None
     None None None None None None None None None.

Definition to_value (b : t) : value :=
  VObj ([("id", VStr (id b)); ("date", VStr (date b))]
        ++ opt_str "lab" (lab b) ++ opt_num "apoB" (apoB b)
        ++ opt_num "ldl" (ldl b) ++ opt_num "hdl" (hdl b)
        ++ opt_num "tg" (tg b) ++ opt_num "lpa" (lpa b)
        ++ opt_num "hscrp" (hscrp b) ++ opt_num "a1c" (a1c b)
        ++ opt_num "fastingGlucose" (fastingGlucose b)
        ++ opt_num "fastingInsulin" (fastingInsulin b)
        ++ opt_num "alt" (alt b) ++ opt_num "ast" (ast b)
        ++ opt_num "creatinine" (creatinine b) ++ opt_num "egfr" (egfr b)
        ++ opt_num "uric" (uric b) ++ opt_num "tsh" (tsh b)
        ++ opt_num "ft4" (ft4 b) ++ opt_num "vitaminD" (vitaminD b)
        ++ opt_num "ferritin" (ferritin b) ++ opt_num "b12" (b12 b)
        ++ opt_num "folate" (folate b) ++ opt_str "notes" (notes b)).
End BloodPanel.

Module ImagingStudy.
Inductive type_ :=
| CAC | Full_body_MRI | DEXA | Carotid_ultrasound | Colonoscopy | Other.

Definition type_name (k : type_) : string :=
  match k with
  | CAC => "CAC"
  | Full_body_MRI => "Full body MRI"
  | DEXA => "DEXA"
  | Carotid_ultrasound => "Carotid ultrasound"
  | Colonoscopy => "Colonoscopy"
  | Other => "Other"
  end.

Record t := mk {
  id : ID;
  date : ISODate;
  type : type_;
  resultSummary : option string;
  numericResult : option number;
  site : option string
}.

(** [{ id: uid(), date: today(), type: "CAC" }] *)
Definition fresh (i : ID) (d : ISODate) : t := mk i d CAC None None None.

Definition to_value (b : t) : value :=
  VObj ([("id", VStr (id b)); ("date", VStr (date b));
         ("type", VStr (type_name (type b)))]
        ++ opt_str "resultSummary" (resultSummary b)
        ++ opt_num "numericResult" (numericResult b)
        ++ opt_str "site" (site b)).
End ImagingStudy.

Module Vitals.
Record t := mk {
  id : ID;
  date : ISODate;
  weightKg : option number;
  waistCm : option number;
  heightCm : option number;
  systolic : option number;
  diastolic : option number;
  restingHR : option number;
  hrv : option number
}.

Definition fresh (i : ID) (d : ISODate) : t :=
  mk i d None None None None None None None.

Definition to_value (b : t) : value :=
  VObj ([("id", VStr (id b)); ("date", VStr (date b))]
        ++ opt_num "weightKg" (weightKg b) ++ opt_num "waistCm" (waistCm b)
        ++ opt_num "heightCm" (heightCm b) ++ opt_num "systolic" (systolic b)
        ++ opt_num "diastolic" (diastolic b)
        ++ opt_num "restingHR" (restingHR b) ++ opt_num "hrv" (hrv b)).
End Vitals.

Module FitnessTest.
Record t := mk {
  id : ID;
  date : ISODate;
  vo2max : option number;
  gripLeft : option number;
  gripRight : option number;
  sitToStand1min : option number;
  zone2MinsPerWeek : option number;
  vigorousMinsPerWeek : option number
}.

Definition fresh (i : ID) (d : ISODate) : t := mk i d None None None None None None.

Definition to_value (b : t) : value :=
  VObj ([("id", VStr (id b)); ("date", VStr (date b))]
        ++ opt_num "vo2max" (vo2max b) ++ opt_num "gripLeft" (gripLeft b)
        ++ opt_num "gripRight" (gripRight b)
        ++ opt_num "sitToStand1min" (sitToStand1min b)
        ++ opt_num "zone2MinsPerWeek" (zone2MinsPerWeek b)
        ++ opt_num "vigorousMinsPerWeek" (vigorousMinsPerWeek b)).
End FitnessTest.

Module MedOrSupp.
Inductive kind_ := Medication | Supplement.

Definition kind_name (k : kind_) : string :=
  match k with Medication => "Medication" | Supplement => "Supplement" end.

Record t := mk {
  id : ID;
  date : ISODate;
  kind : kind_;
  name : string;
  dose : option string;
  notes : option string
}.

(** [{ id: uid(), date: today(), kind: k, name: "" }] *)
Definition fresh (i : ID) (d : ISODate) (k : kind_) : t := mk i d k "" None None.

Definition to_value (b : t) : value :=
  VObj ([("id", VStr (id b)); ("date", VStr (date b));
         ("kind", VStr (kind_name (kind b))); ("name", VStr (name b))]
        ++ opt_str "dose" (dose b) ++ opt_str "notes" (notes b)).
End MedOrSupp.

Module Note.
Record t := mk { id : ID; date : ISODate; text : string }.

(** [{ id: uid(), date: today(), text: "" }] *)
Definition fresh (i : ID) (d : ISODate) : t := mk i d "".

Definition to_value (b : t) : value :=
  VObj [("id", VStr (id b)); ("date", VStr (date b)); ("text", VStr (text b))].
End Note.

#[global] Instance BloodPanel_entry : Entry BloodPanel.t :=
  {| entry_id := BloodPanel.id; entry_date := BloodPanel.date;
     entry_value := BloodPanel.to_value |}.
#[global] Instance ImagingStudy_entry : Entry ImagingStudy.t :=
  {| entry_id := ImagingStudy.id; entry_date := ImagingStudy.date;
     entry_value := ImagingStudy.to_value |}.
#[global] Instance Vitals_entry : Entry Vitals.t :=
  {| entry_id := Vitals.id; entry_date := Vitals.date;
     entry_value := Vitals.to_value |}.
#[global] Instance FitnessTest_entry : Entry FitnessTest.t :=
  {| entry_id := FitnessTest.id; entry_date := FitnessTest.date;
     entry_value := FitnessTest.to_value |}.
#[global] Instance MedOrSupp_entry : Entry MedOrSupp.t :=
  {| entry_id := MedOrSupp.id; entry_date := MedOrSupp.date;
     entry_value := MedOrSupp.to_value |}.
#[global] Instance Note_entry : Entry Note.t :=
  {| entry_id := Note.id; entry_date := Note.date;
     entry_value := Note.to_value |}.

Record Ledger := mkLedger {
  bloods : list BloodPanel.t;
  imaging : list ImagingStudy.t;
  vitals : list Vitals.t;
  fitness : list FitnessTest.t;
  meds : list MedOrSupp.t;
  notes : list Note.t
}.

Definition EMPTY : Ledger := mkLedger [] [] [] [] [] [].

(** The ledger as a JavaScript object. *)
Definition Ledger_to_value (p : Ledger) : value :=
  VObj [("bloods", VArr (map entry_value (bloods p)));
        ("imaging", VArr (map entry_value (imaging p)));
        ("vitals", VArr (map entry_value (vitals p)));
        ("fitness", VArr (map entry_value (fitness p)));
        ("meds", VArr (map entry_value (meds p)));
        ("notes", VArr (map entry_value (notes p)))].

(** [function numberOrEmpty(v?: number) { return v ?? undefined; }] *)
Definition numberOrEmpty (v : option number) : option number :=
  match v with
  | Some n => Some n
  | None => None
  end.

(** *** The updaters handed to [setDb] by the six tabs *)

(** [(p) => ({ ...p, bloods: [...p.bloods, form] })] *)
Definition Bloods_add (form : BloodPanel.t) (p : Ledger) : Ledger :=
  mkLedger (bloods p ++ [form]) (imaging p) (vitals p) (fitness p) (meds p) (notes p).
(** [(p) => ({ ...p, bloods: p.bloods.filter((b) => b.id !== id) })] *)
Definition Bloods_del (id : ID) (p : Ledger) : Ledger :=
  mkLedger (filter (fun b => BloodPanel.id b <> id) (bloods p))
           (imaging p) (vitals p) (fitness p) (meds p) (notes p).

Definition Imaging_add (form : ImagingStudy.t) (p : Ledger) : Ledger :=
  mkLedger (bloods p) (imaging p ++ [form]) (vitals p) (fitness p) (meds p) (notes p).
Definition Imaging_del (id : ID) (p : Ledger) : Ledger :=
  mkLedger (bloods p) (filter (fun b => ImagingStudy.id b <> id) (imaging p))
           (vitals p) (fitness p) (meds p) (notes p).

Definition VitalsTab_add (form : Vitals.t) (p : Ledger) : Ledger :=
  mkLedger (bloods p) (imaging p) (vitals p ++ [form]) (fitness p) (meds p) (notes p).
Definition VitalsTab_del (id : ID) (p : Ledger) : Ledger :=
  mkLedger (bloods p) (imaging p) (filter (fun b => Vitals.id b <> id) (vitals p))
           (fitness p) (meds p) (notes p).

Definition FitnessTab_add (form : FitnessTest.t) (p : Ledger) : Ledger :=
  mkLedger (bloods p) (imaging p) (vitals p) (fitness p ++ [form]) (meds p) (notes p).
Definition FitnessTab_del (id : ID) (p : Ledger) : Ledger :=
  mkLedger (bloods p) (imaging p) (vitals p)
           (filter (fun b => FitnessTest.id b <> id) (fitness p)) (meds p) (notes p).

Definition MedsTab_add (form : MedOrSupp.t) (p : Ledger) : Ledger :=
  mkLedger (bloods p) (imaging p) (vitals p) (fitness p) (meds p ++ [form]) (notes p).
Definition MedsTab_del (id : ID) (p : Ledger) : Ledger :=
  mkLedger (bloods p) (imaging p) (vitals p) (fitness p)
           (filter (fun b => MedOrSupp.id b <> id) (meds p)) (notes p).

Definition NotesTab_add (form : Note.t) (p : Ledger) : Ledger :=
  mkLedger (bloods p) (imaging p) (vitals p) (fitness p) (meds p) (notes p ++ [form]).
Definition NotesTab_del (id : ID) (p : Ledger) : Ledger :=
  mkLedger (bloods p) (imaging p) (vitals p) (fitness p) (meds p)
           (filter (fun b => Note.id b <> id) (notes p)).

(** The six collections, named by the tab that edits them. *)
Inductive Tab := Bloods | Imaging | VitalsTab | FitnessTab | MedsTab | NotesTab.

#[global] Instance Tab_eq_dec : EqDecision Tab.
Proof. solve_decision. Defined.

Definition RecordOf (c : Tab) : Type :=
  match c with
  | Bloods => BloodPanel.t
  | Imaging => ImagingStudy.t
  | VitalsTab => Vitals.t
  | FitnessTab => FitnessTest.t
  | MedsTab => MedOrSupp.t
  | NotesTab => Note.t
  end.

#[global] Instance RecordOf_entry (c : Tab) : Entry (RecordOf c) :=
  match c with
  | Bloods => BloodPanel_entry
  | Imaging => ImagingStudy_entry
  | VitalsTab => Vitals_entry
  | FitnessTab => FitnessTest_entry
  | MedsTab => MedOrSupp_entry
  | NotesTab => Note_entry
  end.

Definition collection (c : Tab) : Ledger -> list (RecordOf c) :=
  match c with
  | Bloods => bloods
  | Imaging => imaging
  | VitalsTab => vitals
  | FitnessTab => fitness
  | MedsTab => meds
  | NotesTab => notes
  end.

(** [addRecord] and [deleteRecord] of the specification: the updater of
    the named tab. *)
Definition addRecord (c : Tab) : RecordOf c -> Ledger -> Ledger :=
  match c with
  | Bloods => Bloods_add
  | Imaging => Imaging_add
  | VitalsTab => VitalsTab_add
  | FitnessTab => FitnessTab_add
  | MedsTab => MedsTab_add
  | NotesTab => NotesTab_add
  end.

Definition deleteRecord (c : Tab) : ID -> Ledger -> Ledger :=
  match c with
  | Bloods => Bloods_del
  | Imaging => Imaging_del
  | VitalsTab => VitalsTab_del
  | FitnessTab => FitnessTab_del
  | MedsTab => MedsTab_del
  | NotesTab => NotesTab_del
  end.

(** *** Derived views of the dashboard *)

(** [[...db.bloods].sort((a, b) => a.date.localeCompare(b.date)).at(-1)] *)
Definition latestBlood (db : Ledger) : option BloodPanel.t :=
  at_minus_1
    (Array_sort (fun a b => localeCompare (BloodPanel.date a) (BloodPanel.date b))
       (bloods db)).

Definition latestVitals (db : Ledger) : option Vitals.t :=
  at_minus_1
    (Array_sort (fun a b => localeCompare (Vitals.date a) (Vitals.date b))
       (vitals db)).

(** History tables: [[...db.bloods].sort((a, b) => b.date.localeCompare(a.date))] *)
Definition history (c : Tab) (db : Ledger) : list (RecordOf c) :=
  Array_sort (fun a b => localeCompare (entry_date b) (entry_date a))
    (collection c db).

(** *** The add-forms

    Each tab keeps the record being typed in [form], created by
    [useState({ id: uid(), date: today(), ... })].  The argument of
    [useState] is evaluated at every render of the tab, so every render
    consumes one call of [uid] and [today]; only the first one, at mount,
    becomes the form.  [calls] counts the calls made so far. *)

Record Session := mkSession {
  tab_db : Ledger;                (* the [db] handed to the tab *)
  form : option { c : Tab & RecordOf c };
  calls : nat
}.

Definition initial_form (c : Tab) (i : ID) (d : ISODate) : RecordOf c :=
  match c with
  | Bloods => BloodPanel.fresh i d
  | Imaging => ImagingStudy.fresh i d
  | VitalsTab => Vitals.fresh i d
  | FitnessTab => FitnessTest.fresh i d
  | MedsTab => MedOrSupp.fresh i d MedOrSupp.Medication
  | NotesTab => Note.fresh i d
  end.

(** The form installed by [add] after a save; the medication form keeps
    [kind: form.kind]. *)
Definition next_form (c : Tab) : RecordOf c -> ID -> ISODate -> RecordOf c :=
  match c with
  | Bloods => fun _ i d => BloodPanel.fresh i d
  | Imaging => fun _ i d => ImagingStudy.fresh i d
  | VitalsTab => fun _ i d => Vitals.fresh i d
  | FitnessTab => fun _ i d => FitnessTest.fresh i d
  | MedsTab => fun f i d => MedOrSupp.fresh i d (MedOrSupp.kind f)
  | NotesTab => fun _ i d => Note.fresh i d
  end.

(** [if (!form.name.trim()) return;] and [if (!form.text.trim()) return;] *)
Definition refused (c : Tab) : RecordOf c -> bool :=
  match c with
  | MedsTab => fun f => is_blank (MedOrSupp.name f)
  | NotesTab => fun f => is_blank (Note.text f)
  | _ => fun _ => false
  end.

(** The [onChange] of the ApoB input of the blood form:
    [setForm({ ...form, apoB: numberOrEmpty(parseFloat(e.target.value)) })] *)
Definition Bloods_onChange_apoB (text : string) (f : BloodPanel.t) : BloodPanel.t :=
  BloodPanel.mk (BloodPanel.id f) (BloodPanel.date f) (BloodPanel.lab f)
    (numberOrEmpty (Some (parseFloat text)))
    (BloodPanel.ldl f) (BloodPanel.hdl f) (BloodPanel.tg f) (BloodPanel.lpa f)
    (BloodPanel.hscrp f) (BloodPanel.a1c f) (BloodPanel.fastingGlucose f)
    (BloodPanel.fastingInsulin f) (BloodPanel.alt f) (BloodPanel.ast f)
    (BloodPanel.creatinine f) (BloodPanel.egfr f) (BloodPanel.uric f)
    (BloodPanel.tsh f) (BloodPanel.ft4 f) (BloodPanel.vitaminD f)
    (BloodPanel.ferritin f) (BloodPanel.b12 f) (BloodPanel.folate f)
    (BloodPanel.notes f).

(** [setForm({ ...form, date: e.target.value })] *)
Definition Bloods_onChange_date (text : string) (f : BloodPanel.t) : BloodPanel.t :=
  BloodPanel.mk (BloodPanel.id f) text (BloodPanel.lab f) (BloodPanel.apoB f)
    (BloodPanel.ldl f) (BloodPanel.hdl f) (BloodPanel.tg f) (BloodPanel.lpa f)
    (BloodPanel.hscrp f) (BloodPanel.a1c f) (BloodPanel.fastingGlucose f)
    (BloodPanel.fastingInsulin f) (BloodPanel.alt f) (BloodPanel.ast f)
    (BloodPanel.creatinine f) (BloodPanel.egfr f) (BloodPanel.uric f)
    (BloodPanel.tsh f) (BloodPanel.ft4 f) (BloodPanel.vitaminD f)
    (BloodPanel.ferritin f) (BloodPanel.b12 f) (BloodPanel.folate f)
    (BloodPanel.notes f).

(** What the user does in the six tabs. *)
Inductive Event :=
| Open (c : Tab)                       (* the tab is shown: its component mounts *)
| Change (c : Tab) (edit : RecordOf c -> RecordOf c)
                                        (* an [onChange] of the form of tab [c] *)
| Save                                  (* the save button: [add] *)
| Delete (id : ID).                     (* a delete button of the open tab: [del] *)

(** No input of a form writes [id]: an [onChange] is [{ ...form, k: v }]
    with [k] some other property. *)
Definition keep_id (c : Tab) (edit : RecordOf c -> RecordOf c) (f : RecordOf c)
  : RecordOf c :=
  if decide (entry_id (edit f) = entry_id f) then edit f else f.

Definition retype (c c' : Tab) (f : RecordOf c) : option (RecordOf c') :=
  match decide (c = c') with
  | left e => Some (eq_rect c RecordOf f c' e)
  | right _ => None
  end.

Definition handle (w : World) (ev : Event) (s : Session) : Session :=
  let n := calls s in
  match ev with
  | Open c =>
      mkSession (tab_db s) (Some (existT c (initial_form c (uid w n) (today w n)))) (S n)
  | Change c edit =>
      match form s with
      | Some (existT c' f) =>
          match retype c' c f with
          | Some f' => mkSession (tab_db s) (Some (existT c (keep_id c edit f'))) (S n)
          | None => s
          end
      | None => s
      end
  | Save =>
      match form s with
      | Some (existT c f) =>
          if refused c f then s
          else mkSession (addRecord c f (tab_db s))
                 (Some (existT c (next_form c f (uid w n) (today w n))))
                 (S (S n))
      | None => s
      end
  | Delete i =>
      match form s with
      | Some (existT c _) => mkSession (deleteRecord c i (tab_db s)) (form s) (S n)
      | None => s
      end
  end.

Definition start : Session := mkSession EMPTY None 0.

Definition run (w : World) (evs : list Event) : Session :=
  foldl (fun s ev => handle w ev s) start evs.

(** Identifiers are unique within each collection. *)
Definition unique_ids (p : Ledger) : Prop :=
  forall c : Tab, NoDup (map entry_id (collection c p)).

(** *** The ledger store: [profile], [db] and [localStorage]

    At run time [db] is whatever [JSON.parse] returned ([as Ledger] checks
    nothing), so the store keeps a [value]. *)

Record State := mkState {
  profile : Profile;
  db : value;
  localStorage : Storage
}.

Definition EMPTY_value : value := Ledger_to_value EMPTY.

(** [localStorage.setItem(key, String(x))] where [x] is the result of
    [JSON.stringify]. *)
Definition setItem_stringified (key : string) (v : value) (ls : Storage) : Storage :=
  <[ key := default "undefined" (JSON_stringify v) ]> ls.

(** [function loadFor(p) { try { const raw = localStorage.getItem(storageKey(p));
      return raw ? JSON.parse(raw) : EMPTY; } catch { return EMPTY; } }] *)
Definition loadFor (ls : Storage) (p : Profile) : value :=
  match ls !! storageKey p with
  | Some raw =>
      if decide (raw = "") then EMPTY_value
      else match JSON_parse raw with
           | Normal v => v
           | Throw _ => EMPTY_value
           end
  | None => EMPTY_value
  end.

(** [function saveFor(p, data) { localStorage.setItem(storageKey(p), JSON.stringify(data)); }] *)
Definition saveFor (p : Profile) (data : value) (ls : Storage) : Storage :=
  setItem_stringified (storageKey p) data ls.

(** The commit that follows a render with a new [profile] (and the first
    render).  Both effects run, in the order of their declaration:
    - [setDb(loadFor(profile))] reads the slot and queues the new [db];
    - [saveFor(profile, db)] writes the [db] of this render, the old one.
    The queued update then renders again with the loaded [db] and only
    the save effect runs.  (When the loaded value is the very object
    already in [db] React skips that second render; the slot then
    already holds its serialisation.)

    This is the state reached when the render with the loaded [db] does
    not throw; [render_with_profile_rendered] below has the other case,
    and so have [mount_rendered] and [setProfile_rendered] for [mount]
    and [selectProfile]. *)
Definition render_with_profile (p : Profile) (old_db : value) (ls : Storage) : State :=
  let loaded := loadFor ls p in
  let ls1 := saveFor p old_db ls in
  mkState p loaded (saveFor p loaded ls1).

(** First render: [useState("Paul")], [useState(EMPTY)]. *)
Definition mount (ls : Storage) : State := render_with_profile Paul EMPTY_value ls.

(** [setProfile(p)]: nothing happens when [p] is the active profile. *)
Definition selectProfile (p : Profile) (st : State) : State :=
  if decide (p = profile st) then st
  else render_with_profile p (db st) (localStorage st).

(** [setDb(v)]: render with the new [db], then the save effect.  This is
    the state reached when that render does not throw; [setDb_rendered]
    below has the other case, and [upload_rendered] has it for [upload]. *)
Definition setDb (v : value) (st : State) : State :=
  mkState (profile st) v (saveFor (profile st) v (localStorage st)).

(** [ImportExport.upload], once the file has been read; [None] when no
    file was chosen.  The second component lists the [alert]s shown. *)
Definition upload (file : option string) (st : State) : State * list string :=
  match file with
  | None => (st, [])
  | Some text =>
      match JSON_parse text with
      | Normal obj => (setDb obj st, [])
      | Throw _ => (st, ["Invalid file"])
      end
  end.

(** [if (confirm(...)) setDb(EMPTY)] *)
Definition reset (confirmed : bool) (st : State) : State :=
  if confirmed then setDb EMPTY_value st else st.

(** *** The trend chart and the tiles of the dashboard *)

Module TrendPoint.
Record t := mk {
  date : ISODate;
  ApoB : option number;
  LDL : option number;
  A1c : option number
}.
End TrendPoint.

(** [[...db.bloods].sort((a, b) => a.date.localeCompare(b.date))
      .map((b) => ({ date: b.date, ApoB: b.apoB, LDL: b.ldl, A1c: b.a1c }))] *)
Definition bloodTrend (db : Ledger) : list TrendPoint.t :=
  map (fun b => TrendPoint.mk (BloodPanel.date b) (BloodPanel.apoB b)
                  (BloodPanel.ldl b) (BloodPanel.a1c b))
    (Array_sort (fun a b => localeCompare (BloodPanel.date a) (BloodPanel.date b))
       (bloods db)).

(** A latest record as the dashboard receives it: the object, or
    [undefined]. *)
Definition latest_value {R : Type} `{Entry R} (latest : option R) : value :=
  match latest with
  | Some r => entry_value r
  | None => VUndefined
  end.

(** [function mmHg(bp?: number) { return bp === undefined ? "--" : String(bp); }] *)
Definition mmHg (bp : value) : outcome string :=
  match bp with
  | VUndefined => Returns "--"
  | _ => ToString bp
  end.

(** [function mgdl(v?: number) { return v === undefined ? "--" : v.toFixed(0); }] *)
Definition mgdl (fp : Binary64) (v : value) : outcome string :=
  match v with
  | VUndefined => Returns "--"
  | _ => toFixed_call fp 0 v
  end.

(** The four tiles of [Dashboard], label and text, in the order they are
    rendered:
    [mgdl(latestBlood?.apoB)], [mgdl(latestBlood?.ldl)],
    [latestBlood?.a1c === undefined ? "--" : latestBlood.a1c.toFixed(2)] and
    [`${mmHg(latestVitals?.systolic)}/${mmHg(latestVitals?.diastolic)}`]. *)
Definition Dashboard (fp : Binary64) (latestBlood latestVitals : value)
  : outcome (list (string * string)) :=
  match mgdl fp (optional_field "apoB" latestBlood) with
  | Throws e => Throws e
  | Returns apoB =>
      match mgdl fp (optional_field "ldl" latestBlood) with
      | Throws e => Throws e
      | Returns ldl =>
          match (match optional_field "a1c" latestBlood with
                 | VUndefined => Returns "--"
                 | a1c => toFixed_call fp 2 a1c
                 end) with
          | Throws e => Throws e
          | Returns a1c =>
              match mmHg (optional_field "systolic" latestVitals) with
              | Throws e => Throws e
              | Returns systolic =>
                  match mmHg (optional_field "diastolic" latestVitals) with
                  | Throws e => Throws e
                  | Returns diastolic =>
                      Returns [("ApoB", apoB); ("LDL-C", ldl); ("HbA1c", a1c);
                               ("Blood Pressure", systolic +:+ "/" +:+ diastolic)]
                  end
              end
          end
      end
  end.

(** *** The component [ImportExport]

    Beside the store it keeps the text area [raw], created by
    [useState(JSON.stringify(db, null, 2))] and set again by the effect
    [setRaw(JSON.stringify(db, null, 2))] whenever [db] changes; [None]
    stands for [undefined]. *)









(** *** Renders that throw

    [db] is whatever [JSON.parse] returned.  At every render with a new
    [db], [LongevityLedgerApp] computes [latestBlood], [latestVitals] and
    [bloodTrend] from it, and [Dashboard], when it is the tab shown,
    prints the tiles; each of these can throw a [TypeError].  Nothing
    catches the exception of a render: React unmounts the page, and the
    effects of that render, the save effect among them, do not run. *)

(** [x.date]. *)
Definition date_text (x : value) : string :=
  match optional_field "date" x with VStr d => d | _ => "" end.

Definition carries_ISO_date (x : value) : bool :=
  match optional_field "date" x with VStr d => is_ISO_date d | _ => false end.

(** [[...c].sort((a, b) => a.date.localeCompare(b.date))] on an array [c],
    where it is determined: fewer than two elements are not compared, and
    on objects that carry ISO dates every comparison succeeds and the
    stable sort has one result.  Otherwise which elements meet in a
    comparison, and so whether one of them throws, is up to the engine:
    [None]. *)
Definition sorted_by_date (c : value) : option (list value) :=
  match c with
  | VArr [] => Some []
  | VArr [x] => Some [x]
  | VArr l =>
      if forallb carries_ISO_date l
      then Some (Array_sort (fun a b => localeCompare (date_text a) (date_text b)) l)
      else None
  | _ => None
  end.

(** [.at(-1)] of the sorted copy, [undefined] when it is empty. *)
Definition latest_of (c : value) : option value :=
  match sorted_by_date c with
  | Some l => Some (default VUndefined (at_minus_1 l))
  | None => None
  end.

(** The renders that are known to throw:
    - [db.bloods] on a [db] that is [null] or [undefined];
    - [[...db.bloods]] and [[...db.vitals]] on what cannot be spread;
    - [b.date] in the [map] of [bloodTrend] on an element that is [null]
      or [undefined] (if the sort before it has not thrown already);
    - the tiles of [Dashboard] on the latest records.  Where a latest
      record is not determined, [undefined] stands for it, on which the
      tiles that read it do not throw. *)
Definition render_throws (fp : Binary64) (dashboard : bool) (db : value) : bool :=
  let bs := optional_field "bloods" db in
  let vs := optional_field "vitals" db in
  (is_nullish db
   || negb (is_array_or_string bs)
   || negb (is_array_or_string vs)
   || match bs with VArr l => existsb is_nullish l | _ => false end
   || (dashboard &&
       match Dashboard fp (default VUndefined (latest_of bs))
               (default VUndefined (latest_of vs)) with
       | Throws _ => true
       | Returns _ => false
       end))%bool.

(** The page beyond that: the digits that [toFixed] prints, whether the
    dashboard is the tab shown (it is when the page opens), and whether
    the rest of a render goes through on a given [db] (the comparisons of
    a sort that is not determined, the chart, the tab that is shown). *)
Record Page := mkPage {
  printer : Binary64;
  dashboard_shown : bool;
  rest_renders : value -> bool
}.

(** The render with [db] does not throw. *)
Definition renders (page : Page) (db : value) : bool :=
  (negb (render_throws (printer page) (dashboard_shown page) db)
   && rest_renders page db)%bool.

Inductive Screen :=
| Up (st : State)         (* the page is shown *)
| Down (ls : Storage).    (* a render threw: the page is gone, the storage stays *)

Definition storage (s : Screen) : Storage :=
  match s with
  | Up st => localStorage st
  | Down ls => ls
  end.

(** [setDb(v)]: the render with the new [db] and, unless it throws, the
    save effect. *)
Definition setDb_rendered (page : Page) (v : value) (st : State) : Screen :=
  if renders page v then Up (setDb v st) else Down (localStorage st).

(** The commit of a render with a new [profile] whose [db], the former
    one, has rendered: the load effect queues the loaded [db], the save
    effect writes the former [db] into the slot of the new profile, and
    the render with the loaded [db] follows.  If that render throws, the
    slot is left with the former [db]. *)
Definition render_with_profile_rendered (page : Page) (p : Profile) (old_db : value)
    (ls : Storage) : Screen :=
  if renders page (loadFor ls p) then Up (render_with_profile p old_db ls)
  else Down (saveFor p old_db ls).

(** The page is opened: the first render has [db = EMPTY]. *)
Definition mount_rendered (page : Page) (ls : Storage) : Screen :=
  if renders page EMPTY_value then render_with_profile_rendered page Paul EMPTY_value ls
  else Down ls.

(** [setProfile(p)] *)
Definition setProfile_rendered (page : Page) (p : Profile) (st : State) : Screen :=
  if decide (p = profile st) then Up st
  else if renders page (db st)
       then render_with_profile_rendered page p (db st) (localStorage st)
       else Down (localStorage st).

(** [ImportExport.upload] as far as the store goes; [upload] has the
    alerts. *)
Definition upload_rendered (page : Page) (file : option string) (st : State) : Screen :=
  match file with
  | None => Up st
  | Some text =>
      match JSON_parse text with
      | Normal obj => setDb_rendered page obj st
      | Throw _ => Up st
      end
  end.

(** The mutations of the ledger: the updaters of the tabs ([add], [del]),
    import and reset.  An updater runs while React renders, so its
    exception (of [[...p.bloods, form]] on a [p.bloods] that cannot be
    spread, say) is one of the render. *)
Inductive Mutation :=
| Updater (f : value -> outcome value)
| Import (file : option string)
| ResetAll (confirmed : bool).

Definition mutate (page : Page) (m : Mutation) (st : State) : Screen :=
  match m with
  | Updater f =>
      match f (db st) with
      | Returns v => setDb_rendered page v st
      | Throws _ => Down (localStorage st)
      end
  | Import file => upload_rendered page file st
  | ResetAll c => if c then setDb_rendered page EMPTY_value st else Up st
  end.

(** *** What the user does to the store *)

Inductive Action :=
| Select (p : Profile)                  (* the profile selector *)
| Mutate (m : Mutation)
| Reopen.                               (* the page is loaded again *)

Definition act (page : Page) (a : Action) (s : Screen) : Screen :=
  match a, s with
  | Reopen, _ => mount_rendered page (storage s)
  | Select p, Up st => setProfile_rendered page p st
  | Mutate m, Up st => mutate page m st
  | _, Down ls => Down ls
  end.

(** The page is opened on the storage [ls], then the actions follow. *)
Definition run_store (page : Page) (ls : Storage) (actions : list Action) : Screen :=
  foldl (fun s a => act page a s) (mount_rendered page ls) actions.

End App.

(** * The minimal variant *)
Module Mini.

Module BloodPanel.
Record t := mk {
  id : ID;
  date : ISODate;
  apoB : option number;
  ldl : option number;
  hdl : option number;
  tg : option number;
  a1c : option number;
  notes : option string
}.

Definition to_value (b : t) : value :=
  VObj ([("id", VStr (id b)); ("date", VStr (date b))]
        ++ opt_num "apoB" (apoB b) ++ opt_num "ldl" (ldl b)
        ++ opt_num "hdl" (hdl b) ++ opt_num "tg" (tg b)
        ++ opt_num "a1c" (a1c b) ++ opt_str "notes" (notes b)).
End BloodPanel.

Module ImagingStudy.
Record t := mk {
  id : ID;
  date : ISODate;
  type : string;
  site : option string;
  resultSummary : option string;
  numericResult : option number
}.

Definition to_value (b : t) : value :=
  VObj ([("id", VStr (id b)); ("date", VStr (date b)); ("type", VStr (type b))]
        ++ opt_str "site" (site b)
        ++ opt_str "resultSummary" (resultSummary b)
        ++ opt_num "numericResult" (numericResult b)).
End ImagingStudy.

Module Vitals.
Record t := mk {
  id : ID;
  date : ISODate;
  weightKg : option number;
  heightCm : option number;
  systolic : option number;
  diastolic : option number;
  restingHR : option number;
  notes : option string
}.

Definition to_value (b : t) : value :=
  VObj ([("id", VStr (id b)); ("date", VStr (date b))]
        ++ opt_num "weightKg" (weightKg b) ++ opt_num "heightCm" (heightCm b)
        ++ opt_num "systolic" (systolic b) ++ opt_num "diastolic" (diastolic b)
        ++ opt_num "restingHR" (restingHR b) ++ opt_str "notes" (notes b)).
End Vitals.

Module FitnessTest.
Record t := mk {
  id : ID;
  date : ISODate;
  vo2max : option number;
  strengthNotes : option string;
  notes : option string
}.

Definition to_value (b : t) : value :=
  VObj ([("id", VStr (id b)); ("date", VStr (date b))]
        ++ opt_num "vo2max" (vo2max b)
        ++ opt_str "strengthNotes" (strengthNotes b)
        ++ opt_str "notes" (notes b)).
End FitnessTest.

Module MedOrSupp.
Inductive kind_ := Medication | Supplement.

Definition kind_name (k : kind_) : string :=
  match k with Medication => "Medication" | Supplement => "Supplement" end.

Record t := mk {
  id : ID;
  date : ISODate;
  kind : kind_;
  name : string;
  dose : option string;
  notes : option string
}.

Definition to_value (b : t) : value :=
  VObj ([("id", VStr (id b)); ("date", VStr (date b));
         ("kind", VStr (kind_name (kind b))); ("name", VStr (name b))]
        ++ opt_str "dose" (dose b) ++ opt_str "notes" (notes b)).
End MedOrSupp.

Module Note.
Record t := mk { id : ID; date : ISODate; text : string }.

Definition to_value (b : t) : value :=
  VObj [("id", VStr (id b)); ("date", VStr (date b)); ("text", VStr (text b))].
End Note.

Record Ledger := mkLedger {
  bloods : list BloodPanel.t;
  imaging : list ImagingStudy.t;
  vitals : list Vitals.t;
  fitness : list FitnessTest.t;
  meds : list MedOrSupp.t;
  notes : list Note.t
}.

Definition EMPTY : Ledger := mkLedger [] [] [] [] [] [].

Definition Ledger_to_value (p : Ledger) : value :=
  VObj [("bloods", VArr (map BloodPanel.to_value (bloods p)));
        ("imaging", VArr (map ImagingStudy.to_value (imaging p)));
        ("vitals", VArr (map Vitals.to_value (vitals p)));
        ("fitness", VArr (map FitnessTest.to_value (fitness p)));
        ("meds", VArr (map MedOrSupp.to_value (meds p)));
        ("notes", VArr (map Note.to_value (notes p)))].

(** [const recentBlood = db.bloods.at(-1);] *)
Definition recentBlood (db : Ledger) : option BloodPanel.t := at_minus_1 (bloods db).

(** *** The two quick adders *)

(** The [panel] of [addBlood]:
    [{ id: uid(), date: today(), apoB: 85, ldl: 95, a1c: 5.3, notes: "example" }] *)
Definition example_panel (i : ID) (d : ISODate) : BloodPanel.t :=
  BloodPanel.mk i d (Some (Finite false 85 0)) (Some (Finite false 95 0)) None None
    (Some (Finite false 53 (-1))) (Some "example").

(** [{ id: uid(), date: today(), text: "Example note" }] *)
Definition example_note (i : ID) (d : ISODate) : Note.t :=
  Note.mk i d "Example note".

(** [(d) => ({ ...d, bloods: [...d.bloods, panel] })] *)
Definition addBlood_updater (panel : BloodPanel.t) (d : Ledger) : Ledger :=
  mkLedger (bloods d ++ [panel]) (imaging d) (vitals d) (fitness d) (meds d) (notes d).

(** [(d) => ({ ...d, notes: [...d.notes, n] })] *)
Definition addNote_updater (n : Note.t) (d : Ledger) : Ledger :=
  mkLedger (bloods d) (imaging d) (vitals d) (fitness d) (meds d) (notes d ++ [n]).

Record Session := mkSession {
  tab_db : Ledger;
  calls : nat
}.

Inductive Event := AddBlood | AddNote.

Definition handle (w : World) (ev : Event) (s : Session) : Session :=
  let n := calls s in
  match ev with
  | AddBlood =>
      mkSession (addBlood_updater (example_panel (uid w n) (today w n)) (tab_db s)) (S n)
  | AddNote =>
      mkSession (addNote_updater (example_note (uid w n) (today w n)) (tab_db s)) (S n)
  end.

Definition start : Session := mkSession EMPTY 0.

Definition run (w : World) (evs : list Event) : Session :=
  foldl (fun s ev => handle w ev s) start evs.

Definition unique_ids (p : Ledger) : Prop :=
  NoDup (map BloodPanel.id (bloods p)) /\ NoDup (map ImagingStudy.id (imaging p)) /\
  NoDup (map Vitals.id (vitals p)) /\ NoDup (map FitnessTest.id (fitness p)) /\
  NoDup (map MedOrSupp.id (meds p)) /\ NoDup (map Note.id (notes p)).

(** *** The ledger store *)

Record State := mkState {
  profile : Profile;
  db : value;
  raw : string;                   (* the text area of the import/export tab *)
  localStorage : Storage
}.

Definition EMPTY_value : value := Ledger_to_value EMPTY.

(** The load effect:
    [const raw = localStorage.getItem(storageKey(profile));
     setDb(raw ? (JSON.parse(raw) as Ledger) : EMPTY);]
    Nothing catches the [SyntaxError] of [JSON.parse] here. *)
Definition load (ls : Storage) (p : Profile) : completion value :=
  match ls !! storageKey p with
  | Some stored =>
      if decide (stored = "") then Normal EMPTY_value else JSON_parse stored
  | None => Normal EMPTY_value
  end.

(** The save effect: [localStorage.setItem(storageKey(profile), JSON.stringify(db));] *)
Definition save (p : Profile) (data : value) (ls : Storage) : Storage :=
  <[ storageKey p := default "undefined" (JSON_stringify data) ]> ls.

(** The commit after a render with a new [profile]: the load effect, then
    the save effect with the [db] of that render, and after the queued
    [setDb] the save effect once more.  An exception of the load effect
    is not caught by the component.  The state is the one reached when
    the render with the loaded [db] does not throw;
    [render_with_profile_rendered] below has the other case. *)
Definition render_with_profile (p : Profile) (old_db : value) (txt : string)
    (ls : Storage) : completion State :=
  match load ls p with
  | Normal loaded => Normal (mkState p loaded txt (save p loaded (save p old_db ls)))
  | Throw e => Throw e
  end.

Definition mount (ls : Storage) : completion State :=
  render_with_profile Paul EMPTY_value "" ls.

Definition selectProfile (p : Profile) (st : State) : completion State :=
  if decide (p = profile st) then Normal st
  else render_with_profile p (db st) (raw st) (localStorage st).

(** [setDb(v)]: render with the new [db], then the save effect.  This is
    the state reached when that render does not throw; [setDb_rendered]
    below has the other case, and [importJson_rendered] has it for
    [importJson]. *)
Definition setDb (v : value) (st : State) : State :=
  mkState (profile st) v (raw st) (save (profile st) v (localStorage st)).

(** [const exportJson = () => setRaw(JSON.stringify(db, null, 2));] *)
Definition exportJson (st : State) : State :=
  mkState (profile st) (db st) (default "undefined" (JSON_stringify_2 (db st)))
    (localStorage st).

(** [try { const parsed = JSON.parse(raw) as Ledger; setDb(parsed);
          alert("Imported JSON for " + profile); }
     catch (e) { alert("Invalid JSON"); }] *)
Definition importJson (st : State) : State * list string :=
  match JSON_parse (raw st) with
  | Normal parsed => (setDb parsed st, ["Imported JSON for " +:+ Profile_name (profile st)])
  | Throw _ => (st, ["Invalid JSON"])
  end.

(** The user types in the text area: [setRaw(e.target.value)]. *)
Definition setRaw (text : string) (st : State) : State :=
  mkState (profile st) (db st) text (localStorage st).

(** [if (confirm(...)) setDb(EMPTY);] *)
Definition resetAll (confirmed : bool) (st : State) : State :=
  if confirmed then setDb EMPTY_value st else st.

(** *** The dashboard: [summary]

    [lastApoB: recentBlood?.apoB ?? null] and the like ([None] stands for
    [null]), and the number of entries of each collection. *)

Module Entries.
Record t := mk {
  bloods : nat;
  imaging : nat;
  vitals : nat;
  fitness : nat;
  meds : nat;
  notes : nat
}.
End Entries.

Record Summary := mkSummary {
  lastApoB : option number;
  lastLDL : option number;
  lastA1c : option number;
  entries : Entries.t
}.

Definition summary (db : Ledger) : Summary :=
  let recentBlood := recentBlood db in
  mkSummary
    (match recentBlood with Some b => BloodPanel.apoB b | None => None end)
    (match recentBlood with Some b => BloodPanel.ldl b | None => None end)
    (match recentBlood with Some b => BloodPanel.a1c b | None => None end)
    (Entries.mk (length (bloods db)) (length (imaging db)) (length (vitals db))
       (length (fitness db)) (length (meds db)) (length (notes db))).

(** *** Renders that throw

    [summary] is computed at every render with a new [db]:
    [db.bloods.at(-1)] asks [db.bloods] for [at], which arrays and strings
    have, and each of the five other collections is asked for its
    [length].  Nothing catches the [TypeError]: React unmounts the page
    and the save effect of that render does not run. *)
Definition summary_throws (db : value) : bool :=
  (is_nullish db
   || negb (is_array_or_string (optional_field "bloods" db))
   || existsb (fun k => is_nullish (optional_field k db))
        ["imaging"; "vitals"; "fitness"; "meds"; "notes"])%bool.

(** The page beyond that: whether the rest of a render goes through on a
    given [db] (the tab that is shown), and whether React still runs the
    save effect of a commit whose load effect has thrown, which depends
    on its version. *)
Record Page := mkPage {
  rest_renders : value -> bool;
  save_after_throw : bool
}.

Definition renders (page : Page) (db : value) : bool :=
  (negb (summary_throws db) && rest_renders page db)%bool.

(** What brought the page down. *)
Inductive Cause :=
| LoadEffect (e : Error)    (* [JSON.parse] in the load effect *)
| Render.                   (* a render *)

Inductive Screen :=
| Up (st : State)
| Down (why : Cause) (ls : Storage).

Definition storage (s : Screen) : Storage :=
  match s with
  | Up st => localStorage st
  | Down _ ls => ls
  end.

Definition setDb_rendered (page : Page) (v : value) (st : State) : Screen :=
  if renders page v then Up (setDb v st) else Down Render (localStorage st).

(** The commit of a render with a new [profile].  An exception of the
    load effect brings the page down.  Otherwise the save effect writes
    the former [db] into the slot of the new profile and the render with
    the loaded [db] follows. *)
Definition render_with_profile_rendered (page : Page) (p : Profile) (old_db : value)
    (txt : string) (ls : Storage) : Screen :=
  match load ls p with
  | Normal loaded =>
      if renders page loaded
      then Up (mkState p loaded txt (save p loaded (save p old_db ls)))
      else Down Render (save p old_db ls)
  | Throw e => Down (LoadEffect e) (if save_after_throw page then save p old_db ls else ls)
  end.

Definition mount_rendered (page : Page) (ls : Storage) : Screen :=
  if renders page EMPTY_value
  then render_with_profile_rendered page Paul EMPTY_value "" ls
  else Down Render ls.

Definition setProfile_rendered (page : Page) (p : Profile) (st : State) : Screen :=
  if decide (p = profile st) then Up st
  else if renders page (db st)
       then render_with_profile_rendered page p (db st) (raw st) (localStorage st)
       else Down Render (localStorage st).

(** [importJson]: the alert is shown before the render. *)
Definition importJson_rendered (page : Page) (st : State) : Screen * list string :=
  match JSON_parse (raw st) with
  | Normal parsed =>
      (setDb_rendered page parsed st,
       ["Imported JSON for " +:+ Profile_name (profile st)])
  | Throw _ => (Up st, ["Invalid JSON"])
  end.

(** The mutations of the ledger.  An updater runs while React renders:
    its exception is one of the render. *)
Inductive Mutation :=
| Updater (f : value -> outcome value)      (* [addBlood], [addNote] *)
| ImportText (text : string)                (* type [text], then Import JSON *)
| ResetAll (confirmed : bool).

Definition mutate (page : Page) (m : Mutation) (st : State) : Screen :=
  match m with
  | Updater f =>
      match f (db st) with
      | Returns v => setDb_rendered page v st
      | Throws _ => Down Render (localStorage st)
      end
  | ImportText text => fst (importJson_rendered page (setRaw text st))
  | ResetAll c => if c then setDb_rendered page EMPTY_value st else Up st
  end.

(** *** What the user does to the store *)

Inductive Action :=
| Select (p : Profile)                  (* a profile button *)
| Mutate (m : Mutation)
| Export                                (* the button Export JSON *)
| Type_ (text : string)                 (* typing in the text area *)
| Import_                               (* the button Import JSON *)
| Reopen.                               (* the page is loaded again *)

Definition act (page : Page) (a : Action) (s : Screen) : Screen :=
  match a, s with
  | Reopen, _ => mount_rendered page (storage s)
  | Select p, Up st => setProfile_rendered page p st
  | Mutate m, Up st => mutate page m st
  | Export, Up st => Up (exportJson st)
  | Type_ text, Up st => Up (setRaw text st)
  | Import_, Up st => fst (importJson_rendered page st)
  | _, Down why ls => Down why ls
  end.

(** The page is opened on the storage [ls], then the actions follow. *)
Definition run_store (page : Page) (ls : Storage) (actions : list Action) : Screen :=
  foldl (fun s a => act page a s) (mount_rendered page ls) actions.

End Mini.

(** ** Reading the derived views

    Dates are compared as strings, code unit by code unit
    ([String.le] is [String.leb], the lexical order). *)

(** Every record of [l] carries an ISO date. *)
Definition ISO_dated {R : Type} `{Entry R} (l : list R) : Prop :=
  Forall (fun r => is_ISO_date (entry_date r) = true) l.

(** [sorted] is [l] sorted by date ascending, ties in their order in [l]. *)
Definition stable_ascending {R : Type} `{Entry R} (l sorted : list R) : Prop :=
  Sorted (fun a b => String.le (entry_date a) (entry_date b)) sorted /\
  sorted ≡ₚ l /\
  forall d : ISODate,
    filter (fun x => entry_date x = d) sorted = filter (fun x => entry_date x = d) l.

(** [r] is the record of [l] with the greatest date, the last one of
    them in [l] when several carry that date. *)
Definition latest_by_date {R : Type} `{Entry R} (l : list R) (r : R) : Prop :=
  exists l1 l2,
    l = l1 ++ r :: l2 /\
    (forall x, x ∈ l1 -> String.le (entry_date x) (entry_date r)) /\
    (forall x, x ∈ l2 -> ~ String.le (entry_date r) (entry_date x)).

#[global] Instance Mini_BloodPanel_entry : Entry Mini.BloodPanel.t :=
  {| entry_id := Mini.BloodPanel.id; entry_date := Mini.BloodPanel.date;
     entry_value := Mini.BloodPanel.to_value |}.

(** ** Identifiers in use *)

Definition App_ids (c : App.Tab) (p : App.Ledger) : list ID :=
  map entry_id (App.collection c p).

(** [i] is one of the first [n] identifiers that [uid] returned. *)
Definition drawn (w : World) (n : nat) (i : ID) : Prop :=
  exists k : nat, (k < n)%nat /\ i = uid w k.

(** What the tabs maintain: identifiers are distinct within a collection
    and are past results of [uid]; the identifier of the form being typed
    is such a result too and is not yet in the ledger. *)
Definition App_invariant (w : World) (s : App.Session) : Prop :=
  (forall c, NoDup (App_ids c (App.tab_db s))) /\
  (forall c i, i ∈ App_ids c (App.tab_db s) -> drawn w (App.calls s) i) /\
  (forall c f, App.form s = Some (existT c f) ->
               drawn w (App.calls s) (entry_id f) /\
               forall c', entry_id f ∉ App_ids c' (App.tab_db s)).

Definition Mini_invariant (w : World) (s : Mini.Session) : Prop :=
  NoDup (map Mini.BloodPanel.id (Mini.bloods (Mini.tab_db s))) /\
  NoDup (map Mini.Note.id (Mini.notes (Mini.tab_db s))) /\
  (forall i, i ∈ map Mini.BloodPanel.id (Mini.bloods (Mini.tab_db s)) ->
             drawn w (Mini.calls s) i) /\
  (forall i, i ∈ map Mini.Note.id (Mini.notes (Mini.tab_db s)) ->
             drawn w (Mini.calls s) i) /\
  Mini.imaging (Mini.tab_db s) = [] /\ Mini.vitals (Mini.tab_db s) = [] /\
  Mini.fitness (Mini.tab_db s) = [] /\ Mini.meds (Mini.tab_db s) = [].

(** Two sample worlds: one whose random source never repeats, one whose
    random source always answers [0.5], printed ["0.i"] in base 36. *)
Definition distinct_world : World :=
  {| Math_random_toString36 := fun n => "0." +:+ repeat_char "a" (S n);
     Date_toISOString := fun _ => "2024-01-10T09:30:00.000Z" |}.

Definition repeating_world : World :=
  {| Math_random_toString36 := fun _ => "0.i";
     Date_toISOString := fun _ => "2024-01-10T09:30:00.000Z" |}.

(** ** What a serialised ledger reads back as *)

(** [JSON.parse(JSON.stringify(v))]: NaN and the infinities become
    [null], so does [undefined] inside an array; a property whose value is
    [undefined] is dropped; negative zero becomes zero; a repeated key
    keeps its first place and its last value. *)
Definition revive_number (n : number) : value :=
  match n with
  | Finite neg m e => VNum (if N.eqb m 0 then Finite false 0 0 else mkFinite neg m e)
  | _ => VNull
  end.

Definition is_undefined (v : value) : bool :=
  match v with VUndefined => true | _ => false end.

Definition revive_members (f : value -> value) :=
  fix members (ps acc : list (string * value)) : list (string * value) :=
    match ps with
    | [] => acc
    | kv :: rest =>
        if is_undefined (snd kv) then members rest acc
        else members rest (set_property (fst kv) (f (snd kv)) acc)
    end.

Fixpoint revive (v : value) : value :=
  match v with
  | VUndefined => VNull
  | VNum n => revive_number n
  | VArr l => VArr (map revive l)
  | VObj ps => VObj (revive_members revive ps [])
  | _ => v
  end.

(** An upper bound of the depth of the calls [parse_value] makes on the
    text of [v]. *)
Fixpoint size (v : value) : nat :=
  match v with
  | VArr l => S (list_sum (map (fun x => S (size x)) l))
  | VObj ps =>
      S (list_sum (map (fun kv => if is_undefined (snd kv) then O
                                  else S (size (snd kv))) ps))
  | _ => 1%nat
  end.

(** Strings of decimal digits, and texts that cannot continue a number. *)
Fixpoint digits_only (s : string) : bool :=
  match s with
  | "" => true
  | String c r => (is_digit c && digits_only r)%bool
  end.

Definition no_digit_head (s : string) : bool :=
  match s with
  | "" => true
  | String c _ => negb (is_digit c)
  end.

Definition ends_number (rest : string) : bool :=
  match rest with
  | "" => true
  | String c _ =>
      (negb (is_digit c) && negb (Ascii.eqb c ".") &&
       negb (Ascii.eqb c "e") && negb (Ascii.eqb c "E"))%bool
  end.

(** The text of an array element and of an object member, as
    [SerializeJSONProperty] writes them. *)
Definition elem_text (x : value) : string :=
  default "null" (SerializeJSONProperty x).

Definition member_text (kv : string * value) : option string :=
  match SerializeJSONProperty (snd kv) with
  | Some t => Some (QuoteJSONString (fst kv) +:+ ":" +:+ t)
  | None => None
  end.

Definition value_start (c : ascii) : bool :=
  (is_digit c || Ascii.eqb c "-" || Ascii.eqb c "[" || Ascii.eqb c "{" ||
   Ascii.eqb c dquote || Ascii.eqb c "t" || Ascii.eqb c "f" || Ascii.eqb c "n")%bool.

(** Induction on values, with the property available for every element
    and every member. *)
Section value_induction.
Variable P : value -> Prop.
Hypothesis Hundefined : P VUndefined.
Hypothesis Hnull : P VNull.
Hypothesis Hbool : forall b, P (VBool b).
Hypothesis Hnum : forall n, P (VNum n).
Hypothesis Hstr : forall s, P (VStr s).
Hypothesis Harr : forall l, Forall P l -> P (VArr l).
Hypothesis Hobj : forall ps, Forall (fun kv => P (snd kv)) ps -> P (VObj ps).

Fixpoint value_ind (v : value) : P v :=
  match v with
  | VUndefined => Hundefined
  | VNull => Hnull
  | VBool b => Hbool b
  | VNum n => Hnum n
  | VStr s => Hstr s
  | VArr l =>
      Harr l ((fix all (l : list value) : Forall P l :=
                 match l with
                 | [] => List.Forall_nil P
                 | x :: l' => List.Forall_cons P x l' (value_ind x) (all l')
                 end) l)
  | VObj ps =>
      Hobj ps ((fix all (ps : list (string * value))
                  : Forall (fun kv => P (snd kv)) ps :=
                  match ps with
                  | [] => List.Forall_nil _
                  | kv :: ps' =>
                      List.Forall_cons (fun kv => P (snd kv)) kv ps'
                        (value_ind (snd kv)) (all ps')
                  end) ps)
  end.
End value_induction.


(** [v] is read back from its text by [parse_value], given the fuel its
    size asks for and a text after it that cannot continue a number. *)
Definition round_trips (v : value) : Prop :=
  forall text fuel rest,
    SerializeJSONProperty v = Some text -> (size v <= fuel)%nat ->
    ends_number rest = true ->
    parse_value fuel (text +:+ rest) = Some (revive v, rest).


(** What [JSON.parse] can return as a number: no negative zero, no
    trailing zero in the mantissa. *)
Definition canonical (n : number) : bool :=
  match n with
  | Finite neg m e =>
      if N.eqb m 0 then (negb neg && Z.eqb e 0)%bool else negb (N.eqb (m mod 10) 0)
  | _ => false
  end.

(** Values that are their own JSON image. *)
Fixpoint JSON_clean (v : value) : bool :=
  match v with
  | VUndefined => false
  | VNum n => canonical n
  | VArr l => forallb JSON_clean l
  | VObj ps =>
      (bool_decide (NoDup (map fst ps)) &&
       forallb (fun kv => JSON_clean (snd kv)) ps)%bool
  | _ => true
  end.

(** The slot of the active profile holds the text of the ledger in memory. *)
Definition Mini_saved (st : Mini.State) : Prop :=
  exists text,
    JSON_stringify (Mini.db st) = Some text /\
    Mini.localStorage st !! storageKey (Mini.profile st) = Some text.


(** Every number of [v] is one that [JSON.parse] can return, and no
    [undefined] occurs in [v]. *)
Fixpoint numbers_canonical (v : value) : bool :=
  match v with
  | VUndefined => false
  | VNum n => canonical n
  | VArr l => forallb numbers_canonical l
  | VObj ps => forallb (fun kv => numbers_canonical (snd kv)) ps
  | _ => true
  end.

(** No object of [v] has two properties of one name. *)
Fixpoint keys_distinct (v : value) : bool :=
  match v with
  | VArr l => forallb keys_distinct l
  | VObj ps =>
      (bool_decide (NoDup (map fst ps)) &&
       forallb (fun kv => keys_distinct (snd kv)) ps)%bool
  | _ => true
  end.

Definition is_atom (v : value) : bool :=
  match v with VArr _ | VObj _ => false | _ => true end.


(** A successful run reads at least one character, and succeeds alike
    with any fuel that is at least the number of characters it reads. *)
Definition fuel_free {A : Type} (run : nat -> string -> option (A * string))
    (f : nat) : Prop :=
  forall s a r,
    run f s = Some (a, r) ->
    (String.length r < String.length s)%nat /\
    forall f', (String.length s - String.length r <= f')%nat -> run f' s = Some (a, r).

(** ** The history tables *)

(** [sorted] is [l] sorted by date descending, ties in their order in [l]. *)
Definition stable_descending {R : Type} `{Entry R} (l sorted : list R) : Prop :=
  Sorted (fun a b => String.le (entry_date b) (entry_date a)) sorted /\
  sorted ≡ₚ l /\
  forall d : ISODate,
    filter (fun x => entry_date x = d) sorted = filter (fun x => entry_date x = d) l.

(** ** The text of [JSON.stringify(v, null, 2)] *)

(** Texts made of JSON white space only. *)
Fixpoint all_ws (s : string) : bool :=
  match s with
  | "" => true
  | String c r => (is_ws c && all_ws r)%bool
  end.

(** An array element and an object member as written at the
    indentation [indent]. *)
Definition gap_elem (indent : string) (x : value) : string :=
  default "null" (SerializeJSONPropertyGap indent x).

Definition gap_member (indent : string) (kv : string * value) : option string :=
  match SerializeJSONPropertyGap indent (snd kv) with
  | Some t => Some (QuoteJSONString (fst kv) +:+ ": " +:+ t)
  | None => None
  end.

(** [v] is read back from its indented text by [parse_value]. *)
Definition round_trips_gap (v : value) : Prop :=
  forall indent text fuel rest,
    all_ws indent = true ->
    SerializeJSONPropertyGap indent v = Some text -> (size v <= fuel)%nat ->
    ends_number rest = true ->
    parse_value fuel (text +:+ rest) = Some (revive v, rest).

(** ** Storage that the load effect can read *)

(** Every slot is absent, empty or JSON text. *)
Definition readable (ls : Storage) : Prop :=
  forall p : Profile,
    match ls !! storageKey p with
    | Some text => text = "" \/ exists v, JSON_parse text = Normal v
    | None => True
    end.

(** ** Reading the import/export tab *)


(** ** The slot of the active profile *)

(** The slot of the active profile holds what [JSON.stringify(db)] gave
    when [db] was last set. *)
Definition App_persisted (st : App.State) : Prop :=
  App.localStorage st !! storageKey (App.profile st)
  = Some (default "undefined" (JSON_stringify (App.db st))).

(** ** The page while it is shown *)

(** A sample page of each variant: the dashboard is shown, [toFixed]
    prints the digits of the mantissa, and a render throws only where
    [render_throws] and [summary_throws] say so. *)
Definition sample_printer : Binary64 :=
  {| toFixed_finite := fun _ _ m _ => digit_string m |}.
Definition sample_page : App.Page := App.mkPage sample_printer true (fun _ => true).
Definition sample_Mini_page : Mini.Page := Mini.mkPage (fun _ => true) false.

(** What holds of the store as long as the page is shown: the ledger in
    memory has rendered and the slot of the active profile holds its
    text.  In the minimal variant, moreover, every slot can be read, and
    only a render brings the page down. *)
Definition App_shown (page : App.Page) (s : App.Screen) : Prop :=
  match s with
  | App.Up st => App.renders page (App.db st) = true /\ App_persisted st
  | App.Down _ => True
  end.

Definition Mini_shown (page : Mini.Page) (s : Mini.Screen) : Prop :=
  readable (Mini.storage s) /\
  match s with
  | Mini.Up st => Mini.renders page (Mini.db st) = true /\ Mini_saved st
  | Mini.Down why _ => why = Mini.Render
  end.

(** ** Reading the tiles *)

Definition is_finite (n : number) : bool :=
  match n with Finite _ _ _ => true | _ => false end.

(** The text of a tile for a field that is a number or absent. *)
Definition tile_text (print : number -> string) (x : option number) : string :=
  match x with
  | Some n => print n
  | None => "--"
  end.

(** ** What the save buttons keep out of the ledger *)

(** No medication without a name, no note without a text. *)
Definition named (p : App.Ledger) : Prop :=
  Forall (fun m => is_blank (App.MedOrSupp.name m) = false) (App.meds p) /\
  Forall (fun n => is_blank (App.Note.text n) = false) (App.notes p).

(** ** Reading the trend chart *)

(** The point of the chart for a blood panel. *)
Definition trend_point (b : App.BloodPanel.t) : App.TrendPoint.t :=
  App.TrendPoint.mk (App.BloodPanel.date b) (App.BloodPanel.apoB b)
    (App.BloodPanel.ldl b) (App.BloodPanel.a1c b).

(** * Properties *)

(** ** Texts *)

Lemma app_String (c : ascii) (s t : string) : String c s +:+ t = String c (s +:+ t).
Proof. reflexivity. Qed.
Lemma app_assoc_str (a b c : string) : (a +:+ b) +:+ c = a +:+ (b +:+ c).
Proof. induction a as [|x a IH]; [reflexivity|]. rewrite !app_String. by rewrite IH. Qed.
Lemma length_app_str (a b : string) :
  String.length (a +:+ b) = (String.length a + String.length b)%nat.
Proof. induction a as [|x a IH]; [reflexivity|]. rewrite app_String. simpl. by rewrite IH. Qed.

Lemma span_digits_app (ds rest : string) :
  digits_only ds = true -> no_digit_head rest = true ->
  span_digits (ds +:+ rest) = (ds, rest).
Proof.
  intros Hds Hrest. induction ds as [|c ds IH].
  - destruct rest as [|c r]; [reflexivity|]. simpl in *.
    apply negb_true_iff in Hrest. by rewrite Hrest.
  - simpl in Hds. apply andb_true_iff in Hds as [Hc Hds].
    rewrite app_String. simpl. rewrite Hc, (IH Hds). reflexivity.
Qed.

Lemma digits_value_app (acc : N) (a b : string) :
  digits_value acc (a +:+ b) = digits_value (digits_value acc a) b.
Proof.
  revert acc. induction a as [|c a IH]; intros acc; [reflexivity|].
  rewrite app_String. simpl. apply IH.
Qed.

Lemma digits_only_app (a b : string) :
  digits_only (a +:+ b) = (digits_only a && digits_only b)%bool.
Proof.
  induction a as [|c a IH]; [reflexivity|]. rewrite app_String. simpl.
  rewrite IH. by rewrite andb_assoc.
Qed.

Lemma digits_only_uint (d : Decimal.uint) :
  digits_only (NilEmpty.string_of_uint d) = true.
Proof. induction d; simpl; auto. Qed.

Lemma digits_value_uint_acc (d : Decimal.uint) (acc : positive) :
  digits_value (N.pos acc) (NilEmpty.string_of_uint d) = N.pos (Pos.of_uint_acc d acc).
Proof.
  revert acc. induction d; intros acc; simpl; [reflexivity|..];
    rewrite <- IHd; f_equal; lia.
Qed.

Lemma digits_value_uint (d : Decimal.uint) :
  digits_value 0 (NilEmpty.string_of_uint d) = N.of_uint d.
Proof.
  unfold N.of_uint. induction d; simpl; [reflexivity|assumption|..];
    apply digits_value_uint_acc.
Qed.

Lemma digit_string_uint (m : N) :
  digit_string m = NilEmpty.string_of_uint (N.to_uint m).
Proof.
  unfold digit_string, NilZero.string_of_uint.
  destruct (N.to_uint m) eqn:H; try reflexivity.
  destruct m; simpl in H; [discriminate|]. by apply DecimalPos.Unsigned.to_uint_nonnil in H.
Qed.

Lemma digits_only_digit_string (m : N) : digits_only (digit_string m) = true.
Proof. rewrite digit_string_uint. apply digits_only_uint. Qed.

Lemma digits_value_digit_string (m : N) : digits_value 0 (digit_string m) = m.
Proof. rewrite digit_string_uint, digits_value_uint. apply DecimalN.Unsigned.of_to. Qed.

(** The first digit of a positive number is not zero. *)
Lemma digit_string_head (m : N) :
  m <> 0%N ->
  exists c t, digit_string m = String c t /\ Ascii.eqb c "0" = false /\ is_digit c = true.
Proof.
  intros Hm. rewrite digit_string_uint.
  pose proof (DecimalN.Unsigned.to_of (N.to_uint m)) as Hnorm.
  rewrite DecimalN.Unsigned.of_to in Hnorm.
  destruct m as [|p]; [done|]. simpl in *.
  pose proof (DecimalPos.Unsigned.to_uint_nonzero p) as Hnz.
  pose proof (DecimalPos.Unsigned.to_uint_nonnil p) as Hnn.
  destruct (Pos.to_uint p) as [|d|d|d|d|d|d|d|d|d|d] eqn:Hp; try done;
    try (simpl; eexists _, _; split; [reflexivity|split; reflexivity]).
  exfalso. unfold Decimal.unorm in Hnorm. simpl in Hnorm.
  destruct (Decimal.nzhead d) eqn:Hd; try discriminate.
  - injection Hnorm as Hnorm. subst d. by apply Hnz.
  - injection Hnorm as Hnorm. rewrite Hnorm in Hd. by apply nzhead_nonzero in Hd.
Qed.

Lemma parse_string_body_quote_char (c : ascii) (t : string) :
  parse_string_body (quote_char c +:+ t)
  = match parse_string_body t with
    | Some (u, r) => Some (String c u, r)
    | None => None
    end.
Proof.
  destruct c as [[] [] [] [] [] [] [] []]; reflexivity.
Qed.

Lemma parse_string_body_quoted (s rest : string) :
  parse_string_body (quote_chars s +:+ String dquote rest) = Some (s, rest).
Proof.
  induction s as [|c s IH].
  - reflexivity.
  - simpl quote_chars. rewrite app_assoc_str, parse_string_body_quote_char, IH. reflexivity.
Qed.

(** ** Numbers: printing and reading *)

(** strip_zeros *)
Lemma log2_div10 (m : N) : (10 <= m)%N -> (N.log2 (m / 10) < N.log2 m)%N.
Proof.
  intros Hm.
  assert (H2 : (2 * (m / 10) <= m)%N).
  { pose proof (N.Div0.mul_div_le m 10). lia. }
  assert (Hpos : (0 < m / 10)%N).
  { apply N.div_str_pos. lia. }
  pose proof (N.log2_double (m / 10) Hpos) as Hd.
  pose proof (N.log2_le_mono _ _ H2). lia.
Qed.

Lemma strip_zeros_fuel (f1 f2 : nat) (m : N) (e : Z) :
  m <> 0%N ->
  (N.to_nat (N.log2 m) <= f1)%nat -> (N.to_nat (N.log2 m) <= f2)%nat ->
  strip_zeros f1 m e = strip_zeros f2 m e.
Proof.
  revert f2 m e. induction f1 as [|f1 IH]; intros f2 m e Hm H1 H2.
  - assert (m = 1%N) as ->.
    { destruct (N.log2 m) eqn:Hl; [|lia].
      destruct (N.le_gt_cases m 1) as [Hle|Hgt]; [lia|].
      apply N.log2_pos in Hgt. lia. }
    destruct f2; reflexivity.
  - simpl. destruct ((m mod 10 =? 0)%N && negb (m =? 0)%N)%bool eqn:Hc.
    + apply andb_true_iff in Hc as [Hmod _]. apply N.eqb_eq in Hmod.
      assert (Hm10 : (10 <= m)%N).
      { pose proof (N.div_mod m 10 ltac:(lia)) as Hdm.
        destruct (N.le_gt_cases 10 m); [assumption|].
        rewrite N.div_small in Hdm by lia. lia. }
      pose proof (log2_div10 m Hm10) as Hlog.
      destruct f2 as [|f2]; [lia|]. simpl.
      rewrite Hmod. simpl. replace (m =? 0)%N with false by (symmetry; apply N.eqb_neq; lia).
      simpl. apply IH.
      * intros H0. apply N.div_small_iff in H0; lia.
      * lia.
      * lia.
    + destruct f2 as [|f2]; [reflexivity|]. simpl. by rewrite Hc.
Qed.

Lemma mkFinite_mul10 (neg : bool) (m : N) (e : Z) :
  m <> 0%N -> mkFinite neg (m * 10) e = mkFinite neg m (e + 1).
Proof.
  intros Hm. unfold mkFinite.
  replace (m * 10 =? 0)%N with false by (symmetry; apply N.eqb_neq; lia).
  replace (m =? 0)%N with false by (symmetry; apply N.eqb_neq; lia).
  assert (Hlog : (N.log2 m < N.log2 (m * 10))%N).
  { assert (H2 : (2 * m <= m * 10)%N) by lia.
    pose proof (N.log2_double m ltac:(lia)).
    pose proof (N.log2_le_mono _ _ H2). lia. }
  destruct (N.to_nat (N.log2 (m * 10))) as [|f] eqn:Hf; [lia|].
  simpl. rewrite N.Div0.mod_mul. simpl.
  replace (m * 10 =? 0)%N with false by (symmetry; apply N.eqb_neq; lia).
  simpl. rewrite N.div_mul by lia.
  rewrite (strip_zeros_fuel f (N.to_nat (N.log2 m)) m (e + 1)); [reflexivity|assumption|lia|lia].
Qed.

Lemma mkFinite_pow10 (neg : bool) (m : N) (e : Z) (j : nat) :
  m <> 0%N -> mkFinite neg (m * 10 ^ N.of_nat j) e = mkFinite neg m (e + Z.of_nat j).
Proof.
  intros Hm. revert e. induction j as [|j IH]; intros e.
  - simpl. rewrite N.mul_1_r. f_equal. lia.
  - rewrite Nat2N.inj_succ, N.pow_succ_r'.
    replace (m * (10 * 10 ^ N.of_nat j))%N with ((m * 10 ^ N.of_nat j) * 10)%N by lia.
    rewrite mkFinite_mul10.
    + rewrite IH. f_equal. lia.
    + apply N.neq_mul_0. split; [assumption|]. apply N.pow_nonzero. lia.
Qed.

Lemma digits_value_zeros (acc : N) (j : nat) :
  digits_value acc (repeat_char "0" j) = (acc * 10 ^ N.of_nat j)%N.
Proof.
  revert acc. induction j as [|j IH]; intros acc.
  - simpl. lia.
  - simpl repeat_char. cbn [digits_value]. rewrite IH.
    rewrite Nat2N.inj_succ, N.pow_succ_r'. simpl. lia.
Qed.

Lemma digits_only_zeros (j : nat) : digits_only (repeat_char "0" j) = true.
Proof. induction j; simpl; auto. Qed.

Lemma length_zeros (c : ascii) (j : nat) : String.length (repeat_char c j) = j.
Proof. induction j; simpl; auto. Qed.

Lemma take_drop_str (n : nat) (s : string) : take_str n s +:+ drop_str n s = s.
Proof.
  revert s. induction n as [|n IH]; intros [|c s]; try reflexivity.
  simpl. rewrite app_String. by rewrite IH.
Qed.

Lemma length_drop_str (n : nat) (s : string) :
  String.length (drop_str n s) = (String.length s - n)%nat.
Proof. revert s. induction n as [|n IH]; intros [|c s]; simpl; auto. Qed.

Lemma digits_only_take (n : nat) (s : string) :
  digits_only s = true -> digits_only (take_str n s) = true.
Proof.
  revert s. induction n as [|n IH]; intros [|c s] H; try reflexivity.
  simpl in *. apply andb_true_iff in H as [-> H]. simpl. by apply IH.
Qed.

Lemma digits_only_drop (n : nat) (s : string) :
  digits_only s = true -> digits_only (drop_str n s) = true.
Proof.
  revert s. induction n as [|n IH]; intros [|c s] H; try assumption; try reflexivity.
  simpl in *. apply andb_true_iff in H as [_ H]. by apply IH.
Qed.

Lemma ends_number_no_digit (rest : string) :
  ends_number rest = true -> no_digit_head rest = true.
Proof.
  destruct rest as [|c r]; [done|]. simpl.
  intros H. repeat (apply andb_true_iff in H as [H _]). exact H.
Qed.

Lemma parse_fraction_none (rest : string) :
  ends_number rest = true -> parse_fraction rest = Some ("", rest).
Proof.
  destruct rest as [|c r]; [done|]. simpl. intros H.
  apply andb_true_iff in H as [H _]. apply andb_true_iff in H as [H _].
  apply andb_true_iff in H as [_ H]. apply negb_true_iff in H. by rewrite H.
Qed.

Lemma parse_exponent_none (rest : string) :
  ends_number rest = true -> parse_exponent rest = Some (0, rest).
Proof.
  destruct rest as [|c r]; [done|]. simpl. intros H.
  apply andb_true_iff in H as [H HE]. apply andb_true_iff in H as [_ He].
  apply negb_true_iff in He, HE. by rewrite He, HE.
Qed.

Lemma parse_fraction_some (fp rest : string) :
  digits_only fp = true -> fp <> "" -> no_digit_head rest = true ->
  parse_fraction ("." +:+ fp +:+ rest) = Some (fp, rest).
Proof.
  intros Hd Hne Hr. change ("." +:+ fp +:+ rest) with (String "." (fp +:+ rest)).
  cbn [parse_fraction]. change (Ascii.eqb "." ".") with true. cbv iota.
  rewrite (span_digits_app fp rest Hd Hr).
  destruct fp; [done|reflexivity].
Qed.

Lemma digit_string_nonempty (m : N) : digit_string m <> "".
Proof.
  rewrite digit_string_uint. destruct m as [|p]; [discriminate|]. simpl.
  pose proof (DecimalPos.Unsigned.to_uint_nonnil p).
  destruct (Pos.to_uint p); try discriminate; done.
Qed.

Lemma parse_exponent_text (x : Z) (rest : string) :
  no_digit_head rest = true ->
  parse_exponent (exponent_text x +:+ rest) = Some (x, rest).
Proof.
  intros Hr. unfold exponent_text.
  pose proof (digits_only_digit_string (Z.abs_N x)) as Hd.
  pose proof (digits_value_digit_string (Z.abs_N x)) as Hv.
  pose proof (digit_string_nonempty (Z.abs_N x)) as Hne.
  destruct (Z.ltb x 0) eqn:Hx; rewrite !app_assoc_str.
  - change (parse_exponent (String "e" (String "-" (digit_string (Z.abs_N x) +:+ rest)))
            = Some (x, rest)).
    unfold parse_exponent. simpl. rewrite (span_digits_app _ _ Hd Hr).
    destruct (digit_string (Z.abs_N x)) eqn:Hs; [done|]. rewrite Hv.
    do 2 f_equal. apply Z.ltb_lt in Hx. lia.
  - change (parse_exponent (String "e" (String "+" (digit_string (Z.abs_N x) +:+ rest)))
            = Some (x, rest)).
    unfold parse_exponent. simpl. rewrite (span_digits_app _ _ Hd Hr).
    destruct (digit_string (Z.abs_N x)) eqn:Hs; [done|]. rewrite Hv.
    do 2 f_equal. apply Z.ltb_ge in Hx. lia.
Qed.

Lemma has_leading_zero_head (c : ascii) (t : string) :
  Ascii.eqb c "0" = false -> has_leading_zero (String c t) = false.
Proof. intros H. simpl. by destruct t. Qed.

Lemma parse_unsigned_shape (neg : bool) (ip tail fp s3 rest : string) (x : Z) :
  digits_only ip = true -> ip <> "" -> has_leading_zero ip = false ->
  no_digit_head tail = true ->
  parse_fraction tail = Some (fp, s3) ->
  parse_exponent s3 = Some (x, rest) ->
  parse_unsigned neg (ip +:+ tail)
  = Some (mkFinite neg (digits_value 0 (ip +:+ fp)) (x - Z.of_nat (String.length fp)), rest).
Proof.
  intros Hd Hne Hlz Ht Hf He. unfold parse_unsigned.
  rewrite span_digits_app by assumption.
  destruct ip as [|c ip]; [done|]. rewrite Hlz, Hf, He. reflexivity.
Qed.

Lemma is_digit_not_minus (c : ascii) : is_digit c = true -> Ascii.eqb c "-" = false.
Proof.
  destruct c as [[] [] [] [] [] [] [] []]; try reflexivity; discriminate.
Qed.

Lemma parse_number_signed (neg : bool) (c : ascii) (t rest : string) :
  is_digit c = true ->
  parse_number ((if neg then "-" +:+ String c t else String c t) +:+ rest)
  = parse_unsigned neg (String c t +:+ rest).
Proof.
  intros Hc. destruct neg.
  - reflexivity.
  - rewrite app_String. simpl. by rewrite (is_digit_not_minus c Hc).
Qed.

Lemma app_empty_r (s : string) : s +:+ "" = s.
Proof. induction s as [|c s IH]; [reflexivity|]. rewrite app_String. by rewrite IH. Qed.

Ltac exponent_is e :=
  match goal with
  | |- Some (mkFinite _ _ ?X, _) = _ => replace X with e; [reflexivity|]
  end.

Lemma digits_only_head (c : ascii) (t : string) :
  digits_only (String c t) = true -> is_digit c = true.
Proof. simpl. intros H. by apply andb_true_iff in H as [H _]. Qed.

(** Reading back the digits printed for mantissa [m] and exponent [e]. *)
Lemma parse_unsigned_digits (neg : bool) (m : N) (e : Z) (rest : string) :
  m <> 0%N -> ends_number rest = true ->
  parse_unsigned neg (Number_toString_digits (digit_string m) e +:+ rest)
  = Some (mkFinite neg m e, rest) /\
  exists c t, Number_toString_digits (digit_string m) e = String c t /\
              is_digit c = true.
Proof.
  intros Hm Hrest.
  destruct (digit_string_head m Hm) as (c & t & Hs & Hc0 & Hc).
  pose proof (digits_only_digit_string m) as Hd.
  pose proof (digits_value_digit_string m) as Hv.
  pose proof (ends_number_no_digit rest Hrest) as Hnd.
  unfold Number_toString_digits.
  set (s := digit_string m) in *.
  set (k := Z.of_nat (String.length s)).
  assert (Hk : 1 <= k) by (unfold k; rewrite Hs; simpl; lia).
  destruct (Z.leb k (k + e) && Z.leb (k + e) 21)%bool eqn:C1.
  { (* integer *)
    apply andb_true_iff in C1 as [C1 _]. apply Z.leb_le in C1.
    split; [|rewrite Hs, app_String; eauto].
    rewrite (parse_unsigned_shape neg (s +:+ repeat_char "0" (Z.to_nat (k + e - k)))
               rest "" rest rest 0).
    - rewrite app_empty_r, digits_value_app, Hv, digits_value_zeros.
      rewrite mkFinite_pow10 by assumption. exponent_is e. simpl. lia.
    - by rewrite digits_only_app, Hd, digits_only_zeros.
    - by rewrite Hs, app_String.
    - rewrite Hs, app_String. by apply has_leading_zero_head.
    - assumption.
    - by apply parse_fraction_none.
    - by apply parse_exponent_none. }
  destruct (Z.ltb 0 (k + e) && Z.leb (k + e) 21)%bool eqn:C2.
  { (* fixed point *)
    apply andb_true_iff in C2 as [C2 C2']. apply Z.ltb_lt in C2. apply Z.leb_le in C2'.
    apply andb_false_iff in C1 as [C1|C1]; [apply Z.leb_gt in C1|apply Z.leb_gt in C1; lia].
    destruct (Z.to_nat (k + e)) as [|n] eqn:Hn; [lia|].
    split; [|rewrite Hs; simpl; rewrite app_String; eauto].
    rewrite !app_assoc_str.
    assert (Hlen : String.length (drop_str (S n) s) = (String.length s - S n)%nat)
      by apply length_drop_str.
    rewrite (parse_unsigned_shape neg (take_str (S n) s)
               ("." +:+ drop_str (S n) s +:+ rest) (drop_str (S n) s) rest rest 0).
    - rewrite take_drop_str, Hv. exponent_is e. rewrite Hlen. unfold k in *. lia.
    - by apply digits_only_take.
    - by rewrite Hs.
    - rewrite Hs. simpl. by apply has_leading_zero_head.
    - reflexivity.
    - apply parse_fraction_some; [by apply digits_only_drop| |assumption].
      intros Hnil. rewrite Hnil in Hlen. simpl in Hlen. unfold k in *. lia.
    - by apply parse_exponent_none. }
  destruct (Z.ltb (-6) (k + e) && Z.leb (k + e) 0)%bool eqn:C3.
  { (* leading zeros *)
    apply andb_true_iff in C3 as [C3 C3']. apply Z.ltb_lt in C3. apply Z.leb_le in C3'.
    split; [|eexists _, _; split; reflexivity].
    change (("0." +:+ repeat_char "0" (Z.to_nat (- (k + e))) +:+ s) +:+ rest)
      with ("0" +:+ ("." +:+ (repeat_char "0" (Z.to_nat (- (k + e))) +:+ s) +:+ rest)).
    rewrite (parse_unsigned_shape neg "0" _
               (repeat_char "0" (Z.to_nat (- (k + e))) +:+ s) rest rest 0);
      try reflexivity; try done.
    - change ("0" +:+ repeat_char "0" (Z.to_nat (- (k + e))) +:+ s)
        with (repeat_char "0" (S (Z.to_nat (- (k + e)))) +:+ s).
      rewrite digits_value_app, digits_value_zeros, N.mul_0_l, Hv.
      exponent_is e. rewrite length_app_str, length_zeros. unfold k in *. lia.
    - apply parse_fraction_some; [|by rewrite Hs; destruct (Z.to_nat _)|assumption].
      by rewrite digits_only_app, digits_only_zeros, Hd.
    - by apply parse_exponent_none. }
  assert (Hexp : forall r', r' = exponent_text (k + e - 1) +:+ rest ->
                            no_digit_head r' = true /\
                            parse_fraction r' = Some ("", r') /\
                            parse_exponent r' = Some (k + e - 1, rest)).
  { intros r' ->. split; [reflexivity|]. split; [reflexivity|].
    by apply parse_exponent_text. }
  destruct (Z.eqb k 1) eqn:C4.
  { (* one digit and an exponent *)
    apply Z.eqb_eq in C4.
    split; [|rewrite Hs, app_String; eauto].
    rewrite app_assoc_str.
    destruct (Hexp _ eq_refl) as (H1 & H2 & H3).
    rewrite (parse_unsigned_shape neg s (exponent_text (k + e - 1) +:+ rest) ""
               (exponent_text (k + e - 1) +:+ rest) rest (k + e - 1) Hd);
      try assumption.
    - rewrite app_empty_r, Hv. exponent_is e. simpl. lia.
    - by rewrite Hs.
    - rewrite Hs. by apply has_leading_zero_head. }
  (* several digits and an exponent *)
  apply Z.eqb_neq in C4.
  split; [|rewrite Hs; simpl; eauto].
  rewrite !app_assoc_str.
  destruct (Hexp _ eq_refl) as (H1 & H2 & H3).
  assert (Hlen : String.length (drop_str 1 s) = (String.length s - 1)%nat)
    by apply length_drop_str.
  rewrite (parse_unsigned_shape neg (take_str 1 s)
             ("." +:+ drop_str 1 s +:+ exponent_text (k + e - 1) +:+ rest)
             (drop_str 1 s) (exponent_text (k + e - 1) +:+ rest) rest (k + e - 1)).
  - rewrite take_drop_str, Hv. exponent_is e. rewrite Hlen. unfold k in *. lia.
  - by apply digits_only_take.
  - by rewrite Hs.
  - by rewrite Hs.
  - reflexivity.
  - apply parse_fraction_some; [by apply digits_only_drop| |assumption].
    intros Hnil. rewrite Hnil in Hlen. simpl in Hlen. unfold k in *. lia.
  - assumption.
Qed.

Lemma parse_number_toString (neg : bool) (m : N) (e : Z) (rest : string) :
  ends_number rest = true ->
  parse_number (Number_toString_finite neg m e +:+ rest)
  = Some (if N.eqb m 0 then Finite false 0 0 else mkFinite neg m e, rest).
Proof.
  intros Hrest. unfold Number_toString_finite.
  destruct (N.eqb m 0) eqn:Hm.
  - change ("0" +:+ rest) with (String "0" rest). unfold parse_number.
    change (Ascii.eqb "0" "-") with false. cbv iota.
    change (String "0" rest) with ("0" +:+ rest).
    rewrite (parse_unsigned_shape false "0" rest "" rest rest 0); try done.
    + by apply ends_number_no_digit.
    + by apply parse_fraction_none.
    + by apply parse_exponent_none.
  - apply N.eqb_neq in Hm.
    destruct (parse_unsigned_digits neg m e rest Hm Hrest) as (Hp & c & t & Hbody & Hc).
    cbv zeta. rewrite Hbody in *. rewrite parse_number_signed by assumption. exact Hp.
Qed.

(** ** Values: printing and reading *)

Lemma Serialize_VArr (l : list value) :
  SerializeJSONProperty (VArr l)
  = Some ("[" +:+ join "," (map elem_text l) +:+ "]").
Proof. reflexivity. Qed.

Lemma Serialize_VObj (ps : list (string * value)) :
  SerializeJSONProperty (VObj ps)
  = Some ("{" +:+ join "," (omap member_text ps) +:+ "}").
Proof. reflexivity. Qed.

Lemma Serialize_None (v : value) :
  SerializeJSONProperty v = None -> v = VUndefined.
Proof. destruct v as [| |[]|[| |]| | |]; simpl; try discriminate; reflexivity. Qed.

Lemma Serialize_is_undefined (v : value) :
  is_undefined v = true <-> SerializeJSONProperty v = None.
Proof.
  split.
  - destruct v; try discriminate. reflexivity.
  - intros H. by rewrite (Serialize_None v H).
Qed.

Lemma value_start_facts (c : ascii) :
  value_start c = true ->
  is_ws c = false /\ Ascii.eqb c "]" = false /\ Ascii.eqb c "}" = false /\
  Ascii.eqb c "," = false /\ Ascii.eqb c ":" = false.
Proof.
  destruct c as [[] [] [] [] [] [] [] []]; intros H; try discriminate H;
    repeat split; reflexivity.
Qed.

Lemma number_start_facts (c : ascii) :
  (is_digit c || Ascii.eqb c "-")%bool = true ->
  is_ws c = false /\ Ascii.eqb c "[" = false /\ Ascii.eqb c "{" = false /\
  Ascii.eqb c dquote = false /\ Ascii.eqb c "t" = false /\
  Ascii.eqb c "f" = false /\ Ascii.eqb c "n" = false.
Proof.
  destruct c as [[] [] [] [] [] [] [] []]; intros H; try discriminate H;
    repeat split; reflexivity.
Qed.

Lemma Number_toString_finite_head (neg : bool) (m : N) (e : Z) :
  exists c t, Number_toString_finite neg m e = String c t /\
              (is_digit c || Ascii.eqb c "-")%bool = true.
Proof.
  unfold Number_toString_finite. destruct (N.eqb m 0) eqn:Hm.
  - eexists _, _. split; reflexivity.
  - apply N.eqb_neq in Hm.
    destruct (parse_unsigned_digits false m e "" Hm eq_refl) as (_ & c & t & -> & Hc).
    destruct neg.
    + eexists _, _. split; reflexivity.
    + exists c, t. split; [reflexivity|]. by rewrite Hc.
Qed.

Lemma text_head (v : value) (text : string) :
  SerializeJSONProperty v = Some text ->
  exists c t, text = String c t /\ value_start c = true.
Proof.
  destruct v as [| |[]|[| |neg m e]|s|l|ps]; simpl; intros [= <-];
    try (eexists _, _; split; reflexivity).
  destruct (Number_toString_finite_head neg m e) as (c & t & -> & Hc).
  exists c, t. split; [reflexivity|]. unfold value_start.
  apply orb_true_iff in Hc as [-> | ->]; reflexivity || (by rewrite orb_true_r).
Qed.

Lemma elem_text_head (x : value) :
  exists c t, elem_text x = String c t /\ value_start c = true.
Proof.
  unfold elem_text. destruct (SerializeJSONProperty x) as [t|] eqn:H.
  - by apply (text_head x).
  - eexists _, _. split; reflexivity.
Qed.

Lemma ends_number_closer (c : ascii) (r : string) :
  (Ascii.eqb c "," || Ascii.eqb c "]" || Ascii.eqb c "}")%bool = true ->
  ends_number (String c r) = true.
Proof.
  destruct c as [[] [] [] [] [] [] [] []]; intros H; try discriminate H; reflexivity.
Qed.

Lemma skip_ws_start (c : ascii) (r : string) :
  is_ws c = false -> skip_ws (String c r) = String c r.
Proof. intros H. simpl. by rewrite H. Qed.

(** Atoms *)
Lemma parse_value_number (fuel : nat) (neg : bool) (m : N) (e : Z) (rest : string) :
  ends_number rest = true ->
  parse_value (S fuel) (Number_toString_finite neg m e +:+ rest)
  = Some (revive_number (Finite neg m e), rest).
Proof.
  intros Hrest.
  pose proof (parse_number_toString neg m e rest Hrest) as Hp.
  destruct (Number_toString_finite_head neg m e) as (c & t & Ht & Hc).
  rewrite Ht in *. rewrite app_String in *.
  destruct (number_start_facts c Hc) as (Hws & H1 & H2 & H3 & H4 & H5 & H6).
  cbn [parse_value]. rewrite (skip_ws_start c _ Hws).
  rewrite H1, H2, H3, H4, H5, H6, Hp. reflexivity.
Qed.

Lemma parse_value_string (fuel : nat) (s rest : string) :
  parse_value (S fuel) (QuoteJSONString s +:+ rest) = Some (VStr s, rest).
Proof.
  unfold QuoteJSONString. rewrite app_assoc_str, app_String.
  change (String dquote "" +:+ rest) with (String dquote rest).
  cbn [parse_value]. rewrite skip_ws_start by reflexivity.
  change (Ascii.eqb dquote "[") with false.
  change (Ascii.eqb dquote "{") with false.
  change (Ascii.eqb dquote dquote) with true. cbv iota.
  by rewrite parse_string_body_quoted.
Qed.

Lemma parse_value_null (fuel : nat) (rest : string) :
  parse_value (S fuel) ("null" +:+ rest) = Some (VNull, rest).
Proof. reflexivity. Qed.

Lemma parse_elem (x : value) (fuel : nat) (rest : string) :
  round_trips x -> (size x <= fuel)%nat -> ends_number rest = true ->
  parse_value fuel (elem_text x +:+ rest) = Some (revive x, rest).
Proof.
  intros Hx Hfuel Hrest. unfold elem_text.
  destruct (SerializeJSONProperty x) as [t|] eqn:Ht.
  - by apply Hx.
  - apply Serialize_None in Ht. subst x. destruct fuel; [simpl in Hfuel; lia|].
    reflexivity.
Qed.

Lemma join_cons2 (sep x y : string) (l : list string) :
  join sep (x :: y :: l) = x +:+ sep +:+ join sep (y :: l).
Proof. reflexivity. Qed.

Lemma join_head (l : list value) :
  l <> [] -> exists c t, join "," (map elem_text l) = String c t /\ value_start c = true.
Proof.
  destruct l as [|x l]; [done|]. intros _.
  destruct (elem_text_head x) as (c & t & Hx & Hc).
  destruct l as [|y l]; simpl map.
  - simpl. eauto.
  - rewrite join_cons2, Hx, app_String. eauto.
Qed.

Lemma parse_elements_text (l : list value) :
  Forall round_trips l -> l <> [] ->
  forall fuel rest,
    (list_sum (map (fun x => S (size x)) l) <= fuel)%nat ->
    parse_elements fuel (join "," (map elem_text l) +:+ "]" +:+ rest)
    = Some (map revive l, rest).
Proof.
  induction 1 as [|x l Hx Hl IH]; [done|]. intros _ fuel rest Hfuel.
  simpl in Hfuel. destruct fuel as [|fuel]; [lia|].
  destruct l as [|y l].
  - simpl map. simpl join. cbn [parse_elements].
    rewrite (parse_elem x fuel ("]" +:+ rest) Hx); [reflexivity|simpl in *; lia|reflexivity].
  - change (join "," (map elem_text (x :: y :: l)))
      with (elem_text x +:+ "," +:+ join "," (map elem_text (y :: l))).
    rewrite !app_assoc_str. cbn [parse_elements].
    rewrite (parse_elem x fuel _ Hx); [|simpl in *; lia|reflexivity].
    change (after_char "," (skip_ws ("," +:+ join "," (map elem_text (y :: l)) +:+ "]" +:+ rest)))
      with (Some (join "," (map elem_text (y :: l)) +:+ "]" +:+ rest)).
    cbv iota beta.
    rewrite (IH ltac:(done) fuel rest); [reflexivity|]. simpl in *. lia.
Qed.

Lemma omap_member_cons (k : string) (x : value) (ps : list (string * value)) :
  omap member_text ((k, x) :: ps)
  = match SerializeJSONProperty x with
    | Some t => (QuoteJSONString k +:+ ":" +:+ t) :: omap member_text ps
    | None => omap member_text ps
    end.
Proof. unfold member_text at 1. simpl. by destruct (SerializeJSONProperty x). Qed.

Lemma revive_members_undefined (ps acc : list (string * value)) :
  omap member_text ps = [] -> revive_members revive ps acc = acc.
Proof.
  induction ps as [|[k x] ps IH]; [done|]. rewrite omap_member_cons.
  destruct (SerializeJSONProperty x) eqn:Hx; [done|]. intros H.
  apply Serialize_None in Hx. subst x. simpl. by apply IH.
Qed.

Lemma Quote_app (k rest : string) :
  QuoteJSONString k +:+ rest = String dquote (quote_chars k +:+ String dquote rest).
Proof. unfold QuoteJSONString. by rewrite app_assoc_str, app_String. Qed.

Lemma parse_members_text (ps : list (string * value)) :
  Forall (fun kv => round_trips (snd kv)) ps -> omap member_text ps <> [] ->
  forall fuel rest acc,
    (list_sum (map (fun kv => if is_undefined (snd kv) then O else S (size (snd kv))) ps)
     <= fuel)%nat ->
    parse_members fuel (join "," (omap member_text ps) +:+ "}" +:+ rest) acc
    = Some (revive_members revive ps acc, rest).
Proof.
  induction 1 as [|[k x] ps Hx Hps IH]; [done|]. intros Hne fuel rest acc Hfuel.
  rewrite omap_member_cons in *. cbn [map snd] in Hfuel. cbn [snd] in Hx.
  destruct (SerializeJSONProperty x) as [tx|] eqn:Htx.
  - assert (Hdef : is_undefined x = false).
    { destruct (is_undefined x) eqn:Hu; [|done].
      apply Serialize_is_undefined in Hu. congruence. }
    rewrite Hdef in Hfuel. simpl in Hfuel. destruct fuel as [|fuel]; [lia|].
    cbn [revive_members fst snd]. rewrite Hdef.
    assert (Hstep : forall tail,
               ends_number tail = true ->
               parse_members (S fuel) ((QuoteJSONString k +:+ ":" +:+ tx) +:+ tail) acc
               = match after_char "," (skip_ws tail) with
                 | Some r4 => parse_members fuel r4 (set_property k (revive x) acc)
                 | None =>
                     match after_char "}" (skip_ws tail) with
                     | Some r4 => Some (set_property k (revive x) acc, r4)
                     | None => None
                     end
                 end).
    { intros tail Htail. rewrite !app_assoc_str, Quote_app. cbn [parse_members].
      rewrite skip_ws_start by reflexivity.
      change (after_char dquote (String dquote ?r)) with (Some r).
      cbv iota beta. rewrite parse_string_body_quoted.
      change (after_char ":" (skip_ws (":" +:+ tx +:+ tail))) with (Some (tx +:+ tail)).
      cbv iota beta. rewrite (Hx tx fuel tail Htx); [reflexivity|lia|assumption]. }
    destruct (omap member_text ps) as [|m ms] eqn:Hms.
    + simpl join. rewrite Hstep by reflexivity.
      rewrite (revive_members_undefined ps _ Hms). reflexivity.
    + rewrite join_cons2, app_assoc_str. rewrite Hstep by reflexivity.
      change (after_char "," (skip_ws (("," +:+ join "," (m :: ms)) +:+ "}" +:+ rest)))
        with (Some (join "," (m :: ms) +:+ "}" +:+ rest)).
      cbv iota beta. apply IH; [done|lia].
  - apply Serialize_None in Htx. subst x. simpl in Hfuel. simpl revive_members.
    by apply IH.
Qed.

Lemma all_round_trip (v : value) : round_trips v.
Proof.
  induction v as [| |b|n|s|l IH|ps IH] using value_ind;
    intros text fuel rest Htext Hfuel Hrest.
  - discriminate.
  - injection Htext as <-. destruct fuel; [simpl in Hfuel; lia|]. reflexivity.
  - destruct fuel; [simpl in Hfuel; lia|].
    destruct b; injection Htext as <-; reflexivity.
  - destruct fuel; [simpl in Hfuel; lia|].
    destruct n as [|neg|neg m e]; simpl in Htext; injection Htext as <-;
      try reflexivity.
    by apply parse_value_number.
  - destruct fuel; [simpl in Hfuel; lia|]. injection Htext as <-.
    apply parse_value_string.
  - rewrite Serialize_VArr in Htext. injection Htext as <-.
    destruct fuel as [|fuel]; [simpl in Hfuel; lia|].
    cbn [size] in Hfuel.
    change (("[" +:+ join "," (map elem_text l) +:+ "]") +:+ rest)
      with (String "[" ((join "," (map elem_text l) +:+ "]") +:+ rest)).
    rewrite app_assoc_str. cbn [parse_value]. rewrite skip_ws_start by reflexivity.
    change (Ascii.eqb "[" "[") with true. cbv iota.
    destruct l as [|x l].
    + reflexivity.
    + destruct (join_head (x :: l) ltac:(done)) as (c & t & Hj & Hc).
      destruct (value_start_facts c Hc) as (Hws & Hclose & _).
      rewrite Hj. rewrite app_String, (skip_ws_start c _ Hws).
      cbn [after_char]. rewrite Hclose. rewrite <- app_String, <- Hj.
      rewrite (parse_elements_text (x :: l) IH ltac:(done) fuel rest); [reflexivity|lia].
  - rewrite Serialize_VObj in Htext. injection Htext as <-.
    destruct fuel as [|fuel]; [simpl in Hfuel; lia|].
    cbn [size] in Hfuel.
    change (("{" +:+ join "," (omap member_text ps) +:+ "}") +:+ rest)
      with (String "{" ((join "," (omap member_text ps) +:+ "}") +:+ rest)).
    rewrite app_assoc_str. cbn [parse_value]. rewrite skip_ws_start by reflexivity.
    change (Ascii.eqb "{" "[") with false. change (Ascii.eqb "{" "{") with true.
    cbv iota. cbn [revive].
    destruct (omap member_text ps) as [|m ms] eqn:Hms.
    + rewrite (revive_members_undefined ps [] Hms). reflexivity.
    + assert (Hhead : exists t, join "," (m :: ms) = String dquote t).
      { destruct ps as [|[k x] ps']; [done|].
        assert (Hm : exists k' t', m = QuoteJSONString k' +:+ t').
        { clear -Hms. revert Hms. generalize ((k, x) :: ps'). intros qs.
          induction qs as [|[k' x'] qs IHq]; [done|].
          rewrite omap_member_cons. destruct (SerializeJSONProperty x'); [|exact IHq].
          intros [= <- _]. eauto. }
        destruct Hm as (k' & t' & ->). rewrite Quote_app.
        destruct ms; [simpl; eauto|]. rewrite join_cons2, app_String. eauto. }
      destruct Hhead as [t Ht]. rewrite Ht, app_String.
      rewrite skip_ws_start by reflexivity. cbn [after_char].
      change (Ascii.eqb dquote "}") with false. cbv iota.
      rewrite <- app_String, <- Ht, <- Hms.
      rewrite (parse_members_text ps IH ltac:(by rewrite Hms) fuel rest []);
        [reflexivity|lia].
Qed.

(** Texts are at least as long as the fuel they need. *)
Lemma length_join_elems (l : list value) :
  Forall (fun x => (size x <= String.length (elem_text x))%nat) l ->
  (list_sum (map (fun x => S (size x)) l)
   <= S (String.length (join "," (map elem_text l))))%nat.
Proof.
  induction 1 as [|x l Hx _ IH]; [simpl; lia|].
  destruct l as [|y l].
  - simpl in *. lia.
  - change (join "," (map elem_text (x :: y :: l)))
      with (elem_text x +:+ "," +:+ join "," (map elem_text (y :: l))).
    change (list_sum (map (fun x => S (size x)) (x :: y :: l)))
      with (S (size x) + list_sum (map (fun x => S (size x)) (y :: l)))%nat.
    rewrite !length_app_str.
    change (String.length ",") with 1%nat. lia.
Qed.

Lemma length_Quote (k : string) : (2 <= String.length (QuoteJSONString k))%nat.
Proof. unfold QuoteJSONString. rewrite app_String. simpl. rewrite length_app_str. simpl. lia. Qed.

Lemma list_sum_cons (a : nat) (l : list nat) : list_sum (a :: l) = (a + list_sum l)%nat.
Proof. reflexivity. Qed.

Lemma length_join_members (ps : list (string * value)) :
  Forall (fun kv => forall t, SerializeJSONProperty (snd kv) = Some t ->
                              (size (snd kv) <= String.length t)%nat) ps ->
  (list_sum (map (fun kv => if is_undefined (snd kv) then O else S (size (snd kv))) ps)
   <= S (String.length (join "," (omap member_text ps))))%nat.
Proof.
  induction 1 as [|[k x] ps Hx _ IH]; [simpl; lia|].
  rewrite omap_member_cons. cbn [map list_sum snd] in *.
  destruct (SerializeJSONProperty x) as [tx|] eqn:Htx.
  - specialize (Hx tx eq_refl). pose proof (length_Quote k).
    destruct (is_undefined x) eqn:Hu;
      [apply Serialize_is_undefined in Hu; congruence|].
    destruct (omap member_text ps) as [|m ms].
    + change (join "," [QuoteJSONString k +:+ ":" +:+ tx])
        with (QuoteJSONString k +:+ ":" +:+ tx).
      change (String.length (join "," [])) with 0%nat in IH.
      rewrite !length_app_str. change (String.length ":") with 1%nat.
      rewrite list_sum_cons. lia.
    + rewrite join_cons2, !length_app_str.
      change (String.length ":") with 1%nat. change (String.length ",") with 1%nat.
      rewrite list_sum_cons. lia.
  - apply Serialize_None in Htx. subst x. simpl. exact IH.
Qed.

Lemma size_le_length (v : value) (text : string) :
  SerializeJSONProperty v = Some text -> (size v <= String.length text)%nat.
Proof.
  revert text. induction v as [| |b|n|s|l IH|ps IH] using value_ind; intros text Htext.
  - discriminate.
  - injection Htext as <-. simpl. lia.
  - destruct b; injection Htext as <-; simpl; lia.
  - destruct (text_head _ _ Htext) as (c & t & -> & _). simpl. lia.
  - destruct (text_head _ _ Htext) as (c & t & -> & _). simpl. lia.
  - rewrite Serialize_VArr in Htext. injection Htext as <-.
    cbn [size]. rewrite !length_app_str. simpl String.length.
    assert (H : Forall (fun x => (size x <= String.length (elem_text x))%nat) l).
    { eapply Forall_impl; [exact IH|]. intros x Hx. unfold elem_text.
      destruct (SerializeJSONProperty x) eqn:Hs; [by apply Hx|].
      apply Serialize_None in Hs. subst x. simpl. lia. }
    pose proof (length_join_elems l H). lia.
  - rewrite Serialize_VObj in Htext. injection Htext as <-.
    cbn [size]. rewrite !length_app_str. simpl String.length.
    pose proof (length_join_members ps IH). lia.
Qed.

Theorem JSON_round_trip (v : value) (text : string) :
  JSON_stringify v = Some text -> JSON_parse text = Normal (revive v).
Proof.
  unfold JSON_stringify, JSON_parse. intros Htext.
  pose proof (size_le_length v text Htext) as Hsize.
  rewrite <- (app_empty_r text) at 2.
  rewrite (all_round_trip v text _ "" Htext); [reflexivity|lia|reflexivity].
Qed.


(** ** The fuel of the parser *)

Lemma length_skip_ws (s : string) : (String.length (skip_ws s) <= String.length s)%nat.
Proof.
  induction s as [|c s IH]; simpl; [lia|]. destruct (is_ws c); simpl; lia.
Qed.

Lemma after_char_length (c : ascii) (s r : string) :
  after_char c s = Some r -> String.length s = S (String.length r).
Proof.
  destruct s as [|c' s]; simpl; [discriminate|].
  destruct (Ascii.eqb c' c); [|discriminate]. by intros [= ->].
Qed.

Lemma starts_with_length (p s r : string) :
  starts_with p s = Some r ->
  String.length s = (String.length p + String.length r)%nat.
Proof.
  revert s. induction p as [|a p IH]; intros s; simpl.
  - by intros [= ->].
  - destruct s as [|b s]; [discriminate|]. destruct (Ascii.eqb a b); [|discriminate].
    intros H. simpl. by rewrite (IH _ H).
Qed.

Lemma span_digits_length (s d r : string) :
  span_digits s = (d, r) ->
  String.length s = (String.length d + String.length r)%nat.
Proof.
  revert d r. induction s as [|c s IH]; intros d r; simpl.
  - by intros [= <- <-].
  - destruct (is_digit c).
    + destruct (span_digits s) as [d' r'] eqn:Hs. intros [= <- <-].
      simpl. by rewrite (IH _ _ eq_refl).
    + by intros [= <- <-].
Qed.

Lemma parse_exponent_length (s r : string) (x : Z) :
  parse_exponent s = Some (x, r) -> (String.length r <= String.length s)%nat.
Proof.
  unfold parse_exponent. destruct s as [|c s]; [by intros [= _ <-]|].
  destruct (Ascii.eqb c "e" || Ascii.eqb c "E")%bool; [|by intros [= _ <-]].
  assert (Hsign : forall neg r1,
             (String.length r1 <= String.length s)%nat ->
             match span_digits r1 with
             | ("", _) => None
             | (String a0 s1 as ds, rest) =>
                 Some (if neg : bool then - Z.of_N (digits_value 0 ds)
                       else Z.of_N (digits_value 0 ds), rest)
             end = Some (x, r) ->
             (String.length r <= String.length (String c s))%nat).
  { intros neg r1 Hr1. destruct (span_digits r1) as [d r'] eqn:Hsp.
    apply span_digits_length in Hsp. destruct d; [discriminate|].
    intros [= _ <-]. simpl in *. lia. }
  destruct s as [|c' s']; [apply (Hsign false); simpl; lia|].
  destruct c' as [[] [] [] [] [] [] [] []];
    first [apply (Hsign true); simpl; lia | apply (Hsign false); simpl; lia].
Qed.

Lemma parse_fraction_length (s fp r : string) :
  parse_fraction s = Some (fp, r) -> (String.length r <= String.length s)%nat.
Proof.
  unfold parse_fraction. destruct s as [|c s]; [by intros [= _ <-]|].
  destruct (Ascii.eqb c "."); [|by intros [= _ <-]].
  destruct (span_digits s) as [d r'] eqn:Hsp. apply span_digits_length in Hsp.
  destruct d; [discriminate|]. intros [= _ <-]. simpl in *. lia.
Qed.

Lemma parse_unsigned_length (neg : bool) (s r : string) (n : number) :
  parse_unsigned neg s = Some (n, r) -> (String.length r < String.length s)%nat.
Proof.
  unfold parse_unsigned. destruct (span_digits s) as [ip s2] eqn:Hsp.
  apply span_digits_length in Hsp. destruct ip as [|c ip]; [discriminate|].
  destruct (has_leading_zero _); [discriminate|].
  destruct (parse_fraction s2) as [[fp s3]|] eqn:Hf; [|discriminate].
  apply parse_fraction_length in Hf.
  destruct (parse_exponent s3) as [[x rest]|] eqn:He; [|discriminate].
  apply parse_exponent_length in He. intros [= _ <-]. simpl in *. lia.
Qed.

Lemma parse_number_length (s r : string) (n : number) :
  parse_number s = Some (n, r) -> (String.length r < String.length s)%nat.
Proof.
  unfold parse_number. destruct s as [|c s]; [discriminate|].
  destruct (Ascii.eqb c "-"); intros H; apply parse_unsigned_length in H; simpl in *; lia.
Qed.

Lemma parse_string_body_length (s t r : string) :
  parse_string_body s = Some (t, r) -> (String.length r < String.length s)%nat.
Proof.
  remember (String.length s) as n eqn:Hn. revert s t r Hn.
  induction n as [n IH] using lt_wf_ind. intros s t r -> H.
  destruct s as [|c s]; [discriminate|]. cbn [parse_string_body] in H.
  destruct (Ascii.eqb c dquote); [injection H as _ <-; simpl; lia|].
  destruct (Ascii.eqb c backslash).
  - destruct s as [|e s]; [discriminate|].
    assert (Hsimple : forall x,
               match parse_string_body s with
               | Some (t0, rest) => Some (String (ascii_of_N x) t0, rest)
               | None => None
               end = Some (t, r) ->
               (String.length r < String.length (String c (String e s)))%nat).
    { intros x Hx. destruct (parse_string_body s) as [[t0 rest]|] eqn:Hs; [|discriminate].
      injection Hx as _ <-. apply (IH (String.length s)) in Hs; simpl in *; lia. }
    repeat (match type of H with
            | (if ?b then _ else _) = _ => destruct b; [by eapply Hsimple|]
            end).
    destruct (Ascii.eqb e "u"); [|discriminate].
    destruct s as [|h1 [|h2 [|h3 [|h4 s]]]]; try discriminate.
    destruct (hex_value h1), (hex_value h2), (hex_value h3), (hex_value h4);
      try discriminate.
    destruct (parse_string_body s) as [[t0 rest]|] eqn:Hs; [|discriminate].
    injection H as _ <-. apply (IH (String.length s)) in Hs; simpl in *; lia.
  - destruct (N.ltb _ 32); [discriminate|].
    destruct (parse_string_body s) as [[t0 rest]|] eqn:Hs; [|discriminate].
    injection H as _ <-. apply (IH (String.length s)) in Hs; simpl in *; lia.
Qed.

Lemma parser_fuel_free (f : nat) :
  fuel_free parse_value f /\
  fuel_free parse_elements f /\
  forall acc, fuel_free (fun f s => parse_members f s acc) f.
Proof.
  induction f as [|f (IHv & IHe & IHm)].
  { repeat split; intros; discriminate. }
  split; [|split].
  - (* parse_value *)
    intros s v r H. cbn [parse_value] in H.
    pose proof (length_skip_ws s) as Hws.
    destruct (skip_ws s) as [|c r0] eqn:Hs0; [discriminate|].
    simpl in Hws.
    assert (Hgo : forall (P : nat -> option (value * string)),
               (forall f'', parse_value (S f'') s = P f'') ->
               (String.length r < String.length s)%nat ->
               (forall f'', (String.length s - String.length r <= S f'')%nat ->
                            P f'' = Some (v, r)) ->
               (String.length r < String.length s)%nat /\
               forall f', (String.length s - String.length r <= f')%nat ->
                          parse_value f' s = Some (v, r)).
    { intros P HP Hlt Hall. split; [exact Hlt|]. intros [|f''] Hf'; [lia|].
      rewrite HP. by apply Hall. }
    destruct (Ascii.eqb c "[") eqn:C1.
    { destruct (after_char "]" (skip_ws r0)) as [r'|] eqn:Hclose.
      - injection H as <- <-.
        pose proof (after_char_length _ _ _ Hclose). pose proof (length_skip_ws r0).
        eapply Hgo with (P := fun _ => Some (VArr [], r')); [|lia|done].
        intros f''. cbn [parse_value]. by rewrite Hs0, C1, Hclose.
      - destruct (parse_elements f r0) as [[l rest]|] eqn:He; [|discriminate].
        injection H as <- <-. destruct (IHe _ _ _ He) as [Hlt Hall].
        eapply Hgo with (P := fun f'' => match parse_elements f'' r0 with
                                         | Some (l, rest) => Some (VArr l, rest)
                                         | None => None
                                         end); [|lia|].
        + intros f''. cbn [parse_value]. by rewrite Hs0, C1, Hclose.
        + intros f'' Hf''. rewrite Hall by lia. reflexivity. }
    destruct (Ascii.eqb c "{") eqn:C2.
    { destruct (after_char "}" (skip_ws r0)) as [r'|] eqn:Hclose.
      - injection H as <- <-.
        pose proof (after_char_length _ _ _ Hclose). pose proof (length_skip_ws r0).
        eapply Hgo with (P := fun _ => Some (VObj [], r')); [|lia|done].
        intros f''. cbn [parse_value]. by rewrite Hs0, C1, C2, Hclose.
      - destruct (parse_members f r0 []) as [[ps rest]|] eqn:Hm; [|discriminate].
        injection H as <- <-. destruct (IHm [] _ _ _ Hm) as [Hlt Hall].
        eapply Hgo with (P := fun f'' => match parse_members f'' r0 [] with
                                         | Some (ps, rest) => Some (VObj ps, rest)
                                         | None => None
                                         end); [|lia|].
        + intros f''. cbn [parse_value]. by rewrite Hs0, C1, C2, Hclose.
        + intros f'' Hf''. rewrite Hall by lia. reflexivity. }
    assert (Hatom : forall res : option (value * string),
               res = Some (v, r) ->
               (forall f'', parse_value (S f'') s = res) ->
               (String.length r < String.length s)%nat ->
               (String.length r < String.length s)%nat /\
               forall f', (String.length s - String.length r <= f')%nat ->
                          parse_value f' s = Some (v, r)).
    { intros res Hres Hsame Hlt. split; [exact Hlt|].
      intros [|f''] Hf'; [lia|]. by rewrite Hsame. }
    destruct (Ascii.eqb c dquote) eqn:C3.
    { destruct (parse_string_body r0) as [[t rest]|] eqn:Hb; [|discriminate].
      apply parse_string_body_length in Hb as Hlen. injection H as <- <-.
      eapply Hatom; [reflexivity| |lia].
      intros f''. cbn [parse_value]. by rewrite Hs0, C1, C2, C3, Hb. }
    destruct (Ascii.eqb c "t") eqn:C4.
    { destruct (starts_with "true" (String c r0)) as [rest|] eqn:Hw; [|discriminate].
      apply starts_with_length in Hw as Hlen. injection H as <- <-.
      eapply Hatom; [reflexivity| |simpl in *; lia].
      intros f''. cbn [parse_value]. by rewrite Hs0, C1, C2, C3, C4, Hw. }
    destruct (Ascii.eqb c "f") eqn:C5.
    { destruct (starts_with "false" (String c r0)) as [rest|] eqn:Hw; [|discriminate].
      apply starts_with_length in Hw as Hlen. injection H as <- <-.
      eapply Hatom; [reflexivity| |simpl in *; lia].
      intros f''. cbn [parse_value]. by rewrite Hs0, C1, C2, C3, C4, C5, Hw. }
    destruct (Ascii.eqb c "n") eqn:C6.
    { destruct (starts_with "null" (String c r0)) as [rest|] eqn:Hw; [|discriminate].
      apply starts_with_length in Hw as Hlen. injection H as <- <-.
      eapply Hatom; [reflexivity| |simpl in *; lia].
      intros f''. cbn [parse_value]. by rewrite Hs0, C1, C2, C3, C4, C5, C6, Hw. }
    destruct (parse_number (String c r0)) as [[n rest]|] eqn:Hn; [|discriminate].
    apply parse_number_length in Hn as Hlen. injection H as <- <-.
    eapply Hatom; [reflexivity| |simpl in *; lia].
    intros f''. cbn [parse_value]. by rewrite Hs0, C1, C2, C3, C4, C5, C6, Hn.
  - (* parse_elements *)
    intros s l r H. cbn [parse_elements] in H.
    destruct (parse_value f s) as [[v r1]|] eqn:Hv; [|discriminate].
    destruct (IHv _ _ _ Hv) as [Hlt1 Hall1].
    pose proof (length_skip_ws r1) as Hws.
    destruct (after_char "," (skip_ws r1)) as [r2|] eqn:Hcomma.
    + destruct (parse_elements f r2) as [[l' rest]|] eqn:He; [|discriminate].
      injection H as <- <-. destruct (IHe _ _ _ He) as [Hlt2 Hall2].
      apply after_char_length in Hcomma as Hlen.
      split; [lia|]. intros [|f''] Hf'; [lia|]. cbn [parse_elements].
      rewrite Hall1 by lia. rewrite Hcomma. rewrite Hall2 by lia. reflexivity.
    + destruct (after_char "]" (skip_ws r1)) as [r2|] eqn:Hclose; [|discriminate].
      injection H as <- <-. apply after_char_length in Hclose as Hlen.
      split; [lia|]. intros [|f''] Hf'; [lia|]. cbn [parse_elements].
      rewrite Hall1 by lia. by rewrite Hcomma, Hclose.
  - (* parse_members *)
    intros acc s ps r H. cbn [parse_members] in H.
    pose proof (length_skip_ws s) as Hws0.
    destruct (after_char dquote (skip_ws s)) as [r0|] eqn:Hq; [|discriminate].
    apply after_char_length in Hq as Hlen0.
    destruct (parse_string_body r0) as [[k r1]|] eqn:Hk; [|discriminate].
    apply parse_string_body_length in Hk as Hlen1.
    pose proof (length_skip_ws r1) as Hws1.
    destruct (after_char ":" (skip_ws r1)) as [r2|] eqn:Hcolon; [|discriminate].
    apply after_char_length in Hcolon as Hlen2.
    destruct (parse_value f r2) as [[v r3]|] eqn:Hv; [|discriminate].
    destruct (IHv _ _ _ Hv) as [Hlt3 Hall3].
    pose proof (length_skip_ws r3) as Hws3.
    destruct (after_char "," (skip_ws r3)) as [r4|] eqn:Hcomma.
    + apply after_char_length in Hcomma as Hlen4.
      destruct (IHm _ _ _ _ H) as [Hlt5 Hall5].
      split; [lia|]. intros [|f''] Hf'; [lia|]. cbn [parse_members].
      rewrite Hq, Hk, Hcolon. rewrite Hall3 by lia. rewrite Hcomma.
      apply Hall5. lia.
    + destruct (after_char "}" (skip_ws r3)) as [r4|] eqn:Hclose; [|discriminate].
      injection H as <- <-. apply after_char_length in Hclose as Hlen4.
      split; [lia|]. intros [|f''] Hf'; [lia|]. cbn [parse_members].
      rewrite Hq, Hk, Hcolon. rewrite Hall3 by lia. by rewrite Hcomma, Hclose.
Qed.

(** The verdict of [JSON_parse] does not depend on its fuel: a text that
    [parse_value] reads to the end with some fuel is accepted. *)
Lemma JSON_parse_any_fuel (f : nat) (text rest : string) (v : value) :
  parse_value f text = Some (v, rest) -> skip_ws rest = "" ->
  JSON_parse text = Normal v.
Proof.
  intros Hp Hrest. destruct (parser_fuel_free f) as [Hv _].
  destruct (Hv _ _ _ Hp) as [_ Hall]. unfold JSON_parse.
  rewrite Hall by lia. by rewrite Hrest.
Qed.

Lemma JSON_parse_rejects (text : string) :
  (forall v, JSON_parse text <> Normal v) <->
  (forall f v rest, parse_value f text = Some (v, rest) -> skip_ws rest <> "").
Proof.
  split.
  - intros Hbad f v rest Hp Hrest. by apply (Hbad v), (JSON_parse_any_fuel f text rest).
  - intros Hno v. unfold JSON_parse.
    destruct (parse_value _ text) as [[v' rest]|] eqn:Hp; [|discriminate].
    destruct (skip_ws rest) eqn:Hrest; [|discriminate].
    by destruct (Hno _ _ _ Hp).
Qed.

(** ** The JSON image of a value *)

Lemma strip_zeros_canonical (f : nat) (m : N) (e : Z) :
  m <> 0%N -> (N.to_nat (N.log2 m) <= f)%nat ->
  (fst (strip_zeros f m e) <> 0 /\ fst (strip_zeros f m e) mod 10 <> 0)%N.
Proof.
  revert m e. induction f as [|f IH]; intros m e Hm Hf.
  - assert (m = 1%N) as ->.
    { destruct (N.log2 m) eqn:Hl; [|lia].
      destruct (N.le_gt_cases m 1) as [Hle|Hgt]; [lia|].
      apply N.log2_pos in Hgt. lia. }
    simpl. split; discriminate.
  - simpl. destruct ((m mod 10 =? 0)%N && negb (m =? 0)%N)%bool eqn:Hc.
    + apply andb_true_iff in Hc as [Hmod _]. apply N.eqb_eq in Hmod.
      assert (Hm10 : (10 <= m)%N).
      { pose proof (N.div_mod m 10 ltac:(lia)) as Hdm.
        destruct (N.le_gt_cases 10 m); [assumption|].
        rewrite N.div_small in Hdm by lia. lia. }
      pose proof (log2_div10 m Hm10). apply IH.
      * intros H0. apply N.div_small_iff in H0; lia.
      * lia.
    + simpl. split; [assumption|].
      apply andb_false_iff in Hc as [Hc|Hc].
      * by apply N.eqb_neq in Hc.
      * apply negb_false_iff, N.eqb_eq in Hc. done.
Qed.

Lemma mkFinite_canonical (neg : bool) (m : N) (e : Z) :
  m <> 0%N -> canonical (mkFinite neg m e) = true.
Proof.
  intros Hm. unfold mkFinite.
  replace (m =? 0)%N with false by (symmetry; by apply N.eqb_neq).
  pose proof (strip_zeros_canonical (N.to_nat (N.log2 m)) m e Hm ltac:(lia)) as [H0 H10].
  destruct (strip_zeros (N.to_nat (N.log2 m)) m e) as [m' e']. simpl in *.
  replace (m' =? 0)%N with false by (symmetry; by apply N.eqb_neq).
  apply negb_true_iff. by apply N.eqb_neq.
Qed.

Lemma mkFinite_of_canonical (neg : bool) (m : N) (e : Z) :
  m <> 0%N -> (m mod 10 <> 0)%N -> mkFinite neg m e = Finite neg m e.
Proof.
  intros Hm H10. unfold mkFinite.
  replace (m =? 0)%N with false by (symmetry; by apply N.eqb_neq).
  destruct (N.to_nat (N.log2 m)); simpl; [reflexivity|].
  replace (m mod 10 =? 0)%N with false by (symmetry; by apply N.eqb_neq).
  reflexivity.
Qed.

Lemma revive_number_canonical (n : number) :
  canonical n = true -> revive_number n = VNum n.
Proof.
  destruct n as [| |neg m e]; try discriminate. simpl.
  destruct (N.eqb m 0) eqn:Hm.
  - apply N.eqb_eq in Hm. subst m. intros H.
    apply andb_true_iff in H as [Hneg He].
    apply negb_true_iff in Hneg. apply Z.eqb_eq in He. by subst.
  - intros H. apply negb_true_iff, N.eqb_neq in H. apply N.eqb_neq in Hm.
    by rewrite mkFinite_of_canonical.
Qed.

Lemma revive_number_clean (n : number) : JSON_clean (revive_number n) = true.
Proof.
  destruct n as [| |neg m e]; try reflexivity. simpl.
  destruct (N.eqb m 0) eqn:Hm; [reflexivity|].
  apply mkFinite_canonical. by apply N.eqb_neq.
Qed.

(** [set_property] on keys *)
Lemma set_property_fresh (k : string) (v : value) (ps : list (string * value)) :
  k ∉ map fst ps -> set_property k v ps = ps ++ [(k, v)].
Proof.
  induction ps as [|[k' v'] ps IH]; intros Hk; [reflexivity|]. simpl in *.
  destruct (String.eqb_spec k k') as [->|Hne].
  - exfalso. apply Hk. left.
  - rewrite IH; [reflexivity|]. intros Hin. apply Hk. by right.
Qed.

Lemma set_property_keys (k : string) (v : value) (ps : list (string * value)) :
  map fst (set_property k v ps)
  = if decide (k ∈ map fst ps) then map fst ps else map fst ps ++ [k].
Proof.
  induction ps as [|[k' v'] ps IH]; [reflexivity|]. simpl.
  destruct (String.eqb_spec k k') as [->|Hne].
  - simpl. rewrite decide_True by left. reflexivity.
  - simpl. rewrite IH. destruct (decide (k ∈ map fst ps)) as [Hin|Hnin].
    + rewrite decide_True by (by right). reflexivity.
    + rewrite decide_False; [reflexivity|].
      intros Hin. apply elem_of_cons in Hin as [?|?]; done.
Qed.

Lemma set_property_values (P : value -> Prop) (k : string) (v : value)
    (ps : list (string * value)) :
  P v -> Forall (fun kv => P (snd kv)) ps ->
  Forall (fun kv => P (snd kv)) (set_property k v ps).
Proof.
  intros Hv. induction 1 as [|[k' v'] ps Hx Hps IH]; simpl.
  - by repeat constructor.
  - destruct (String.eqb k k'); constructor; assumption.
Qed.

Lemma set_property_NoDup (k : string) (v : value) (ps : list (string * value)) :
  NoDup (map fst ps) -> NoDup (map fst (set_property k v ps)).
Proof.
  intros Hnd. rewrite set_property_keys. case_decide; [assumption|].
  apply NoDup_app. split; [assumption|]. split; [|apply NoDup_singleton].
  intros x Hx Hx'. apply list_elem_of_singleton in Hx'. by subst.
Qed.

Lemma forallb_Forall {A : Type} (f : A -> bool) (l : list A) :
  forallb f l = true <-> Forall (fun x => f x = true) l.
Proof.
  induction l as [|x l IH]; simpl.
  - split; [constructor|done].
  - rewrite andb_true_iff, IH. split.
    + intros [??]. by constructor.
    + intros H. by inversion H.
Qed.

Lemma revive_members_clean (ps acc : list (string * value)) :
  Forall (fun kv => JSON_clean (revive (snd kv)) = true) ps ->
  NoDup (map fst acc) -> Forall (fun kv => JSON_clean (snd kv) = true) acc ->
  NoDup (map fst (revive_members revive ps acc)) /\
  Forall (fun kv => JSON_clean (snd kv) = true) (revive_members revive ps acc).
Proof.
  intros Hps. revert acc. induction Hps as [|[k x] ps Hx _ IH]; intros acc Hnd Hacc.
  - by split.
  - simpl. destruct (is_undefined x); [by apply IH|].
    apply IH; [by apply set_property_NoDup|].
    by apply (set_property_values (fun v => JSON_clean v = true)).
Qed.

(** The JSON image of a value is its own JSON image. *)
Lemma revive_is_clean (v : value) : JSON_clean (revive v) = true.
Proof.
  induction v as [| |b|n|s|l IH|ps IH] using value_ind; try reflexivity.
  - apply revive_number_clean.
  - simpl. apply forallb_Forall. apply Forall_fmap.
    eapply Forall_impl; [exact IH|]. by intros x Hx.
  - cbn [revive JSON_clean].
    destruct (revive_members_clean ps [] IH) as [Hnd Hall]; [constructor..|].
    apply andb_true_iff. split; [by apply bool_decide_eq_true|].
    by apply forallb_Forall.
Qed.

Lemma revive_members_id (ps acc : list (string * value)) :
  Forall (fun kv => is_undefined (snd kv) = false /\ revive (snd kv) = snd kv) ps ->
  NoDup (map fst (acc ++ ps)) ->
  revive_members revive ps acc = acc ++ ps.
Proof.
  intros Hps. revert acc. induction Hps as [|[k x] ps [Hu Hx] _ IH]; intros acc Hnd.
  - by rewrite app_nil_r.
  - simpl in *. rewrite Hu, Hx. rewrite set_property_fresh.
    + rewrite IH; [by rewrite <- app_assoc|]. by rewrite <- app_assoc.
    + rewrite map_app in Hnd. apply NoDup_app in Hnd as (_ & Hdisj & _).
      intros Hin. apply (Hdisj k Hin). left.
Qed.

Lemma revive_clean (v : value) : JSON_clean v = true -> revive v = v.
Proof.
  induction v as [| |b|n|s|l IH|ps IH] using value_ind; intros Hc;
    try reflexivity; try discriminate.
  - by apply revive_number_canonical.
  - simpl in *. f_equal. apply forallb_Forall in Hc.
    induction IH as [|x l Hx _ IHl]; [reflexivity|].
    inversion Hc; subst. simpl. f_equal; [by apply Hx|by apply IHl].
  - cbn [revive JSON_clean] in *. apply andb_true_iff in Hc as [Hnd Hall].
    apply bool_decide_eq_true in Hnd. apply forallb_Forall in Hall.
    f_equal. rewrite revive_members_id; [reflexivity| |assumption].
    clear Hnd. induction IH as [|[k x] ps Hx _ IHps]; [constructor|].
    inversion Hall; subst. constructor; [|by apply IHps].
    simpl in *. split; [by destruct x|by apply Hx].
Qed.

Lemma revive_idempotent (v : value) : revive (revive v) = revive v.
Proof. apply revive_clean, revive_is_clean. Qed.

(** [JSON.parse] never returns [undefined]. *)
Lemma parse_value_defined (fuel : nat) (s : string) (v : value) (rest : string) :
  parse_value fuel s = Some (v, rest) -> v <> VUndefined.
Proof.
  destruct fuel as [|fuel]; [discriminate|]. cbn [parse_value].
  repeat case_match; intros [= <- <-]; discriminate.
Qed.

Lemma JSON_parse_defined (text : string) (v : value) :
  JSON_parse text = Normal v -> exists t, JSON_stringify v = Some t.
Proof.
  unfold JSON_parse. destruct (parse_value _ text) as [[v' r]|] eqn:Hp; [|discriminate].
  destruct (skip_ws r); [|discriminate]. intros [= <-].
  apply parse_value_defined in Hp. unfold JSON_stringify.
  destruct (SerializeJSONProperty v') eqn:Hs; [eauto|].
  by apply Serialize_None in Hs.
Qed.

(** ** Ledgers that are read back as written *)

Lemma JSON_clean_split (v : value) :
  JSON_clean v = (numbers_canonical v && keys_distinct v)%bool.
Proof.
  induction v as [| |b|n|s|l IH|ps IH] using value_ind; try reflexivity.
  - simpl. by rewrite andb_true_r.
  - simpl. induction IH as [|x l Hx _ IHl]; [reflexivity|]. simpl.
    rewrite Hx, IHl.
    destruct (numbers_canonical x), (keys_distinct x); simpl; try reflexivity;
      by rewrite ?andb_false_r.
  - cbn [JSON_clean numbers_canonical keys_distinct].
    assert (H : forallb (fun kv => JSON_clean (snd kv)) ps
                = (forallb (fun kv => numbers_canonical (snd kv)) ps &&
                   forallb (fun kv => keys_distinct (snd kv)) ps)%bool).
    { induction IH as [|x l Hx _ IHl]; [reflexivity|]. simpl.
      rewrite Hx, IHl.
      destruct (numbers_canonical (snd x)), (keys_distinct (snd x)); simpl;
        try reflexivity; by rewrite ?andb_false_r. }
    rewrite H. destruct (bool_decide _); simpl; [reflexivity|].
    by rewrite andb_false_r.
Qed.

Lemma opt_num_keys (k : string) (x : option number) :
  map fst (opt_num k x) `sublist_of` [k].
Proof. destruct x; simpl; [reflexivity|apply sublist_nil_l]. Qed.

Lemma opt_str_keys (k : string) (x : option string) :
  map fst (opt_str k x) `sublist_of` [k].
Proof. destruct x; simpl; [reflexivity|apply sublist_nil_l]. Qed.

Lemma opt_num_atoms (k : string) (x : option number) :
  forallb (fun kv => is_atom (snd kv)) (opt_num k x) = true.
Proof. by destruct x. Qed.

Lemma opt_str_atoms (k : string) (x : option string) :
  forallb (fun kv => is_atom (snd kv)) (opt_str k x) = true.
Proof. by destruct x. Qed.

Lemma atoms_keys_distinct (ps : list (string * value)) :
  forallb (fun kv => is_atom (snd kv)) ps = true ->
  forallb (fun kv => keys_distinct (snd kv)) ps = true.
Proof.
  induction ps as [|[k x] ps IH]; [done|]. simpl.
  intros H. apply andb_true_iff in H as [Hx Hps]. rewrite (IH Hps).
  by destruct x.
Qed.

(** An object whose property names are an ordered selection of pairwise
    distinct names, and whose values are atoms. *)
Lemma record_keys_distinct (names : list string) (ps : list (string * value)) :
  NoDup names -> map fst ps `sublist_of` names ->
  forallb (fun kv => is_atom (snd kv)) ps = true ->
  keys_distinct (VObj ps) = true.
Proof.
  intros Hnd Hsub Hatoms. cbn [keys_distinct]. apply andb_true_iff. split.
  - apply bool_decide_eq_true. by eapply sublist_NoDup.
  - by apply atoms_keys_distinct.
Qed.

Ltac record_keys :=
  repeat rewrite map_app;
  repeat (apply sublist_app;
          [first [apply opt_num_keys | apply opt_str_keys | reflexivity]|]);
  first [apply opt_num_keys | apply opt_str_keys | reflexivity].

Ltac record_atoms :=
  repeat rewrite forallb_app;
  rewrite ?opt_num_atoms, ?opt_str_atoms; reflexivity.

Lemma NoDup_names (names : list string) : bool_decide (NoDup names) = true -> NoDup names.
Proof. apply bool_decide_eq_true. Qed.

Lemma BloodPanel_keys_distinct (b : App.BloodPanel.t) :
  keys_distinct (App.BloodPanel.to_value b) = true.
Proof.
  unfold App.BloodPanel.to_value.
  apply (record_keys_distinct
           (["id"; "date"] ++ ["lab"] ++ ["apoB"] ++ ["ldl"] ++ ["hdl"] ++ ["tg"]
            ++ ["lpa"] ++ ["hscrp"] ++ ["a1c"] ++ ["fastingGlucose"]
            ++ ["fastingInsulin"] ++ ["alt"] ++ ["ast"] ++ ["creatinine"]
            ++ ["egfr"] ++ ["uric"] ++ ["tsh"] ++ ["ft4"] ++ ["vitaminD"]
            ++ ["ferritin"] ++ ["b12"] ++ ["folate"] ++ ["notes"])).
  - apply NoDup_names. vm_compute. reflexivity.
  - record_keys.
  - record_atoms.
Qed.

Lemma ImagingStudy_keys_distinct (b : App.ImagingStudy.t) :
  keys_distinct (App.ImagingStudy.to_value b) = true.
Proof.
  unfold App.ImagingStudy.to_value.
  apply (record_keys_distinct
           (["id"; "date"; "type"] ++ ["resultSummary"] ++ ["numericResult"] ++ ["site"])).
  - apply NoDup_names. vm_compute. reflexivity.
  - record_keys.
  - record_atoms.
Qed.

Lemma Vitals_keys_distinct (b : App.Vitals.t) :
  keys_distinct (App.Vitals.to_value b) = true.
Proof.
  unfold App.Vitals.to_value.
  apply (record_keys_distinct
           (["id"; "date"] ++ ["weightKg"] ++ ["waistCm"] ++ ["heightCm"]
            ++ ["systolic"] ++ ["diastolic"] ++ ["restingHR"] ++ ["hrv"])).
  - apply NoDup_names. vm_compute. reflexivity.
  - record_keys.
  - record_atoms.
Qed.

Lemma FitnessTest_keys_distinct (b : App.FitnessTest.t) :
  keys_distinct (App.FitnessTest.to_value b) = true.
Proof.
  unfold App.FitnessTest.to_value.
  apply (record_keys_distinct
           (["id"; "date"] ++ ["vo2max"] ++ ["gripLeft"] ++ ["gripRight"]
            ++ ["sitToStand1min"] ++ ["zone2MinsPerWeek"] ++ ["vigorousMinsPerWeek"])).
  - apply NoDup_names. vm_compute. reflexivity.
  - record_keys.
  - record_atoms.
Qed.

Lemma MedOrSupp_keys_distinct (b : App.MedOrSupp.t) :
  keys_distinct (App.MedOrSupp.to_value b) = true.
Proof.
  unfold App.MedOrSupp.to_value.
  apply (record_keys_distinct (["id"; "date"; "kind"; "name"] ++ ["dose"] ++ ["notes"])).
  - apply NoDup_names. vm_compute. reflexivity.
  - record_keys.
  - record_atoms.
Qed.

Lemma Note_keys_distinct (b : App.Note.t) :
  keys_distinct (App.Note.to_value b) = true.
Proof. reflexivity. Qed.

Lemma entry_keys_distinct (c : App.Tab) (r : App.RecordOf c) :
  keys_distinct (entry_value r) = true.
Proof.
  destruct c.
  - exact (BloodPanel_keys_distinct r).
  - exact (ImagingStudy_keys_distinct r).
  - exact (Vitals_keys_distinct r).
  - exact (FitnessTest_keys_distinct r).
  - exact (MedOrSupp_keys_distinct r).
  - exact (Note_keys_distinct r).
Qed.

Lemma collection_keys_distinct (c : App.Tab) (l : list (App.RecordOf c)) :
  forallb keys_distinct (map entry_value l) = true.
Proof.
  induction l as [|r l IH]; [reflexivity|]. simpl.
  by rewrite entry_keys_distinct, IH.
Qed.

Lemma Ledger_keys_distinct (p : App.Ledger) :
  keys_distinct (App.Ledger_to_value p) = true.
Proof.
  unfold App.Ledger_to_value. cbn [keys_distinct forallb snd].
  rewrite (collection_keys_distinct App.Bloods), (collection_keys_distinct App.Imaging),
    (collection_keys_distinct App.VitalsTab), (collection_keys_distinct App.FitnessTab),
    (collection_keys_distinct App.MedsTab), (collection_keys_distinct App.NotesTab).
  reflexivity.
Qed.

(** A ledger of [App.tsx] whose numbers are all finite, in the form
    [JSON.parse] returns them, is read back as it was written. *)
Lemma Ledger_round_trip (p : App.Ledger) :
  numbers_canonical (App.Ledger_to_value p) = true ->
  exists text,
    JSON_stringify (App.Ledger_to_value p) = Some text /\
    JSON_parse text = Normal (App.Ledger_to_value p).
Proof.
  intros Hnum. eexists. split; [reflexivity|].
  rewrite (JSON_round_trip (App.Ledger_to_value p) _ eq_refl).
  f_equal. apply revive_clean.
  by rewrite JSON_clean_split, Hnum, Ledger_keys_distinct.
Qed.

(** ** The updaters: append and delete *)

Lemma collection_addRecord (c c' : App.Tab) (r : App.RecordOf c) (p : App.Ledger) :
  c' <> c -> App.collection c' (App.addRecord c r p) = App.collection c' p.
Proof. destruct c, c'; intros Hne; try reflexivity; congruence. Qed.

Lemma collection_addRecord_same (c : App.Tab) (r : App.RecordOf c) (p : App.Ledger) :
  App.collection c (App.addRecord c r p) = App.collection c p ++ [r].
Proof. destruct c; reflexivity. Qed.

Lemma collection_deleteRecord (c c' : App.Tab) (i : ID) (p : App.Ledger) :
  c' <> c -> App.collection c' (App.deleteRecord c i p) = App.collection c' p.
Proof. destruct c, c'; intros Hne; try reflexivity; congruence. Qed.

Lemma collection_deleteRecord_same (c : App.Tab) (i : ID) (p : App.Ledger) :
  App.collection c (App.deleteRecord c i p)
  = filter (fun r => entry_id r <> i) (App.collection c p).
Proof. destruct c; reflexivity. Qed.

(** A ledger is determined by its six collections. *)
Lemma Ledger_ext (p q : App.Ledger) :
  (forall c, App.collection c p = App.collection c q) -> p = q.
Proof.
  intros H. destruct p, q.
  pose proof (H App.Bloods). pose proof (H App.Imaging).
  pose proof (H App.VitalsTab). pose proof (H App.FitnessTab).
  pose proof (H App.MedsTab). pose proof (H App.NotesTab).
  simpl in *. congruence.
Qed.

Section Filter.
Context {A : Type} (P : A -> Prop) `{!forall x, Decision (P x)}.

Lemma filter_all (l : list A) : Forall P l -> filter P l = l.
Proof.
  induction 1 as [|x l Hx _ IH]; [reflexivity|].
  rewrite filter_cons_True by assumption. by rewrite IH.
Qed.

Lemma filter_Forall (l : list A) : Forall P (filter P l).
Proof.
  apply Forall_forall. intros x Hx.
  apply list_elem_of_filter in Hx. tauto.
Qed.

Lemma filter_idem (l : list A) : filter P (filter P l) = filter P l.
Proof. apply filter_all, filter_Forall. Qed.

(** The filtered list is the largest order-preserving selection. *)
Lemma sublist_into_filter (k l : list A) :
  k `sublist_of` l -> Forall P k -> k `sublist_of` filter P l.
Proof.
  induction 1 as [|x k l _ IH|x k l _ IH]; intros Hk.
  - constructor.
  - inversion Hk; subst. rewrite filter_cons_True by assumption.
    constructor. by apply IH.
  - rewrite filter_cons. destruct (decide (P x)); [constructor|]; by apply IH.
Qed.

End Filter.

(** C8: [addRecord] returns a ledger whose named collection is the former
    one with the record appended at the end, and whose five other
    collections are the former ones; so do the two adders of the minimal
    variant. *)
Theorem addRecord_appends :
  (forall (c : App.Tab) (r : App.RecordOf c) (p : App.Ledger),
      App.collection c (App.addRecord c r p) = App.collection c p ++ [r] /\
      forall c', c' <> c ->
                 App.collection c' (App.addRecord c r p) = App.collection c' p) /\
  (forall (panel : Mini.BloodPanel.t) (d : Mini.Ledger),
      Mini.addBlood_updater panel d
      = Mini.mkLedger (Mini.bloods d ++ [panel]) (Mini.imaging d) (Mini.vitals d)
          (Mini.fitness d) (Mini.meds d) (Mini.notes d)) /\
  (forall (n : Mini.Note.t) (d : Mini.Ledger),
      Mini.addNote_updater n d
      = Mini.mkLedger (Mini.bloods d) (Mini.imaging d) (Mini.vitals d)
          (Mini.fitness d) (Mini.meds d) (Mini.notes d ++ [n])).
Proof.
  split; [|split; reflexivity].
  intros c r p. split.
  - apply collection_addRecord_same.
  - intros c' Hne. by apply collection_addRecord.
Qed.

Lemma addRecord_appends_witness :
  let r := App.Note.mk "a1" "2024-01-10" "first" in
  App.collection App.NotesTab (App.addRecord App.NotesTab r App.EMPTY) = [r] /\
  App.collection App.Bloods (App.addRecord App.NotesTab r App.EMPTY) = [].
Proof.
  intros r.
  destruct (proj1 addRecord_appends App.NotesTab r App.EMPTY) as [Hsame Hother].
  split.
  - exact Hsame.
  - apply (Hother App.Bloods). discriminate.
Defined.

(** C7: deleting an identifier that no record of the collection carries
    returns the ledger unchanged, and deleting an identifier twice is
    deleting it once. *)
Theorem deleteRecord_absent_idempotent (c : App.Tab) (i : ID) (p : App.Ledger) :
  ((forall r, r ∈ App.collection c p -> entry_id r <> i) ->
   App.deleteRecord c i p = p /\
   App.collection c (App.deleteRecord c i p) = App.collection c p) /\
  App.deleteRecord c i (App.deleteRecord c i p) = App.deleteRecord c i p.
Proof.
  assert (Hsame : forall q,
             (forall r, r ∈ App.collection c q -> entry_id r <> i) ->
             App.deleteRecord c i q = q).
  { intros q Hq. apply Ledger_ext. intros c'.
    destruct (decide (c' = c)) as [->|Hne].
    - rewrite collection_deleteRecord_same. apply filter_all.
      apply Forall_forall. intros r Hr. by apply Hq.
    - by apply collection_deleteRecord. }
  split.
  - intros Hq. split; [by apply Hsame|]. by rewrite Hsame.
  - apply Hsame. intros r Hr.
    rewrite collection_deleteRecord_same in Hr.
    apply list_elem_of_filter in Hr. tauto.
Qed.

Lemma deleteRecord_absent_idempotent_witness :
  let p := App.Bloods_add (App.BloodPanel.fresh "a1" "2024-01-10") App.EMPTY in
  App.deleteRecord App.Bloods "zz" p = p /\
  App.collection App.Bloods (App.deleteRecord App.Bloods "zz" p)
  = App.collection App.Bloods p.
Proof.
  intros p.
  apply (proj1 (deleteRecord_absent_idempotent App.Bloods "zz" p)).
  intros r Hr. apply list_elem_of_singleton in Hr. subst r. discriminate.
Defined.

(** C10: [deleteRecord] removes every record of the named collection that
    carries the identifier, however many there are; the records kept are
    the others, in their former relative order, and the other five
    collections are untouched. *)
Theorem deleteRecord_removes_all (c : App.Tab) (i : ID) (p : App.Ledger) :
  let kept := App.collection c (App.deleteRecord c i p) in
  Forall (fun r => entry_id r <> i) kept /\
  kept `sublist_of` App.collection c p /\
  (forall l, l `sublist_of` App.collection c p ->
             Forall (fun r => entry_id r <> i) l -> l `sublist_of` kept) /\
  (forall c', c' <> c ->
              App.collection c' (App.deleteRecord c i p) = App.collection c' p).
Proof.
  cbv zeta. rewrite collection_deleteRecord_same. repeat split.
  - apply filter_Forall.
  - apply sublist_filter.
  - intros l Hl HP. by apply sublist_into_filter.
  - intros c' Hne. by apply collection_deleteRecord.
Qed.

Lemma deleteRecord_removes_all_witness :
  let a := App.Note.mk "k" "2024-01-10" "one" in
  let b := App.Note.mk "m" "2024-02-01" "two" in
  let a' := App.Note.mk "k" "2024-03-01" "three" in
  let p := App.NotesTab_add a' (App.NotesTab_add b (App.NotesTab_add a App.EMPTY)) in
  [b] `sublist_of` App.collection App.NotesTab (App.deleteRecord App.NotesTab "k" p) /\
  App.collection App.Bloods (App.deleteRecord App.NotesTab "k" p) = [].
Proof.
  intros a b a' p.
  destruct (deleteRecord_removes_all App.NotesTab "k" p) as (_ & _ & Hmax & Hother).
  split.
  - apply Hmax.
    + simpl. apply sublist_cons, sublist_skip, sublist_nil_l.
    + repeat constructor. discriminate.
  - apply (Hother App.Bloods). discriminate.
Defined.

(** ** Sorting and the latest record *)

Section SortFacts.
Context {A : Type} (cmp : A -> A -> Z).

Lemma sort_insert_perm (x : A) (l : list A) : sort_insert cmp x l ≡ₚ x :: l.
Proof.
  induction l as [|y l IH]; simpl; [reflexivity|].
  destruct (Z.ltb 0 (cmp x y)); [|reflexivity].
  rewrite IH. apply Permutation_swap.
Qed.

Lemma Array_sort_perm (l : list A) : Array_sort cmp l ≡ₚ l.
Proof.
  induction l as [|x l IH]; simpl; [reflexivity|].
  by rewrite sort_insert_perm, IH.
Qed.

(** An element greater than all the others goes to the end. *)
Lemma sort_insert_greatest (x : A) (l : list A) :
  (forall y, y ∈ l -> 0 < cmp x y) -> sort_insert cmp x l = l ++ [x].
Proof.
  induction l as [|y l IH]; intros Hall; simpl; [reflexivity|].
  assert (Hy : Z.ltb 0 (cmp x y) = true)
    by (apply Z.ltb_lt, Hall; left).
  rewrite Hy, IH; [reflexivity|]. intros z Hz. apply Hall. by right.
Qed.

(** An element that is not greater than the last one leaves it last. *)
Lemma last_sort_insert (x r : A) (l : list A) :
  last l = Some r -> cmp x r <= 0 -> last (sort_insert cmp x l) = Some r.
Proof.
  induction l as [|y l IH]; intros Hlast Hle; [discriminate|]. simpl.
  destruct (Z.ltb 0 (cmp x y)) eqn:Hxy.
  - destruct l as [|z l].
    + simpl in Hlast. injection Hlast as ->. apply Z.ltb_lt in Hxy. lia.
    + rewrite last_cons_cons in Hlast.
      specialize (IH Hlast Hle).
      rewrite last_cons, IH. reflexivity.
  - rewrite last_cons_cons. exact Hlast.
Qed.

Lemma last_Array_sort (l1 l2 : list A) (r : A) :
  (forall x, x ∈ l1 -> cmp x r <= 0) ->
  (forall x, x ∈ l2 -> 0 < cmp r x) ->
  last (Array_sort cmp (l1 ++ r :: l2)) = Some r.
Proof.
  intros H1 H2. induction l1 as [|x l1 IH]; simpl.
  - rewrite sort_insert_greatest; [apply last_snoc|].
    intros y Hy. apply H2. by rewrite <- (Array_sort_perm l2).
  - apply last_sort_insert.
    + apply IH. intros y Hy. apply H1. by right.
    + apply H1. left.
Qed.

Lemma Array_sort_nil_inv (l : list A) : Array_sort cmp l = [] -> l = [].
Proof.
  intros H. apply Permutation_nil_r. rewrite <- H. symmetry. apply Array_sort_perm.
Qed.

(** The result is ascending as soon as [cmp] never calls two elements
    each greater than the other. *)
Hypothesis cmp_asym : forall x y, 0 < cmp x y -> cmp y x <= 0.

Lemma sort_insert_sorted (x : A) (l : list A) :
  Sorted (fun a b => cmp a b <= 0) l ->
  Sorted (fun a b => cmp a b <= 0) (sort_insert cmp x l).
Proof.
  induction l as [|y l IH]; intros Hs; simpl.
  - repeat constructor.
  - destruct (Z.ltb 0 (cmp x y)) eqn:Hxy.
    + apply Sorted_inv in Hs as [Hs Hhd]. constructor; [by apply IH|].
      destruct l as [|z l]; simpl.
      * constructor. apply cmp_asym. by apply Z.ltb_lt.
      * destruct (Z.ltb 0 (cmp x z)).
        -- constructor. by inversion Hhd.
        -- constructor. apply cmp_asym. by apply Z.ltb_lt.
    + constructor; [assumption|]. constructor. apply Z.ltb_ge in Hxy. lia.
Qed.

Lemma Array_sort_sorted (l : list A) :
  Sorted (fun a b => cmp a b <= 0) (Array_sort cmp l).
Proof.
  induction l as [|x l IH]; simpl; [constructor|]. by apply sort_insert_sorted.
Qed.

(** Stability: elements that share a key on which [cmp] gives zero keep
    their order. *)
Context {K : Type} `{!EqDecision K} (key : A -> K).
Hypothesis cmp_key : forall x y, key x = key y -> cmp x y <= 0.

Lemma sort_insert_stable (d : K) (x : A) (l : list A) :
  filter (fun y => key y = d) (sort_insert cmp x l)
  = filter (fun y => key y = d) (x :: l).
Proof.
  induction l as [|y l IH]; simpl; [reflexivity|].
  destruct (Z.ltb 0 (cmp x y)) eqn:Hxy; [|reflexivity].
  rewrite filter_cons, IH, !filter_cons.
  destruct (decide (key y = d)) as [Hy|Hy], (decide (key x = d)) as [Hx|Hx];
    try reflexivity.
  apply Z.ltb_lt in Hxy. pose proof (cmp_key x y (eq_trans Hx (eq_sym Hy))). lia.
Qed.

Lemma Array_sort_stable (d : K) (l : list A) :
  filter (fun y => key y = d) (Array_sort cmp l) = filter (fun y => key y = d) l.
Proof.
  induction l as [|x l IH]; simpl; [reflexivity|].
  by rewrite sort_insert_stable, !filter_cons, IH.
Qed.

End SortFacts.

Lemma Sorted_weaken {A : Type} (R1 R2 : A -> A -> Prop) (l : list A) :
  (forall a b, R1 a b -> R2 a b) -> Sorted R1 l -> Sorted R2 l.
Proof.
  intros Himp. induction 1 as [|x l _ IH Hhd]; constructor; [assumption|].
  destruct Hhd; constructor. by apply Himp.
Qed.

(** [localeCompare] and the lexical order. *)
Lemma localeCompare_le (a b : string) : localeCompare a b <= 0 <-> String.le a b.
Proof.
  unfold localeCompare, String.le, String.leb.
  destruct (String.compare a b); simpl; split; intros; try lia; try done.
Qed.

Lemma localeCompare_gt (a b : string) : 0 < localeCompare a b <-> ~ String.le a b.
Proof. rewrite <- localeCompare_le. lia. Qed.

Lemma localeCompare_asym (a b : string) :
  0 < localeCompare a b -> localeCompare b a <= 0.
Proof.
  rewrite localeCompare_gt, localeCompare_le. intros H.
  destruct (total String.le a b); [contradiction|assumption].
Qed.

Lemma localeCompare_refl (a b : string) : a = b -> localeCompare a b <= 0.
Proof. intros ->. apply localeCompare_le. reflexivity. Qed.

Section Latest.
Context {R : Type} `{Entry R}.

Let by_date (a b : R) : Z := localeCompare (entry_date a) (entry_date b).

Lemma sort_by_date_stable_ascending (l : list R) :
  stable_ascending l (Array_sort by_date l).
Proof.
  split; [|split].
  - eapply Sorted_weaken; [|apply (Array_sort_sorted by_date)].
    + intros a b Hab. by apply localeCompare_le.
    + intros x y. apply localeCompare_asym.
  - apply Array_sort_perm.
  - intros d. apply (Array_sort_stable by_date entry_date).
    intros x y. apply localeCompare_refl.
Qed.

Lemma latest_by_date_last_sort (l : list R) (r : R) :
  latest_by_date l r -> last (Array_sort by_date l) = Some r.
Proof.
  intros (l1 & l2 & -> & H1 & H2). apply last_Array_sort.
  - intros x Hx. apply localeCompare_le. by apply H1.
  - intros x Hx. apply localeCompare_gt. by apply H2.
Qed.

(** A non-empty collection has a latest record. *)
Lemma latest_by_date_exists (l : list R) : l <> [] -> exists r, latest_by_date l r.
Proof.
  induction l as [|x l IH]; [done|]. intros _.
  destruct l as [|y l].
  - exists x, [], []. split; [reflexivity|]. split; intros z Hz; inversion Hz.
  - destruct IH as (r & l1 & l2 & Heq & H1 & H2); [done|].
    destruct (decide (String.le (entry_date x) (entry_date r))) as [Hle|Hgt].
    + exists r, (x :: l1), l2. rewrite Heq. split; [reflexivity|]. split; [|exact H2].
      intros z Hz. apply elem_of_cons in Hz as [->|Hz]; [exact Hle|by apply H1].
    + exists x, [], (y :: l). split; [reflexivity|]. split; [intros z Hz; inversion Hz|].
      intros z Hz Hxz. apply Hgt. rewrite Heq in Hz.
      apply elem_of_app in Hz as [Hz|Hz].
      * etrans; [exact Hxz|]. by apply H1.
      * apply elem_of_cons in Hz as [->|Hz]; [exact Hxz|].
        destruct (total String.le (entry_date z) (entry_date r)) as [Hzr|Hrz].
        -- etrans; [exact Hxz|exact Hzr].
        -- by apply H2 in Hrz.
Qed.

Lemma last_sort_latest_by_date (l : list R) (r : R) :
  last (Array_sort by_date l) = Some r <-> latest_by_date l r.
Proof.
  split; [|apply latest_by_date_last_sort].
  intros Hlast.
  destruct (latest_by_date_exists l) as [r' Hr'].
  - intros ->. discriminate.
  - pose proof (latest_by_date_last_sort l r' Hr') as Hlast'.
    rewrite Hlast in Hlast'. by injection Hlast' as ->.
Qed.

Lemma last_sort_None (l : list R) : last (Array_sort by_date l) = None <-> l = [].
Proof.
  rewrite last_None. split; [apply Array_sort_nil_inv|by intros ->].
Qed.

End Latest.

(** C3 (as amended): in [App.tsx], on a collection whose dates are ISO
    dates, the two latest-record views sort a copy of the collection by
    date ascending, the dates compared as strings, stably, and take the
    last element: nothing for an empty collection, otherwise the record
    with the greatest date and, among several of that date, the one
    inserted last.  The only such view of the minimal variant,
    [recentBlood], does not sort: it is the record inserted last. *)
Theorem latest_record_views :
  (forall db : App.Ledger,
      ISO_dated (App.bloods db) ->
      (exists sorted, stable_ascending (App.bloods db) sorted /\
                      App.latestBlood db = last sorted) /\
      (App.latestBlood db = None <-> App.bloods db = []) /\
      (forall r, App.latestBlood db = Some r <-> latest_by_date (App.bloods db) r)) /\
  (forall db : App.Ledger,
      ISO_dated (App.vitals db) ->
      (exists sorted, stable_ascending (App.vitals db) sorted /\
                      App.latestVitals db = last sorted) /\
      (App.latestVitals db = None <-> App.vitals db = []) /\
      (forall r, App.latestVitals db = Some r <-> latest_by_date (App.vitals db) r)) /\
  (forall db : Mini.Ledger,
      (Mini.bloods db = [] -> Mini.recentBlood db = None) /\
      (forall l r, Mini.bloods db = l ++ [r] -> Mini.recentBlood db = Some r)).
Proof.
  split; [|split]; intros db.
  - intros _. unfold App.latestBlood, at_minus_1. split; [|split].
    + eexists. split; [apply sort_by_date_stable_ascending|reflexivity].
    + exact (last_sort_None (App.bloods db)).
    + intros r. exact (last_sort_latest_by_date (App.bloods db) r).
  - intros _. unfold App.latestVitals, at_minus_1. split; [|split].
    + eexists. split; [apply sort_by_date_stable_ascending|reflexivity].
    + exact (last_sort_None (App.vitals db)).
    + intros r. exact (last_sort_latest_by_date (App.vitals db) r).
  - unfold Mini.recentBlood, at_minus_1. split.
    + by intros ->.
    + intros l r ->. apply last_snoc.
Qed.

Lemma latest_record_views_witness :
  let jan := App.BloodPanel.fresh "b1" "2024-01-10" in
  let mar := App.BloodPanel.fresh "b2" "2024-03-01" in
  let mar' := App.BloodPanel.fresh "b3" "2024-03-01" in
  App.latestBlood (App.mkLedger [mar; jan; mar'] [] [] [] [] []) = Some mar' /\
  Mini.recentBlood
    (Mini.addBlood_updater (Mini.example_panel "b1" "2024-01-10") Mini.EMPTY)
  = Some (Mini.example_panel "b1" "2024-01-10").
Proof.
  intros jan mar mar'. split.
  - apply (proj1 latest_record_views (App.mkLedger [mar; jan; mar'] [] [] [] [] [])).
    + repeat constructor.
    + exists [mar; jan], [].
      split; [reflexivity|]. split.
      * intros x Hx. apply elem_of_cons in Hx as [->|Hx]; [done|].
        apply list_elem_of_singleton in Hx as ->. done.
      * intros x Hx. inversion Hx.
  - apply (proj2 (proj2 latest_record_views)) with (l := []). reflexivity.
Defined.

(** The claim as first written fails on the minimal variant: after a
    March panel and then a January panel, [recentBlood] is the January
    one, which is not the last element of the collection sorted by date. *)
Lemma recentBlood_ignores_dates :
  let mar := Mini.example_panel "b2" "2024-03-01" in
  let jan := Mini.example_panel "b1" "2024-01-10" in
  let db := Mini.addBlood_updater jan (Mini.addBlood_updater mar Mini.EMPTY) in
  Mini.recentBlood db = Some jan /\
  last (Array_sort (fun a b => localeCompare (entry_date a) (entry_date b))
          (Mini.bloods db)) = Some mar /\
  ~ latest_by_date (Mini.bloods db) jan.
Proof.
  intros mar jan db. split; [reflexivity|]. split; [reflexivity|].
  intros Hlatest. apply latest_by_date_last_sort in Hlatest. discriminate Hlatest.
Qed.

(** ** Identifiers *)

Lemma map_filter_id {R : Type} `{Entry R} (i : ID) (l : list R) :
  map entry_id (filter (fun r => entry_id r <> i) l)
  = filter (fun j => j <> i) (map entry_id l).
Proof.
  induction l as [|x l IH]; [reflexivity|]. simpl.
  rewrite !filter_cons. destruct (decide (entry_id x <> i)); simpl; by rewrite IH.
Qed.

Lemma ids_addRecord (c c' : App.Tab) (f : App.RecordOf c) (p : App.Ledger) :
  App_ids c' (App.addRecord c f p)
  = if decide (c' = c) then App_ids c' p ++ [entry_id f] else App_ids c' p.
Proof.
  unfold App_ids. destruct (decide (c' = c)) as [->|Hne].
  - by rewrite collection_addRecord_same, map_app.
  - by rewrite collection_addRecord.
Qed.

Lemma ids_deleteRecord (c c' : App.Tab) (i : ID) (p : App.Ledger) :
  App_ids c' (App.deleteRecord c i p)
  = if decide (c' = c) then filter (fun j => j <> i) (App_ids c' p) else App_ids c' p.
Proof.
  unfold App_ids. destruct (decide (c' = c)) as [->|Hne].
  - by rewrite collection_deleteRecord_same, map_filter_id.
  - by rewrite collection_deleteRecord.
Qed.

Lemma initial_form_id (c : App.Tab) (i : ID) (d : ISODate) :
  entry_id (App.initial_form c i d) = i.
Proof. by destruct c. Qed.

Lemma next_form_id (c : App.Tab) (f : App.RecordOf c) (i : ID) (d : ISODate) :
  entry_id (App.next_form c f i d) = i.
Proof. by destruct c. Qed.

Lemma keep_id_id (c : App.Tab) (edit : App.RecordOf c -> App.RecordOf c) f :
  entry_id (App.keep_id c edit f) = entry_id f.
Proof. unfold App.keep_id. by case_decide. Qed.

Lemma retype_id (c c' : App.Tab) (f : App.RecordOf c) (f' : App.RecordOf c') :
  App.retype c c' f = Some f' -> entry_id f' = entry_id f.
Proof.
  unfold App.retype. destruct (decide (c = c')) as [e|]; [|discriminate].
  destruct e. simpl. by intros [= <-].
Qed.

Lemma drawn_mono (w : World) (m n : nat) (i : ID) :
  (m <= n)%nat -> drawn w m i -> drawn w n i.
Proof. intros Hmn (k & Hk & ->). exists k. split; [lia|reflexivity]. Qed.

Section Distinct.
Context (w : World).
Hypothesis uid_distinct : forall m n : nat, uid w m = uid w n -> m = n.

Lemma fresh_not_drawn (n : nat) : ~ drawn w n (uid w n).
Proof. intros (k & Hk & Heq). apply uid_distinct in Heq. lia. Qed.

Lemma App_handle_invariant (ev : App.Event) (s : App.Session) :
  App_invariant w s -> App_invariant w (App.handle w ev s).
Proof.
  intros Hinv. pose proof Hinv as (Hnodup & Hdrawn & Hform).
  destruct ev as [c|c edit| |i]; simpl.
  all: unfold App_invariant.
  - (* Open *)
    cbn [App.tab_db App.form App.calls].
    split; [exact Hnodup|]. split.
    + intros c' i Hi. eapply drawn_mono; [|by eapply Hdrawn]. simpl. lia.
    + intros c' f [= -> Hf]. apply Eqdep_dec.inj_pair2_eq_dec in Hf;
        [|intros x y; apply (decide (x = y))].
      subst f. rewrite initial_form_id. simpl. split.
      * exists (App.calls s). split; [lia|reflexivity].
      * intros c'' Hin. apply Hdrawn in Hin. by apply fresh_not_drawn in Hin.
  - (* Change *)
    destruct (App.form s) as [[c' f]|] eqn:Hf; [|exact Hinv].
    destruct (App.retype c' c f) as [f'|] eqn:Hre; [|exact Hinv].
    destruct (Hform c' f eq_refl) as [Hd Hnot].
    apply retype_id in Hre. cbn [App.tab_db App.form App.calls].
    split; [exact Hnodup|]. split.
    + intros c'' i Hi. eapply drawn_mono; [|by eapply Hdrawn]. simpl. lia.
    + intros c'' g [= -> Hg]. apply Eqdep_dec.inj_pair2_eq_dec in Hg;
        [|intros x y; apply (decide (x = y))].
      subst g. rewrite keep_id_id, Hre. simpl. split; [|exact Hnot].
      eapply drawn_mono; [|exact Hd]. lia.
  - (* Save *)
    destruct (App.form s) as [[c f]|] eqn:Hf; [|exact Hinv].
    destruct (App.refused c f); [exact Hinv|].
    destruct (Hform c f eq_refl) as [Hd Hnot].
    cbn [App.tab_db App.form App.calls].
    split; [|split].
    + intros c'. rewrite ids_addRecord. case_decide; [|by apply Hnodup].
      subst c'. apply NoDup_app. split; [by apply Hnodup|].
      split; [|apply NoDup_singleton].
      intros i Hi Hi'. apply list_elem_of_singleton in Hi'. subst i.
      by apply (Hnot c).
    + intros c' i. rewrite ids_addRecord. case_decide.
      * intros Hi. apply elem_of_app in Hi as [Hi|Hi].
        -- eapply drawn_mono; [|by eapply Hdrawn]. lia.
        -- apply list_elem_of_singleton in Hi. subst i.
           eapply drawn_mono; [|exact Hd]. lia.
      * intros Hi. eapply drawn_mono; [|by eapply Hdrawn]. lia.
    + intros c' g [= -> Hg]. apply Eqdep_dec.inj_pair2_eq_dec in Hg;
        [|intros x y; apply (decide (x = y))].
      subst g. rewrite next_form_id. split.
      * exists (App.calls s). split; [lia|reflexivity].
      * intros c''. rewrite ids_addRecord. intros Hin.
        assert (Hd' : drawn w (App.calls s) (uid w (App.calls s))).
        { case_decide.
          - apply elem_of_app in Hin as [Hin|Hin]; [by eapply Hdrawn|].
            apply list_elem_of_singleton in Hin. by rewrite Hin.
          - by eapply Hdrawn. }
        by apply fresh_not_drawn in Hd'.
  - (* Delete *)
    destruct (App.form s) as [[c f]|] eqn:Hf; [|exact Hinv].
    destruct (Hform c f eq_refl) as [Hd Hnot].
    cbn [App.tab_db App.form App.calls].
    split; [|split].
    + intros c'. rewrite ids_deleteRecord. case_decide; [|by apply Hnodup].
      by apply NoDup_filter.
    + intros c' j. rewrite ids_deleteRecord. intros Hj.
      eapply drawn_mono with (m := App.calls s); [lia|].
      apply (Hdrawn c'). case_decide; [|exact Hj].
      apply list_elem_of_filter in Hj. tauto.
    + intros c' g [= -> Hg].
      apply Eqdep_dec.inj_pair2_eq_dec in Hg;
        [|intros x y; apply (decide (x = y))].
      subst g. split; [eapply drawn_mono; [|exact Hd]; lia|].
      intros c''. rewrite ids_deleteRecord. intros Hin. apply (Hnot c'').
      case_decide; [|exact Hin]. apply list_elem_of_filter in Hin. tauto.
Qed.

Lemma App_start_invariant : App_invariant w App.start.
Proof.
  split; [|split].
  - intros c. destruct c; constructor.
  - intros c i Hi. destruct c; inversion Hi.
  - intros c f Hf. discriminate.
Qed.

Lemma App_run_invariant (evs : list App.Event) : App_invariant w (App.run w evs).
Proof.
  unfold App.run. generalize App_start_invariant. generalize App.start.
  induction evs as [|ev evs IH]; intros s Hs; simpl; [exact Hs|].
  apply IH. by apply App_handle_invariant.
Qed.

Lemma Mini_handle_invariant (ev : Mini.Event) (s : Mini.Session) :
  Mini_invariant w s -> Mini_invariant w (Mini.handle w ev s).
Proof.
  intros (Hb & Hn & Hdb & Hdn & Hrest).
  assert (Hfresh_b : uid w (Mini.calls s)
                     ∉ map Mini.BloodPanel.id (Mini.bloods (Mini.tab_db s))).
  { intros Hin. apply Hdb in Hin. by apply fresh_not_drawn in Hin. }
  assert (Hfresh_n : uid w (Mini.calls s)
                     ∉ map Mini.Note.id (Mini.notes (Mini.tab_db s))).
  { intros Hin. apply Hdn in Hin. by apply fresh_not_drawn in Hin. }
  destruct ev; unfold Mini_invariant; simpl; rewrite ?map_app; simpl.
  - split; [|split; [exact Hn|split; [|split; [|exact Hrest]]]].
    + apply NoDup_app. split; [exact Hb|]. split; [|apply NoDup_singleton].
      intros i Hi Hi'. apply list_elem_of_singleton in Hi'. by subst i.
    + intros i Hi. apply elem_of_app in Hi as [Hi|Hi].
      * eapply drawn_mono; [|by apply Hdb]. lia.
      * apply list_elem_of_singleton in Hi. subst i.
        exists (Mini.calls s). split; [lia|reflexivity].
    + intros i Hi. eapply drawn_mono; [|by apply Hdn]. lia.
  - split; [exact Hb|split; [|split; [|split; [|exact Hrest]]]].
    + apply NoDup_app. split; [exact Hn|]. split; [|apply NoDup_singleton].
      intros i Hi Hi'. apply list_elem_of_singleton in Hi'. by subst i.
    + intros i Hi. eapply drawn_mono; [|by apply Hdb]. lia.
    + intros i Hi. apply elem_of_app in Hi as [Hi|Hi].
      * eapply drawn_mono; [|by apply Hdn]. lia.
      * apply list_elem_of_singleton in Hi. subst i.
        exists (Mini.calls s). split; [lia|reflexivity].
Qed.

Lemma Mini_run_invariant (evs : list Mini.Event) : Mini_invariant w (Mini.run w evs).
Proof.
  unfold Mini.run.
  assert (Hstart : Mini_invariant w Mini.start).
  { repeat split; try constructor; intros i Hi; inversion Hi. }
  revert Hstart. generalize Mini.start.
  induction evs as [|ev evs IH]; intros s Hs; simpl; [exact Hs|].
  apply IH. by apply Mini_handle_invariant.
Qed.

End Distinct.

(** C9 (as amended): provided the identifiers that [uid] returns are
    pairwise distinct, every ledger reached through the tabs of [App.tsx]
    (open a tab, type in its form, save, delete) and every ledger reached
    through the two adders of the minimal variant has identifiers that
    are unique within each collection. *)
Theorem unique_ids_when_uid_distinct (w : World) :
  (forall m n : nat, uid w m = uid w n -> m = n) ->
  (forall evs, App.unique_ids (App.tab_db (App.run w evs))) /\
  (forall evs, Mini.unique_ids (Mini.tab_db (Mini.run w evs))).
Proof.
  intros Hdistinct. split; intros evs.
  - intros c. by apply (App_run_invariant w Hdistinct evs).
  - destruct (Mini_run_invariant w Hdistinct evs)
      as (Hb & Hn & _ & _ & Hi & Hv & Hf & Hm).
    unfold Mini.unique_ids. rewrite Hi, Hv, Hf, Hm.
    repeat split; try assumption; constructor.
Qed.

Lemma repeat_char_inj (c : ascii) (m n : nat) :
  repeat_char c m = repeat_char c n -> m = n.
Proof.
  revert n. induction m as [|m IH]; intros [|n] Heq; try discriminate; [reflexivity|].
  simpl in Heq. injection Heq as Heq. f_equal. by apply IH.
Qed.

Lemma unique_ids_when_uid_distinct_witness :
  App.unique_ids
    (App.tab_db (App.run distinct_world [App.Open App.Bloods; App.Save; App.Save])) /\
  Mini.unique_ids
    (Mini.tab_db (Mini.run distinct_world [Mini.AddBlood; Mini.AddBlood])).
Proof.
  assert (Hdistinct : forall m n : nat,
             uid distinct_world m = uid distinct_world n -> m = n).
  { intros m n Heq. unfold uid, distinct_world in Heq. simpl in Heq.
    injection Heq as Heq. by apply repeat_char_inj in Heq. }
  destruct (unique_ids_when_uid_distinct distinct_world Hdistinct) as [Happ Hmini].
  split; [apply Happ|apply Hmini].
Defined.

(** The claim as first written fails: nothing in the code compares a new
    identifier with those in use, so a random source that answers the
    same number twice yields two records with one identifier. *)
Lemma duplicate_ids_when_uid_repeats :
  ~ App.unique_ids
      (App.tab_db (App.run repeating_world [App.Open App.Bloods; App.Save; App.Save])) /\
  ~ Mini.unique_ids
      (Mini.tab_db (Mini.run repeating_world [Mini.AddBlood; Mini.AddBlood])).
Proof.
  split.
  - intros Hu. specialize (Hu App.Bloods). simpl in Hu.
    apply NoDup_cons in Hu as [Hnot _]. apply Hnot. left.
  - intros [Hu _]. simpl in Hu.
    apply NoDup_cons in Hu as [Hnot _]. apply Hnot. left.
Qed.

(** ** The ledger store *)

Lemma storageKey_inj (p q : Profile) : storageKey p = storageKey q -> p = q.
Proof. destruct p, q; intros Heq; try reflexivity; discriminate Heq. Qed.

Lemma JSON_parse_empty : JSON_parse "" = Throw SyntaxError.
Proof. reflexivity. Qed.

(** [loadFor] reads one slot only. *)
Lemma loadFor_slot (ls ls' : Storage) (p : Profile) :
  ls !! storageKey p = ls' !! storageKey p -> App.loadFor ls p = App.loadFor ls' p.
Proof. unfold App.loadFor. by intros ->. Qed.

(** What [loadFor] of [App.tsx] returns in the three cases. *)
Lemma App_loadFor_cases (ls : Storage) (p : Profile) :
  (ls !! storageKey p = None -> App.loadFor ls p = App.EMPTY_value) /\
  (forall text v, ls !! storageKey p = Some text -> JSON_parse text = Normal v ->
                  App.loadFor ls p = v) /\
  (forall text e, ls !! storageKey p = Some text -> JSON_parse text = Throw e ->
                  App.loadFor ls p = App.EMPTY_value).
Proof.
  unfold App.loadFor. split; [|split].
  - by intros ->.
  - intros text v -> Hparse. case_decide as Hempty.
    + subst text. discriminate Hparse.
    + by rewrite Hparse.
  - intros text e -> Hparse. case_decide; [reflexivity|]. by rewrite Hparse.
Qed.

(** C4, on the minimal variant: with text that is not JSON in the slot of
    the first profile, the load effect throws the [SyntaxError] of
    [JSON.parse] and the component does not survive its first commit;
    [loadFor] of [App.tsx] returns the empty ledger on the same storage. *)
Theorem Mini_load_throws_on_malformed_slot :
  let ls : Storage := {[ storageKey Paul := "not json" ]} in
  Mini.load ls Paul = Throw SyntaxError /\
  Mini.mount ls = Throw SyntaxError /\
  App.loadFor ls Paul = App.EMPTY_value.
Proof.
  intros ls.
  assert (Hload : Mini.load ls Paul = Throw SyntaxError).
  { unfold Mini.load, ls. rewrite lookup_singleton_eq. reflexivity. }
  split; [exact Hload|]. split.
  - unfold Mini.mount, Mini.render_with_profile. by rewrite Hload.
  - unfold App.loadFor, ls. rewrite lookup_singleton_eq. reflexivity.
Qed.

(** C5: text that [JSON.parse] rejects leaves the state of the component
    as it is (the ledger in memory and the persisted slots) and shows an
    alert, in both variants. *)
Theorem import_rejects_invalid_text (text : string) :
  (forall v, JSON_parse text <> Normal v) ->
  (forall st : App.State, App.upload (Some text) st = (st, ["Invalid file"])) /\
  (forall st : Mini.State,
      let typed := Mini.setRaw text st in
      Mini.importJson typed = (typed, ["Invalid JSON"]) /\
      Mini.db typed = Mini.db st /\
      Mini.localStorage typed = Mini.localStorage st).
Proof.
  intros Hbad. split.
  - intros st. unfold App.upload.
    destruct (JSON_parse text) as [v|e] eqn:Hparse; [|reflexivity].
    by destruct (Hbad v).
  - intros st typed. split; [|split; reflexivity].
    unfold Mini.importJson, typed. simpl.
    destruct (JSON_parse text) as [v|e] eqn:Hparse; [|reflexivity].
    by destruct (Hbad v).
Qed.

Lemma import_rejects_invalid_text_witness :
  App.upload (Some "not json") (App.mount ∅) = (App.mount ∅, ["Invalid file"]).
Proof.
  apply (proj1 (import_rejects_invalid_text "not json"
                  ltac:(intros v; vm_compute; discriminate))).
Defined.





(** C1, at a ledger the blood form produces, with the dashboard shown:
    Paul saves a blood panel whose ApoB input was cleared ([apoB: NaN] in
    memory, [null] in his slot).  Claire is selected and saves a note,
    then Paul is selected again: the save effect of that commit writes
    the ledger in memory, the one of Claire, into the slot of Paul, and
    the render with the ledger loaded for Paul throws in [mgdl(null)].
    The page is gone, the slot of Paul holds the ledger of Claire, and
    the page opened again shows Paul the ledger of Claire.  In the
    minimal variant, selecting a profile whose slot holds text that is
    not JSON brings the page down in the load effect. *)
Theorem profile_switch_loses_ledger (fp : Binary64) :
  let page := App.mkPage fp true (fun _ => true) in
  let paul :=
    App.Ledger_to_value
      (App.tab_db (App.run distinct_world
                     [App.Open App.Bloods;
                      App.Change App.Bloods (App.Bloods_onChange_apoB "85");
                      App.Change App.Bloods (App.Bloods_onChange_apoB "");
                      App.Save])) in
  let claire :=
    App.Ledger_to_value
      (App.NotesTab_add (App.Note.mk "n1" "2024-02-01" "hello") App.EMPTY) in
  let first := [App.Mutate (App.Updater (fun _ => Returns paul))] in
  let second := [App.Select Claire; App.Mutate (App.Updater (fun _ => Returns claire))] in
  (exists st,
      App.run_store page ∅ first = App.Up st /\
      App.profile st = Paul /\ App.db st = paul /\
      App.localStorage st !! storageKey Paul = JSON_stringify paul) /\
  (exists st,
      App.run_store page ∅ (first ++ second) = App.Up st /\
      App.profile st = Claire /\ App.db st = claire /\
      App.localStorage st !! storageKey Paul = JSON_stringify paul /\
      App.localStorage st !! storageKey Claire = JSON_stringify claire) /\
  (exists ls,
      App.run_store page ∅ (first ++ second ++ [App.Select Paul]) = App.Down ls /\
      ls !! storageKey Paul = JSON_stringify claire /\
      ls !! storageKey Paul <> JSON_stringify paul) /\
  (exists st,
      App.run_store page ∅ (first ++ second ++ [App.Select Paul; App.Reopen])
      = App.Up st /\
      App.profile st = Paul /\ App.db st = claire) /\
  (forall (mini : Mini.Page) (st : Mini.State),
      Mini.profile st = Paul -> Mini.renders mini (Mini.db st) = true ->
      Mini.localStorage st !! storageKey Claire = Some "not json" ->
      exists ls,
        Mini.setProfile_rendered mini Claire st
        = Mini.Down (Mini.LoadEffect SyntaxError) ls).
Proof.
  intros page paul claire first second. split; [|split; [|split; [|split]]].
  - eexists. split; [vm_compute; reflexivity|]. repeat split; vm_compute; reflexivity.
  - eexists. split; [vm_compute; reflexivity|]. repeat split; vm_compute; reflexivity.
  - eexists. split; [vm_compute; reflexivity|]. split; [vm_compute; reflexivity|].
    vm_compute. discriminate.
  - eexists. split; [vm_compute; reflexivity|]. split; vm_compute; reflexivity.
  - intros mini st HP Hdb Hslot. unfold Mini.setProfile_rendered.
    rewrite HP, decide_False by done. rewrite Hdb.
    unfold Mini.render_with_profile_rendered, Mini.load. rewrite Hslot.
    eexists. reflexivity.
Qed.

(** ** Serialisation *)

(** C2, at a ledger the blood form produces: a number typed into the ApoB
    input and erased again leaves [apoB: NaN] in the form
    ([numberOrEmpty] lets NaN through); [JSON.stringify] writes NaN as
    [null], so the ledger read back has [apoB: null] and is not the
    ledger that was saved. *)
Theorem cleared_number_does_not_round_trip :
  let s := App.run distinct_world
             [App.Open App.Bloods;
              App.Change App.Bloods (App.Bloods_onChange_apoB "85");
              App.Change App.Bloods (App.Bloods_onChange_apoB "");
              App.Save] in
  let ledger := App.tab_db s in
  exists panel text revived,
    App.bloods ledger = [panel] /\
    App.BloodPanel.apoB panel = Some NaN /\
    JSON_stringify (App.Ledger_to_value ledger) = Some text /\
    JSON_parse text = Normal revived /\
    revived <> App.Ledger_to_value ledger /\
    revived
    = VObj [("bloods", VArr [VObj [("id", VStr "a"); ("date", VStr "2024-01-10");
                                   ("apoB", VNull)]]);
            ("imaging", VArr []); ("vitals", VArr []); ("fitness", VArr []);
            ("meds", VArr []); ("notes", VArr [])].
Proof.
  intros s ledger. eexists. eexists. eexists.
  split; [reflexivity|]. split; [reflexivity|]. split; [reflexivity|].
  split; [vm_compute; reflexivity|]. split; [|reflexivity].
  vm_compute. discriminate.
Qed.

(** ** The scenarios of the specification, run on the model *)

(** Scenarios 1 and 2: a January panel, then a March panel. *)
Example scenario_latest_and_history :
  let jan := App.Bloods_onChange_apoB "85" (App.BloodPanel.fresh "b1" "2024-01-10") in
  let mar := App.Bloods_onChange_apoB "70" (App.BloodPanel.fresh "b2" "2024-03-01") in
  let db1 := App.Bloods_add jan App.EMPTY in
  let db2 := App.Bloods_add mar db1 in
  App.BloodPanel.apoB jan = Some (Finite false 85 0) /\
  App.latestBlood db1 = Some jan /\
  App.latestBlood db2 = Some mar /\
  App.history App.Bloods db2 = [mar; jan].
Proof. repeat split; reflexivity. Qed.

(** Scenario 3: the ledger of Paul is exported to the text area, Claire is
    selected and the text is imported; Claire has both panels and the slot
    of Paul is as it was. *)
Example scenario_export_import :
  let jan := Mini.example_panel "b1" "2024-01-10" in
  let mar := Mini.example_panel "b2" "2024-03-01" in
  let ledger := Mini.addBlood_updater mar (Mini.addBlood_updater jan Mini.EMPTY) in
  let paul := Mini.setDb (Mini.Ledger_to_value ledger)
                (Mini.mkState Paul Mini.EMPTY_value "" ∅) in
  exists claire,
    Mini.selectProfile Claire (Mini.exportJson paul) = Normal claire /\
    Mini.db claire = Mini.EMPTY_value /\
    Mini.db (fst (Mini.importJson claire)) = Mini.Ledger_to_value ledger /\
    Mini.localStorage (fst (Mini.importJson claire)) !! storageKey Paul
    = Mini.localStorage paul !! storageKey Paul.
Proof.
  intros jan mar ledger paul. eexists. split; [reflexivity|].
  split; [reflexivity|]. split; vm_compute; reflexivity.
Qed.

(** Scenario 5: the January panel is deleted by its identifier, twice. *)
Example scenario_delete_twice :
  let jan := App.BloodPanel.fresh "b1" "2024-01-10" in
  let mar := App.BloodPanel.fresh "b2" "2024-03-01" in
  let db := App.Bloods_add mar (App.Bloods_add jan App.EMPTY) in
  App.bloods (App.Bloods_del "b1" db) = [mar] /\
  App.Bloods_del "b1" (App.Bloods_del "b1" db) = App.Bloods_del "b1" db.
Proof. split; reflexivity. Qed.

(** Scenario 6: the ledger of Claire is reset after confirmation. *)
Example scenario_reset :
  let jan := App.Bloods_onChange_apoB "85" (App.BloodPanel.fresh "b1" "2024-01-10") in
  let paul := App.Ledger_to_value (App.Bloods_add jan App.EMPTY) in
  let claire :=
    App.Ledger_to_value (App.NotesTab_add (App.Note.mk "n1" "2024-02-01" "hello") App.EMPTY) in
  exists after,
    App.run_store sample_page ∅
      [App.Mutate (App.Updater (fun _ => Returns paul)); App.Select Claire;
       App.Mutate (App.Updater (fun _ => Returns claire)); App.Mutate (App.ResetAll true)]
    = App.Up after /\
    App.db after = App.EMPTY_value /\
    App.loadFor (App.localStorage after) Claire = App.EMPTY_value /\
    App.loadFor (App.localStorage after) Paul = paul.
Proof.
  intros jan paul claire. eexists. split; [vm_compute; reflexivity|].
  repeat split; vm_compute; reflexivity.
Qed.

(** ** Indented texts: printing and reading *)

Lemma all_ws_app (a b : string) : all_ws (a +:+ b) = (all_ws a && all_ws b)%bool.
Proof.
  induction a as [|c a IH]; [reflexivity|]. rewrite app_String. simpl.
  rewrite IH. by rewrite andb_assoc.
Qed.

Lemma skip_ws_app (w s : string) : all_ws w = true -> skip_ws (w +:+ s) = skip_ws s.
Proof.
  induction w as [|c w IH]; [reflexivity|]. intros H. simpl in H.
  apply andb_true_iff in H as [Hc Hw]. rewrite app_String. simpl. rewrite Hc. by apply IH.
Qed.

Lemma parse_value_skip (fuel : nat) (w s : string) :
  all_ws w = true -> parse_value fuel (w +:+ s) = parse_value fuel s.
Proof.
  intros Hw. destruct fuel; [reflexivity|]. cbn [parse_value].
  by rewrite (skip_ws_app w s Hw).
Qed.

Lemma Gap_None (indent : string) (v : value) :
  SerializeJSONPropertyGap indent v = None -> v = VUndefined.
Proof.
  destruct v as [| |[]|[| |]| |l|ps]; simpl; try discriminate; try reflexivity.
  - destruct (map _ l); discriminate.
  - destruct (omap _ ps); discriminate.
Qed.

Lemma Gap_VArr (indent : string) (l : list value) :
  SerializeJSONPropertyGap indent (VArr l)
  = Some (match map (gap_elem (indent +:+ gap)) l with
          | [] => "[]"
          | partial =>
              "[" +:+ newline +:+ (indent +:+ gap) +:+
              join ("," +:+ newline +:+ (indent +:+ gap)) partial +:+
              newline +:+ indent +:+ "]"
          end).
Proof. cbn [SerializeJSONPropertyGap]. fold (gap_elem (indent +:+ gap)). by destruct (map _ l). Qed.

Lemma Gap_VObj (indent : string) (ps : list (string * value)) :
  SerializeJSONPropertyGap indent (VObj ps)
  = Some (match omap (gap_member (indent +:+ gap)) ps with
          | [] => "{}"
          | partial =>
              "{" +:+ newline +:+ (indent +:+ gap) +:+
              join ("," +:+ newline +:+ (indent +:+ gap)) partial +:+
              newline +:+ indent +:+ "}"
          end).
Proof. cbn [SerializeJSONPropertyGap]. fold (gap_member (indent +:+ gap)). by destruct (omap _ ps). Qed.

Lemma gap_text_head (indent : string) (v : value) (text : string) :
  SerializeJSONPropertyGap indent v = Some text ->
  exists c t, text = String c t /\ value_start c = true.
Proof.
  destruct v as [| |b|n|s|l|ps].
  1-5: apply text_head.
  - rewrite Gap_VArr. intros [= <-]. destruct (map _ l); eexists _, _; split; reflexivity.
  - rewrite Gap_VObj. intros [= <-]. destruct (omap _ ps); eexists _, _; split; reflexivity.
Qed.

Lemma gap_elem_head (indent : string) (x : value) :
  exists c t, gap_elem indent x = String c t /\ value_start c = true.
Proof.
  unfold gap_elem. destruct (SerializeJSONPropertyGap indent x) as [t|] eqn:H.
  - by apply (gap_text_head indent x).
  - eexists _, _. split; reflexivity.
Qed.

Lemma parse_elem_gap (x : value) (fuel : nat) (indent rest : string) :
  round_trips_gap x -> all_ws indent = true -> (size x <= fuel)%nat ->
  ends_number rest = true ->
  parse_value fuel (gap_elem indent x +:+ rest) = Some (revive x, rest).
Proof.
  intros Hx Hind Hfuel Hrest. unfold gap_elem.
  destruct (SerializeJSONPropertyGap indent x) as [t|] eqn:Ht.
  - by apply (Hx indent).
  - apply Gap_None in Ht. subst x. destruct fuel; [simpl in Hfuel; lia|]. reflexivity.
Qed.

Lemma newline_app (s : string) : newline +:+ s = String (ascii_of_N 10) s.
Proof. reflexivity. Qed.

(** What follows the last element or member: a line break, the
    indentation of the closing bracket, and the bracket. *)
Lemma skip_ws_closing (stepback : string) (c : ascii) (rest : string) :
  all_ws stepback = true -> is_ws c = false ->
  skip_ws (newline +:+ stepback +:+ String c rest) = String c rest.
Proof.
  intros Hs Hc. rewrite newline_app. cbn [skip_ws].
  change (is_ws (ascii_of_N 10)) with true. cbv iota.
  rewrite (skip_ws_app stepback _ Hs). by apply skip_ws_start.
Qed.

Lemma parse_elements_gap (l : list value) :
  Forall round_trips_gap l -> l <> [] ->
  forall fuel indent stepback w rest,
    all_ws indent = true -> all_ws stepback = true -> all_ws w = true ->
    (list_sum (map (fun x => S (size x)) l) <= fuel)%nat ->
    parse_elements fuel
      (w +:+ join ("," +:+ newline +:+ indent) (map (gap_elem indent) l)
         +:+ newline +:+ stepback +:+ String "]" rest)
    = Some (map revive l, rest).
Proof.
  induction 1 as [|x l Hx Hl IH]; [done|].
  intros _ fuel indent stepback w rest Hind Hstep Hw Hfuel.
  simpl in Hfuel. destruct fuel as [|fuel]; [lia|].
  destruct l as [|y l].
  - simpl map. simpl join. cbn [parse_elements].
    rewrite (parse_value_skip fuel w _ Hw).
    rewrite (parse_elem_gap x fuel indent _ Hx Hind);
      [|simpl in *; lia|by rewrite newline_app].
    rewrite (skip_ws_closing stepback "]" rest Hstep eq_refl). reflexivity.
  - change (join ("," +:+ newline +:+ indent) (map (gap_elem indent) (x :: y :: l)))
      with (gap_elem indent x +:+ ("," +:+ newline +:+ indent)
            +:+ join ("," +:+ newline +:+ indent) (map (gap_elem indent) (y :: l))).
    rewrite !app_assoc_str. cbn [parse_elements].
    rewrite (parse_value_skip fuel w _ Hw).
    rewrite (parse_elem_gap x fuel indent _ Hx Hind); [|simpl in *; lia|reflexivity].
    rewrite app_String. rewrite skip_ws_start by reflexivity.
    cbn [after_char]. change (Ascii.eqb "," ",") with true. cbv iota.
    change ("" +:+ ?s) with s.
    rewrite <- (app_assoc_str newline indent).
    rewrite (IH ltac:(done) fuel indent stepback (newline +:+ indent) rest Hind Hstep);
      [reflexivity| |simpl in *; lia].
    rewrite newline_app. simpl. exact Hind.
Qed.

Lemma omap_gap_member_cons (indent k : string) (x : value) (ps : list (string * value)) :
  omap (gap_member indent) ((k, x) :: ps)
  = match SerializeJSONPropertyGap indent x with
    | Some t => (QuoteJSONString k +:+ ": " +:+ t) :: omap (gap_member indent) ps
    | None => omap (gap_member indent) ps
    end.
Proof.
  unfold gap_member at 1. simpl. by destruct (SerializeJSONPropertyGap indent x).
Qed.

Lemma revive_members_undefined_gap (indent : string) (ps acc : list (string * value)) :
  omap (gap_member indent) ps = [] -> revive_members revive ps acc = acc.
Proof.
  induction ps as [|[k x] ps IH]; [done|]. rewrite omap_gap_member_cons.
  destruct (SerializeJSONPropertyGap indent x) eqn:Hx; [done|]. intros H.
  apply Gap_None in Hx. subst x. simpl. by apply IH.
Qed.

Lemma parse_members_gap (indent : string) (ps : list (string * value)) :
  Forall (fun kv => round_trips_gap (snd kv)) ps ->
  omap (gap_member indent) ps <> [] ->
  forall fuel stepback w rest acc,
    all_ws indent = true -> all_ws stepback = true -> all_ws w = true ->
    (list_sum (map (fun kv => if is_undefined (snd kv) then O else S (size (snd kv))) ps)
     <= fuel)%nat ->
    parse_members fuel
      (w +:+ join ("," +:+ newline +:+ indent) (omap (gap_member indent) ps)
         +:+ newline +:+ stepback +:+ String "}" rest) acc
    = Some (revive_members revive ps acc, rest).
Proof.
  induction 1 as [|[k x] ps Hx Hps IH]; [done|].
  intros Hne fuel stepback w rest acc Hind Hstep Hw Hfuel.
  rewrite omap_gap_member_cons in *. cbn [map snd] in Hfuel. cbn [snd] in Hx.
  destruct (SerializeJSONPropertyGap indent x) as [tx|] eqn:Htx.
  - assert (Hdef : is_undefined x = false).
    { destruct x; try reflexivity. discriminate Htx. }
    rewrite Hdef in Hfuel. simpl in Hfuel. destruct fuel as [|fuel]; [lia|].
    cbn [revive_members fst snd]. rewrite Hdef.
    assert (Hstep' : forall w' tail,
               all_ws w' = true -> ends_number tail = true ->
               parse_members (S fuel)
                 (w' +:+ (QuoteJSONString k +:+ ": " +:+ tx) +:+ tail) acc
               = match after_char "," (skip_ws tail) with
                 | Some r4 => parse_members fuel r4 (set_property k (revive x) acc)
                 | None =>
                     match after_char "}" (skip_ws tail) with
                     | Some r4 => Some (set_property k (revive x) acc, r4)
                     | None => None
                     end
                 end).
    { intros w' tail Hw' Htail. rewrite !app_assoc_str, Quote_app. cbn [parse_members].
      rewrite (skip_ws_app w' _ Hw'). rewrite skip_ws_start by reflexivity.
      change (after_char dquote (String dquote ?r)) with (Some r).
      cbv iota beta. rewrite parse_string_body_quoted.
      change (after_char ":" (skip_ws (": " +:+ tx +:+ tail)))
        with (Some (" " +:+ tx +:+ tail)).
      cbv iota beta. rewrite (parse_value_skip fuel " " _ eq_refl).
      rewrite (Hx indent tx fuel tail Hind Htx); [reflexivity|lia|assumption]. }
    destruct (omap (gap_member indent) ps) as [|m ms] eqn:Hms.
    + simpl join. rewrite Hstep' by (assumption || by rewrite newline_app).
      rewrite (skip_ws_closing stepback "}" rest Hstep eq_refl).
      rewrite (revive_members_undefined_gap indent ps _ Hms). reflexivity.
    + rewrite join_cons2, !app_assoc_str.
      rewrite <- (app_assoc_str (QuoteJSONString k)), <- (app_assoc_str _ tx).
      rewrite (app_assoc_str (QuoteJSONString k) ": " tx).
      rewrite Hstep' by (assumption || reflexivity).
      rewrite app_String. rewrite skip_ws_start by reflexivity.
      cbn [after_char]. change (Ascii.eqb "," ",") with true. cbv iota.
      change ("" +:+ ?s) with s.
      rewrite <- (app_assoc_str newline indent).
      apply IH; [done|assumption|assumption| |lia].
      rewrite newline_app. simpl. exact Hind.
  - apply Gap_None in Htx. subst x. simpl in Hfuel. simpl revive_members.
    by apply IH.
Qed.

Lemma Gap_VArr_nonempty (indent : string) (l : list value) :
  l <> [] ->
  SerializeJSONPropertyGap indent (VArr l)
  = Some ("[" +:+ newline +:+ (indent +:+ gap) +:+
          join ("," +:+ newline +:+ (indent +:+ gap)) (map (gap_elem (indent +:+ gap)) l)
          +:+ newline +:+ indent +:+ "]").
Proof. rewrite Gap_VArr. by destruct l. Qed.

Lemma Gap_VObj_nonempty (indent : string) (ps : list (string * value)) :
  omap (gap_member (indent +:+ gap)) ps <> [] ->
  SerializeJSONPropertyGap indent (VObj ps)
  = Some ("{" +:+ newline +:+ (indent +:+ gap) +:+
          join ("," +:+ newline +:+ (indent +:+ gap))
            (omap (gap_member (indent +:+ gap)) ps)
          +:+ newline +:+ indent +:+ "}").
Proof. rewrite Gap_VObj. by destruct (omap _ ps). Qed.

Lemma Gap_VObj_empty (indent : string) (ps : list (string * value)) :
  omap (gap_member (indent +:+ gap)) ps = [] ->
  SerializeJSONPropertyGap indent (VObj ps) = Some "{}".
Proof. rewrite Gap_VObj. by intros ->. Qed.

Lemma all_round_trip_gap (v : value) : round_trips_gap v.
Proof.
  induction v as [| |b|n|s|l IH|ps IH] using value_ind;
    intros indent text fuel rest Hind Htext Hfuel Hrest.
  1-5: by apply (all_round_trip _ text fuel rest).
  - destruct fuel as [|fuel]; [simpl in Hfuel; lia|]. cbn [size] in Hfuel.
    destruct (decide (l = [])) as [->|Hne]; [injection Htext as <-; reflexivity|].
    rewrite (Gap_VArr_nonempty indent l Hne) in Htext.
    apply (inj Some) in Htext. subst text.
    rewrite !app_assoc_str, app_String. change ("" +:+ ?s) with s.
    cbn [parse_value]. rewrite skip_ws_start by reflexivity.
    change (Ascii.eqb "[" "[") with true. cbv iota.
    assert (Hw : all_ws (newline +:+ indent +:+ gap) = true).
    { rewrite newline_app. simpl. rewrite all_ws_app, Hind. reflexivity. }
    assert (Hind' : all_ws (indent +:+ gap) = true).
    { rewrite all_ws_app, Hind. reflexivity. }
    rewrite <- (app_assoc_str indent gap), <- (app_assoc_str newline (indent +:+ gap)).
    assert (Hskip : exists c t',
               skip_ws ((newline +:+ indent +:+ gap)
                        +:+ join ("," +:+ newline +:+ indent +:+ gap)
                              (map (gap_elem (indent +:+ gap)) l)
                        +:+ newline +:+ indent +:+ "]" +:+ rest) = String c t' /\
               Ascii.eqb c "]" = false).
    { rewrite (skip_ws_app _ _ Hw). destruct l as [|x [|y l]]; [done|..];
        destruct (gap_elem_head (indent +:+ gap) x) as (c & t & Hx & Hc);
        destruct (value_start_facts c Hc) as (Hws & Hclose & _).
      - simpl map. simpl join. rewrite Hx, app_String.
        rewrite (skip_ws_start c _ Hws). eauto.
      - simpl map. rewrite join_cons2, Hx, !app_String.
        rewrite (skip_ws_start c _ Hws). eauto. }
    destruct Hskip as (c & t' & Hskip & Hclose). rewrite Hskip.
    cbn [after_char]. rewrite Hclose.
    change ("]" +:+ rest) with (String "]" rest).
    rewrite (parse_elements_gap l IH Hne fuel (indent +:+ gap) indent
               (newline +:+ indent +:+ gap) rest Hind' Hind Hw); [reflexivity|lia].
  - destruct fuel as [|fuel]; [simpl in Hfuel; lia|]. cbn [size] in Hfuel.
    cbn [revive].
    destruct (omap (gap_member (indent +:+ gap)) ps) as [|m ms] eqn:Hms.
    + rewrite (Gap_VObj_empty indent ps Hms) in Htext. injection Htext as <-.
      rewrite (revive_members_undefined_gap _ ps [] Hms). reflexivity.
    + rewrite (Gap_VObj_nonempty indent ps ltac:(by rewrite Hms)) in Htext.
      apply (inj Some) in Htext. subst text.
      assert (Hhead : exists t, m = String dquote t).
      { clear -Hms. revert Hms. induction ps as [|[k' x'] qs IHq]; [done|].
        rewrite omap_gap_member_cons.
        destruct (SerializeJSONPropertyGap (indent +:+ gap) x'); [|exact IHq].
        intros [= <- _]. rewrite Quote_app. eauto. }
      rewrite !app_assoc_str, app_String. change ("" +:+ ?s) with s.
      cbn [parse_value]. rewrite skip_ws_start by reflexivity.
      change (Ascii.eqb "{" "[") with false. change (Ascii.eqb "{" "{") with true.
      cbv iota.
      assert (Hw : all_ws (newline +:+ indent +:+ gap) = true).
      { rewrite newline_app. simpl. rewrite all_ws_app, Hind. reflexivity. }
      assert (Hind' : all_ws (indent +:+ gap) = true).
      { rewrite all_ws_app, Hind. reflexivity. }
      rewrite <- (app_assoc_str indent gap), <- (app_assoc_str newline (indent +:+ gap)).
      assert (Hskip : exists t', skip_ws ((newline +:+ indent +:+ gap)
                         +:+ join ("," +:+ newline +:+ indent +:+ gap)
                               (omap (gap_member (indent +:+ gap)) ps)
                         +:+ newline +:+ indent +:+ "}" +:+ rest) = String dquote t').
      { rewrite (skip_ws_app _ _ Hw). rewrite Hms. destruct Hhead as [t ->].
        destruct ms as [|m' ms].
        - simpl join. rewrite app_String. rewrite skip_ws_start by reflexivity. eauto.
        - rewrite join_cons2, !app_String. rewrite skip_ws_start by reflexivity. eauto. }
      destruct Hskip as [t' Hskip]. rewrite Hskip. cbn [after_char].
      change (Ascii.eqb dquote "}") with false. cbv iota.
      change ("}" +:+ rest) with (String "}" rest).
      rewrite (parse_members_gap (indent +:+ gap) ps IH ltac:(by rewrite Hms) fuel indent
                 (newline +:+ indent +:+ gap) rest [] Hind' Hind Hw); [reflexivity|lia].
Qed.

(** [JSON.parse] reads the text of [JSON.stringify(v, null, 2)] as it
    reads the text of [JSON.stringify(v)]. *)
Lemma JSON_round_trip_2 (v : value) (text : string) :
  JSON_stringify_2 v = Some text -> JSON_parse text = Normal (revive v).
Proof.
  unfold JSON_stringify_2. intros Htext.
  apply (JSON_parse_any_fuel (size v) text ""); [|reflexivity].
  rewrite <- (app_empty_r text) at 1.
  by apply (all_round_trip_gap v "" text (size v) "").
Qed.

(** ** Export and import *)

Lemma stringify_2_defined (v : value) :
  v <> VUndefined -> exists text, JSON_stringify_2 v = Some text.
Proof.
  intros Hv. unfold JSON_stringify_2.
  destruct (SerializeJSONPropertyGap "" v) as [t|] eqn:Ht; [by eexists|].
  by apply Gap_None in Ht.
Qed.

Lemma stringify_defined (v : value) :
  v <> VUndefined -> exists text, JSON_stringify v = Some text.
Proof.
  intros Hv. unfold JSON_stringify.
  destruct (SerializeJSONProperty v) as [t|] eqn:Ht; [by eexists|].
  by apply Serialize_None in Ht.
Qed.

Lemma is_undefined_spec (v : value) : is_undefined v = true <-> v = VUndefined.
Proof. destruct v; split; intros; try discriminate; reflexivity. Qed.




(** ** The store over a whole session *)

Lemma App_setDb_persisted (v : value) (st : App.State) : App_persisted (App.setDb v st).
Proof.
  unfold App_persisted, App.setDb, App.saveFor, App.setItem_stringified. simpl.
  by rewrite lookup_insert_eq.
Qed.

Lemma App_render_persisted (p : Profile) (old : value) (ls : Storage) :
  App_persisted (App.render_with_profile p old ls).
Proof.
  unfold App_persisted, App.render_with_profile. simpl.
  unfold App.saveFor at 1. unfold App.setItem_stringified at 1.
  by rewrite lookup_insert_eq.
Qed.

Lemma loadFor_persisted (st : App.State) :
  App_persisted st ->
  App.loadFor (App.localStorage st) (App.profile st)
  = if is_undefined (App.db st) then App.EMPTY_value else revive (App.db st).
Proof.
  unfold App_persisted. intros Hslot. unfold App.loadFor. rewrite Hslot.
  destruct (is_undefined (App.db st)) eqn:Hu.
  - apply is_undefined_spec in Hu. rewrite Hu. reflexivity.
  - assert (Hdb : App.db st <> VUndefined).
    { intros H. apply is_undefined_spec in H. congruence. }
    destruct (stringify_defined _ Hdb) as [text Htext]. rewrite Htext. simpl.
    pose proof (JSON_round_trip _ _ Htext) as Hparse.
    case_decide as Hempty; [subst text; discriminate Hparse|]. by rewrite Hparse.
Qed.

Lemma App_renders_defined (page : App.Page) (v : value) :
  App.renders page v = true -> is_nullish v = false.
Proof.
  unfold App.renders, App.render_throws. destruct v; try reflexivity; discriminate.
Qed.

Lemma App_renders_stringify (page : App.Page) (v : value) :
  App.renders page v = true -> is_undefined v = false.
Proof. intros H. apply App_renders_defined in H. by destruct v. Qed.

Lemma App_setDb_rendered_shown (page : App.Page) (v : value) (st : App.State) :
  App_shown page (App.setDb_rendered page v st).
Proof.
  unfold App.setDb_rendered. destruct (App.renders page v) eqn:Hv; [|exact I].
  split; [exact Hv|apply App_setDb_persisted].
Qed.

Lemma App_render_rendered_shown (page : App.Page) (p : Profile) (old : value)
    (ls : Storage) :
  App_shown page (App.render_with_profile_rendered page p old ls).
Proof.
  unfold App.render_with_profile_rendered.
  destruct (App.renders page (App.loadFor ls p)) eqn:Hv; [|exact I].
  split; [exact Hv|apply App_render_persisted].
Qed.

Lemma App_mount_rendered_shown (page : App.Page) (ls : Storage) :
  App_shown page (App.mount_rendered page ls).
Proof.
  unfold App.mount_rendered. destruct (App.renders page App.EMPTY_value); [|exact I].
  apply App_render_rendered_shown.
Qed.

Lemma App_act_shown (page : App.Page) (a : App.Action) (s : App.Screen) :
  App_shown page s -> App_shown page (App.act page a s).
Proof.
  intros Hs. destruct a as [p|[f|[text|]|[|]]|], s as [st|ls]; simpl; try exact I;
    try apply App_mount_rendered_shown.
  - unfold App.setProfile_rendered. case_decide; [exact Hs|].
    destruct (App.renders page (App.db st)); [|exact I]. apply App_render_rendered_shown.
  - destruct (f (App.db st)); [apply App_setDb_rendered_shown|exact I].
  - destruct (JSON_parse text); [apply App_setDb_rendered_shown|exact Hs].
  - exact Hs.
  - apply App_setDb_rendered_shown.
  - exact Hs.
Qed.

(** X12: whatever was in storage when the page was opened and whatever
    the user does afterwards (select a profile, add or delete through an
    updater, import, reset, load the page again), as long as the page is
    shown the ledger in memory is one that has rendered, the slot of the
    active profile holds its serialisation, and [loadFor] reads from it
    the JSON image of that ledger. *)
Theorem store_persisted_while_shown (page : App.Page) (ls : Storage)
    (actions : list App.Action) :
  match App.run_store page ls actions with
  | App.Up st =>
      App.renders page (App.db st) = true /\
      App.localStorage st !! storageKey (App.profile st)
      = Some (default "undefined" (JSON_stringify (App.db st))) /\
      App.loadFor (App.localStorage st) (App.profile st) = revive (App.db st)
  | App.Down _ => True
  end.
Proof.
  assert (H : App_shown page (App.run_store page ls actions)).
  { unfold App.run_store.
    pose proof (App_mount_rendered_shown page ls) as Hmount.
    revert Hmount. generalize (App.mount_rendered page ls).
    induction actions as [|a actions IH]; intros s Hs; simpl; [exact Hs|].
    apply IH. by apply App_act_shown. }
  destruct (App.run_store page ls actions) as [st|]; [|exact I].
  destruct H as [Hr Hp]. split; [exact Hr|]. split; [exact Hp|].
  rewrite (loadFor_persisted st Hp). by rewrite (App_renders_stringify page _ Hr).
Qed.

(** X15: [loadFor] after [saveFor] of the same profile returns the JSON
    image of the ledger that was saved (the empty ledger for [undefined],
    whose text is not JSON); [loadFor] of another profile is what it was
    before the [saveFor]. *)
Theorem loadFor_after_saveFor (p : Profile) (v : value) (ls : Storage) :
  App.loadFor (App.saveFor p v ls) p
  = (if is_undefined v then App.EMPTY_value else revive v) /\
  forall q, q <> p -> App.loadFor (App.saveFor p v ls) q = App.loadFor ls q.
Proof.
  split.
  - apply (loadFor_persisted (App.mkState p v (App.saveFor p v ls))).
    unfold App_persisted, App.saveFor, App.setItem_stringified. simpl.
    by rewrite lookup_insert_eq.
  - intros q Hq. apply loadFor_slot.
    unfold App.saveFor, App.setItem_stringified.
    rewrite lookup_insert_ne; [reflexivity|].
    intros Heq. apply storageKey_inj in Heq. congruence.
Qed.

(** X14: selecting another profile, like opening the page, loads the slot
    of that profile and, before the loaded ledger is rendered, writes the
    former ledger (the empty one when the page is opened) into that slot.
    When the loaded ledger renders, the slot is written again with its
    serialisation and the first write leaves no trace; when the render
    throws, the page is gone and the slot is left with the former ledger.
    Text in the slot that is not JSON is replaced by the text of the
    empty ledger.  No other slot is written. *)
Theorem selectProfile_rewrites_slot (page : App.Page) (ls : Storage) (p : Profile)
    (st : App.State) :
  (p <> App.profile st -> App.renders page (App.db st) = true ->
   App.setProfile_rendered page p st
   = if App.renders page (App.loadFor (App.localStorage st) p)
     then App.Up (App.mkState p (App.loadFor (App.localStorage st) p)
                    (<[ storageKey p :=
                          default "undefined"
                            (JSON_stringify (App.loadFor (App.localStorage st) p)) ]>
                       (App.localStorage st)))
     else App.Down (<[ storageKey p := default "undefined" (JSON_stringify (App.db st)) ]>
                      (App.localStorage st))) /\
  (App.renders page App.EMPTY_value = true ->
   App.mount_rendered page ls
   = if App.renders page (App.loadFor ls Paul)
     then App.Up (App.mkState Paul (App.loadFor ls Paul)
                    (<[ storageKey Paul :=
                          default "undefined" (JSON_stringify (App.loadFor ls Paul)) ]> ls))
     else App.Down (<[ storageKey Paul :=
                         default "undefined" (JSON_stringify App.EMPTY_value) ]> ls)) /\
  (forall text,
      ls !! storageKey Paul = Some text -> (forall v, JSON_parse text <> Normal v) ->
      App.renders page App.EMPTY_value = true ->
      App.mount_rendered page ls
      = App.Up (App.mkState Paul App.EMPTY_value
                  (<[ storageKey Paul :=
                        default "undefined" (JSON_stringify App.EMPTY_value) ]> ls))) /\
  App.storage (App.mount_rendered page ls) !! storageKey Claire
  = ls !! storageKey Claire.
Proof.
  assert (Hrender : forall q old s,
             App.render_with_profile_rendered page q old s
             = if App.renders page (App.loadFor s q)
               then App.Up (App.mkState q (App.loadFor s q)
                              (<[ storageKey q :=
                                    default "undefined"
                                      (JSON_stringify (App.loadFor s q)) ]> s))
               else App.Down (<[ storageKey q :=
                                   default "undefined" (JSON_stringify old) ]> s)).
  { intros q old s. unfold App.render_with_profile_rendered, App.render_with_profile,
      App.saveFor, App.setItem_stringified.
    destruct (App.renders page (App.loadFor s q)); [|reflexivity].
    by rewrite insert_insert_eq. }
  split; [|split; [|split]].
  - intros Hp Hdb. unfold App.setProfile_rendered.
    rewrite decide_False by done. rewrite Hdb. apply Hrender.
  - intros Hempty. unfold App.mount_rendered. rewrite Hempty. apply Hrender.
  - intros text Hslot Hbad Hempty. unfold App.mount_rendered. rewrite Hempty, Hrender.
    assert (Hload : App.loadFor ls Paul = App.EMPTY_value).
    { unfold App.loadFor. rewrite Hslot. case_decide; [reflexivity|].
      destruct (JSON_parse text) as [v|] eqn:Hparse; [by destruct (Hbad v)|reflexivity]. }
    by rewrite Hload, Hempty.
  - unfold App.mount_rendered. destruct (App.renders page App.EMPTY_value); [|reflexivity].
    rewrite Hrender. destruct (App.renders page (App.loadFor ls Paul)); simpl;
      by rewrite lookup_insert_ne.
Qed.

(** ** Profiles *)

Lemma App_setDb_rendered_other (page : App.Page) (v : value) (st : App.State)
    (B : Profile) :
  B <> App.profile st ->
  App.storage (App.setDb_rendered page v st) !! storageKey B
  = App.localStorage st !! storageKey B.
Proof.
  intros HB. unfold App.setDb_rendered. destruct (App.renders page v); [|reflexivity].
  simpl. unfold App.saveFor, App.setItem_stringified. rewrite lookup_insert_ne; [done|].
  intros Heq. apply storageKey_inj in Heq. congruence.
Qed.

Lemma Mini_setDb_rendered_other (page : Mini.Page) (v : value) (st : Mini.State)
    (B : Profile) :
  B <> Mini.profile st ->
  Mini.storage (Mini.setDb_rendered page v st) !! storageKey B
  = Mini.localStorage st !! storageKey B.
Proof.
  intros HB. unfold Mini.setDb_rendered. destruct (Mini.renders page v); [|reflexivity].
  simpl. unfold Mini.save. rewrite lookup_insert_ne; [done|].
  intros Heq. apply storageKey_inj in Heq. congruence.
Qed.

(** X27: in both variants a mutation (an updater, an import, a reset)
    made while a profile is active leaves the slot of every other profile
    as it is, whether the render that follows goes through or throws; and
    selecting a profile leaves the slots of the other profiles as they
    are. *)
Theorem mutation_writes_active_slot_only (B : Profile) :
  (forall (page : App.Page) (m : App.Mutation) (st : App.State),
      B <> App.profile st ->
      App.storage (App.mutate page m st) !! storageKey B
      = App.localStorage st !! storageKey B) /\
  (forall (page : Mini.Page) (m : Mini.Mutation) (st : Mini.State),
      B <> Mini.profile st ->
      Mini.storage (Mini.mutate page m st) !! storageKey B
      = Mini.localStorage st !! storageKey B) /\
  (forall (page : App.Page) (p : Profile) (st : App.State),
      B <> p ->
      App.storage (App.setProfile_rendered page p st) !! storageKey B
      = App.localStorage st !! storageKey B) /\
  (forall (page : Mini.Page) (p : Profile) (st : Mini.State),
      B <> p ->
      Mini.storage (Mini.setProfile_rendered page p st) !! storageKey B
      = Mini.localStorage st !! storageKey B).
Proof.
  assert (Hkey : forall p, B <> p -> storageKey p <> storageKey B).
  { intros p Hp Heq. apply storageKey_inj in Heq. congruence. }
  split; [|split; [|split]].
  - intros page m st HB. destruct m as [f|[text|]|[|]]; simpl.
    + destruct (f (App.db st)); [by apply App_setDb_rendered_other|reflexivity].
    + destruct (JSON_parse text); [by apply App_setDb_rendered_other|reflexivity].
    + reflexivity.
    + by apply App_setDb_rendered_other.
    + reflexivity.
  - intros page m st HB. destruct m as [f|text|[|]]; simpl.
    + destruct (f (Mini.db st)); [by apply Mini_setDb_rendered_other|reflexivity].
    + unfold Mini.importJson_rendered. simpl.
      destruct (JSON_parse text); [|reflexivity].
      by apply (Mini_setDb_rendered_other page _ (Mini.setRaw text st)).
    + by apply Mini_setDb_rendered_other.
    + reflexivity.
  - intros page p st HB. unfold App.setProfile_rendered. case_decide; [reflexivity|].
    destruct (App.renders page (App.db st)); [|reflexivity].
    unfold App.render_with_profile_rendered.
    destruct (App.renders page _); simpl;
      unfold App.saveFor, App.setItem_stringified;
      rewrite ?lookup_insert_ne by (by apply Hkey); reflexivity.
  - intros page p st HB. unfold Mini.setProfile_rendered. case_decide; [reflexivity|].
    destruct (Mini.renders page (Mini.db st)); [|reflexivity].
    unfold Mini.render_with_profile_rendered.
    destruct (Mini.load _ p).
    + destruct (Mini.renders page _); simpl; unfold Mini.save;
        rewrite ?lookup_insert_ne by (by apply Hkey); reflexivity.
    + destruct (Mini.save_after_throw page); simpl; unfold Mini.save;
        rewrite ?lookup_insert_ne by (by apply Hkey); reflexivity.
Qed.

Lemma App_render_with_profile_rendered_eq (page : App.Page) (q : Profile) (old : value)
    (s : Storage) :
  App.render_with_profile_rendered page q old s
  = if App.renders page (App.loadFor s q)
    then App.Up (App.mkState q (App.loadFor s q)
                   (<[ storageKey q :=
                         default "undefined" (JSON_stringify (App.loadFor s q)) ]> s))
    else App.Down (<[ storageKey q := default "undefined" (JSON_stringify old) ]> s).
Proof.
  unfold App.render_with_profile_rendered, App.render_with_profile,
    App.saveFor, App.setItem_stringified.
  destruct (App.renders page (App.loadFor s q)); [|reflexivity].
  by rewrite insert_insert_eq.
Qed.

(** X28: from a page that shows the ledger of [A] with the slot of [A]
    holding its text, selecting [B], whose stored ledger renders, and
    then [A] again: the slot of [A] is not touched by the first
    selection; after the second one the page shows the JSON image of the
    former ledger of [A] if that image renders, and otherwise the page is
    gone with the ledger of [B] written into the slot of [A]. *)
Theorem switch_and_back (page : App.Page) (A B : Profile) (st : App.State) :
  A <> B -> App.profile st = A ->
  App.localStorage st !! storageKey A
  = Some (default "undefined" (JSON_stringify (App.db st))) ->
  App.renders page (App.db st) = true ->
  App.renders page (App.loadFor (App.localStorage st) B) = true ->
  exists st1,
    App.setProfile_rendered page B st = App.Up st1 /\
    App.profile st1 = B /\
    App.db st1 = App.loadFor (App.localStorage st) B /\
    App.localStorage st1 !! storageKey A = App.localStorage st !! storageKey A /\
    App.setProfile_rendered page A st1
    = if App.renders page (revive (App.db st))
      then App.Up (App.mkState A (revive (App.db st))
                     (<[ storageKey A :=
                           default "undefined" (JSON_stringify (revive (App.db st))) ]>
                        (App.localStorage st1)))
      else App.Down (<[ storageKey A :=
                          default "undefined" (JSON_stringify (App.db st1)) ]>
                       (App.localStorage st1)).
Proof.
  intros Hne HA Hslot Hdb HB.
  assert (Hkey : storageKey B <> storageKey A).
  { intros Heq. apply storageKey_inj in Heq. congruence. }
  eexists. split.
  { unfold App.setProfile_rendered. rewrite HA, decide_False by done.
    rewrite Hdb, App_render_with_profile_rendered_eq, HB. reflexivity. }
  simpl. split; [reflexivity|]. split; [reflexivity|].
  split; [by rewrite lookup_insert_ne|].
  unfold App.setProfile_rendered. simpl. rewrite decide_False by done.
  rewrite HB, App_render_with_profile_rendered_eq. simpl.
  assert (Hload : App.loadFor
                    (<[ storageKey B :=
                          default "undefined"
                            (JSON_stringify (App.loadFor (App.localStorage st) B)) ]>
                       (App.localStorage st)) A
                  = revive (App.db st)).
  { rewrite (loadFor_slot _ (App.localStorage st)) by (by rewrite lookup_insert_ne).
    rewrite <- HA. rewrite (loadFor_persisted st).
    - by rewrite (App_renders_stringify page _ Hdb).
    - unfold App_persisted. by rewrite HA. }
  by rewrite Hload.
Qed.

Lemma switch_and_back_witness :
  let jan := App.Bloods_onChange_apoB "85" (App.BloodPanel.fresh "b1" "2024-01-10") in
  let ledger := App.Ledger_to_value (App.Bloods_add jan App.EMPTY) in
  let st := App.setDb ledger (App.mount ∅) in
  exists st1,
    App.setProfile_rendered sample_page Claire st = App.Up st1 /\
    App.profile st1 = Claire /\
    App.db st1 = App.EMPTY_value /\
    App.localStorage st1 !! storageKey Paul = App.localStorage st !! storageKey Paul /\
    App.setProfile_rendered sample_page Paul st1
    = App.Up (App.mkState Paul ledger
                (<[ storageKey Paul := default "undefined" (JSON_stringify ledger) ]>
                   (App.localStorage st1))).
Proof.
  intros jan ledger st.
  apply (switch_and_back sample_page Paul Claire st); try reflexivity. discriminate.
Defined.

Lemma readable_save (p : Profile) (v : value) (ls : Storage) :
  readable ls -> v <> VUndefined -> readable (Mini.save p v ls).
Proof.
  intros Hls Hv q. unfold Mini.save.
  destruct (decide (q = p)) as [->|Hq].
  - rewrite lookup_insert_eq. right.
    destruct (stringify_defined v Hv) as [text Htext]. rewrite Htext. simpl.
    exists (revive v). by apply JSON_round_trip.
  - rewrite lookup_insert_ne; [apply Hls|].
    intros Heq. apply storageKey_inj in Heq. congruence.
Qed.

Lemma readable_load (ls : Storage) (p : Profile) :
  readable ls -> exists v, Mini.load ls p = Normal v /\ v <> VUndefined.
Proof.
  intros Hls. specialize (Hls p). unfold Mini.load.
  destruct (ls !! storageKey p) as [text|]; [|by eexists].
  case_decide as Hempty; [by eexists|].
  destruct Hls as [->|[v Hv]]; [done|].
  exists v. split; [exact Hv|].
  destruct (JSON_parse_defined _ _ Hv) as [t Ht]. intros ->. discriminate Ht.
Qed.

Lemma Mini_setDb_saved (v : value) (st : Mini.State) :
  v <> VUndefined -> Mini_saved (Mini.setDb v st).
Proof.
  intros Hv. destruct (stringify_defined v Hv) as [text Htext].
  exists text. split; [exact Htext|]. simpl. unfold Mini.save.
  by rewrite lookup_insert_eq, Htext.
Qed.

(** ** The minimal variant: storage stays readable *)

Lemma Mini_renders_defined (page : Mini.Page) (v : value) :
  Mini.renders page v = true -> v <> VUndefined.
Proof. unfold Mini.renders, Mini.summary_throws. by destruct v. Qed.

Lemma Mini_setDb_rendered_shown (page : Mini.Page) (v : value) (st : Mini.State) :
  readable (Mini.localStorage st) -> Mini_shown page (Mini.setDb_rendered page v st).
Proof.
  intros Hls. unfold Mini.setDb_rendered. destruct (Mini.renders page v) eqn:Hv.
  - pose proof (Mini_renders_defined page v Hv) as Hd.
    split; [by apply readable_save|]. split; [exact Hv|by apply Mini_setDb_saved].
  - by split.
Qed.

Lemma Mini_render_rendered_shown (page : Mini.Page) (p : Profile) (old : value)
    (txt : string) (ls : Storage) :
  readable ls -> old <> VUndefined ->
  Mini_shown page (Mini.render_with_profile_rendered page p old txt ls).
Proof.
  intros Hls Hold. destruct (readable_load ls p Hls) as (v & Hload & Hv).
  unfold Mini.render_with_profile_rendered. rewrite Hload.
  destruct (Mini.renders page v) eqn:Hr.
  - split; [by repeat apply readable_save|]. split; [exact Hr|].
    destruct (stringify_defined v Hv) as [text Htext].
    exists text. split; [exact Htext|]. simpl. unfold Mini.save at 1.
    by rewrite lookup_insert_eq, Htext.
  - split; [by apply readable_save|reflexivity].
Qed.

Lemma Mini_mount_rendered_shown (page : Mini.Page) (ls : Storage) :
  readable ls -> Mini_shown page (Mini.mount_rendered page ls).
Proof.
  intros Hls. unfold Mini.mount_rendered.
  destruct (Mini.renders page Mini.EMPTY_value); [|by split].
  by apply Mini_render_rendered_shown.
Qed.

Lemma Mini_act_shown (page : Mini.Page) (a : Mini.Action) (s : Mini.Screen) :
  Mini_shown page s -> Mini_shown page (Mini.act page a s).
Proof.
  intros [Hls Hs].
  destruct a as [p|[f|text|[|]]| |text| |], s as [st|why ls]; simpl in *;
    try (by split); try (by apply Mini_mount_rendered_shown).
  - unfold Mini.setProfile_rendered. case_decide; [by split|].
    destruct (Mini.renders page (Mini.db st)) eqn:Hr; [|by split].
    apply Mini_render_rendered_shown; [exact Hls|].
    by apply (Mini_renders_defined page).
  - destruct (f (Mini.db st)); [by apply Mini_setDb_rendered_shown|by split].
  - unfold Mini.importJson_rendered. simpl.
    destruct (JSON_parse text); [|by split].
    by apply (Mini_setDb_rendered_shown page _ (Mini.setRaw text st)).
  - by apply Mini_setDb_rendered_shown.
  - unfold Mini.importJson_rendered.
    destruct (JSON_parse (Mini.raw st)); [|by split].
    by apply Mini_setDb_rendered_shown.
Qed.

(** X13: in the minimal variant, when every slot that exists in storage
    holds JSON text (or nothing), then whatever the user does (select a
    profile, add, import, reset, export, type in the text area, load the
    page again) every slot still holds JSON text afterwards: the load
    effect never throws, and only a render can bring the page down.  As
    long as the page is shown the ledger in memory has rendered and the
    slot of the active profile holds its text. *)
Theorem Mini_store_stays_readable (page : Mini.Page) (ls : Storage)
    (actions : list Mini.Action) :
  readable ls ->
  readable (Mini.storage (Mini.run_store page ls actions)) /\
  match Mini.run_store page ls actions with
  | Mini.Up st =>
      Mini.renders page (Mini.db st) = true /\
      Mini.localStorage st !! storageKey (Mini.profile st) = JSON_stringify (Mini.db st)
  | Mini.Down why _ => why = Mini.Render
  end.
Proof.
  intros Hls.
  assert (H : Mini_shown page (Mini.run_store page ls actions)).
  { unfold Mini.run_store.
    pose proof (Mini_mount_rendered_shown page ls Hls) as Hmount.
    revert Hmount. generalize (Mini.mount_rendered page ls).
    induction actions as [|a actions IH]; intros s Hs; simpl; [exact Hs|].
    apply IH. by apply Mini_act_shown. }
  destruct H as [Hr Hs]. split; [exact Hr|].
  destruct (Mini.run_store page ls actions) as [st|why ls']; [|exact Hs].
  destruct Hs as [Hrender (text & Htext & Hslot)]. split; [exact Hrender|].
  by rewrite Htext.
Qed.

Lemma Mini_store_stays_readable_witness :
  let ledger :=
    Mini.Ledger_to_value
      (Mini.addBlood_updater (Mini.example_panel "b1" "2024-01-10") Mini.EMPTY) in
  let ls := Mini.save Claire ledger ∅ in
  let s := Mini.run_store sample_Mini_page ls
             [Mini.Select Claire; Mini.Export; Mini.Select Paul; Mini.Import_] in
  readable (Mini.storage s) /\
  match s with
  | Mini.Up st =>
      Mini.renders sample_Mini_page (Mini.db st) = true /\
      Mini.localStorage st !! storageKey (Mini.profile st) = JSON_stringify (Mini.db st)
  | Mini.Down why _ => why = Mini.Render
  end.
Proof.
  intros ledger ls s.
  apply (Mini_store_stays_readable sample_Mini_page ls).
  apply readable_save; [|discriminate]. intros p. by rewrite lookup_empty.
Defined.

(** ** The import/export tab of [App.tsx] *)




(** ** Sorting, selection and insertion *)

Section SortFilter.
Context {A : Type} (cmp : A -> A -> Z).
Hypothesis cmp_asym : forall x y, 0 < cmp x y -> cmp y x <= 0.
Hypothesis cmp_trans : forall x y z, cmp x y <= 0 -> cmp y z <= 0 -> cmp x z <= 0.

Lemma Array_sort_strongly (l : list A) :
  StronglySorted (fun a b => cmp a b <= 0) (Array_sort cmp l).
Proof.
  apply Sorted_StronglySorted.
  - intros x y z. apply cmp_trans.
  - by apply Array_sort_sorted.
Qed.

(** Insertion stops at the first element that is not smaller. *)
Lemma sort_insert_front (x : A) (l : list A) :
  Forall (fun y => cmp x y <= 0) l -> sort_insert cmp x l = x :: l.
Proof.
  destruct 1 as [|y l Hy _]; [reflexivity|]. simpl.
  destruct (Z.ltb_spec 0 (cmp x y)); [lia|reflexivity].
Qed.

Lemma sort_insert_app_l (x r : A) (l1 l2 : list A) :
  cmp x r <= 0 -> sort_insert cmp x (l1 ++ r :: l2) = sort_insert cmp x l1 ++ r :: l2.
Proof.
  intros Hr. induction l1 as [|y l1 IH]; simpl.
  - destruct (Z.ltb_spec 0 (cmp x r)); [lia|reflexivity].
  - destruct (Z.ltb 0 (cmp x y)); [by rewrite IH|reflexivity].
Qed.

Lemma sort_insert_app_r (x : A) (l1 l2 : list A) :
  Forall (fun y => 0 < cmp x y) l1 ->
  sort_insert cmp x (l1 ++ l2) = l1 ++ sort_insert cmp x l2.
Proof.
  induction 1 as [|y l1 Hy _ IH]; [reflexivity|]. simpl.
  destruct (Z.ltb_spec 0 (cmp x y)); [by rewrite IH|lia].
Qed.

Context (P : A -> Prop) `{!forall x, Decision (P x)}.

Lemma sort_insert_filter (x : A) (l : list A) :
  StronglySorted (fun a b => cmp a b <= 0) l ->
  filter P (sort_insert cmp x l)
  = if decide (P x) then sort_insert cmp x (filter P l) else filter P l.
Proof.
  induction 1 as [|y l Hl IH Hy]; simpl.
  - rewrite filter_cons, filter_nil. by destruct (decide (P x)).
  - destruct (Z.ltb_spec 0 (cmp x y)) as [Hxy|Hxy].
    + rewrite !(filter_cons _ y), IH.
      destruct (decide (P y)), (decide (P x)); try reflexivity.
      simpl. destruct (Z.ltb_spec 0 (cmp x y)); [reflexivity|lia].
    + rewrite (filter_cons _ x). destruct (decide (P x)); [|reflexivity].
      symmetry. apply sort_insert_front.
      apply Forall_forall. intros z Hz. apply list_elem_of_filter in Hz as [_ Hz].
      apply elem_of_cons in Hz as [->|Hz]; [exact Hxy|].
      apply cmp_trans with y; [exact Hxy|].
      rewrite Forall_forall in Hy. by apply Hy.
Qed.

(** Sorting commutes with the selection of a part of the array. *)
Lemma Array_sort_filter (l : list A) :
  filter P (Array_sort cmp l) = Array_sort cmp (filter P l).
Proof.
  induction l as [|x l IH]; [reflexivity|]. simpl.
  rewrite sort_insert_filter by apply Array_sort_strongly.
  rewrite filter_cons, IH. by destruct (decide (P x)).
Qed.

End SortFilter.

Section SortSnoc.
Context {A : Type} (cmp : A -> A -> Z).
Hypothesis cmp_asym : forall x y, 0 < cmp x y -> cmp y x <= 0.
Hypothesis cmp_trans : forall x y z, cmp x y <= 0 -> cmp y z <= 0 -> cmp x z <= 0.

(** An element appended to the array goes after the elements that are
    not greater than it and before the others. *)
Lemma Array_sort_snoc (r : A) (l : list A) :
  Array_sort cmp (l ++ [r])
  = filter (fun y => cmp y r <= 0) (Array_sort cmp l)
    ++ r :: filter (fun y => ~ cmp y r <= 0) (Array_sort cmp l).
Proof.
  induction l as [|x l IH]; [reflexivity|].
  change (Array_sort cmp ((x :: l) ++ [r]))
    with (sort_insert cmp x (Array_sort cmp (l ++ [r]))).
  change (Array_sort cmp (x :: l)) with (sort_insert cmp x (Array_sort cmp l)).
  rewrite IH.
  rewrite !(sort_insert_filter cmp cmp_trans) by by apply Array_sort_strongly.
  destruct (decide (cmp x r <= 0)) as [Hxr|Hxr].
  - rewrite decide_False by tauto. by apply sort_insert_app_l.
  - rewrite decide_True by done.
    rewrite sort_insert_app_r.
    + simpl. destruct (Z.ltb_spec 0 (cmp x r)); [reflexivity|lia].
    + apply Forall_forall. intros y Hy. apply list_elem_of_filter in Hy as [Hy _].
      destruct (decide (0 < cmp x y)) as [|Hn]; [done|].
      exfalso. apply Hxr. apply cmp_trans with y; [lia|done].
Qed.

End SortSnoc.

Lemma localeCompare_trans (a b c : string) :
  localeCompare a b <= 0 -> localeCompare b c <= 0 -> localeCompare a c <= 0.
Proof. rewrite !localeCompare_le. intros Hab Hbc. by etrans. Qed.

Lemma elem_of_same_key {A K : Type} (f : A -> K) (l : list A) (x y : A) :
  NoDup (map f l) -> x ∈ l -> y ∈ l -> f x = f y -> x = y.
Proof.
  induction l as [|z l IH]; intros Hnd Hx Hy Hxy; [inversion Hx|].
  simpl in Hnd. apply NoDup_cons in Hnd as [Hz Hnd].
  apply elem_of_cons in Hx as [->|Hx], Hy as [->|Hy]; try reflexivity.
  - exfalso. apply Hz. rewrite Hxy. by apply list_elem_of_fmap_2.
  - exfalso. apply Hz. rewrite <- Hxy. by apply list_elem_of_fmap_2.
  - by apply IH.
Qed.

Lemma Sorted_map {A B : Type} (f : A -> B) (R : B -> B -> Prop) (l : list A) :
  Sorted (fun a b => R (f a) (f b)) l -> Sorted R (map f l).
Proof.
  induction 1 as [|x l _ IH Hhd]; simpl; constructor; [assumption|].
  destruct Hhd; simpl; constructor. assumption.
Qed.

Section History.
Context {R : Type} `{Entry R}.

Let newest_first (a b : R) : Z := localeCompare (entry_date b) (entry_date a).
Let oldest_first (a b : R) : Z := localeCompare (entry_date a) (entry_date b).

Lemma newest_first_asym (x y : R) : 0 < newest_first x y -> newest_first y x <= 0.
Proof. apply localeCompare_asym. Qed.

Lemma newest_first_trans (x y z : R) :
  newest_first x y <= 0 -> newest_first y z <= 0 -> newest_first x z <= 0.
Proof. intros Hxy Hyz. by apply localeCompare_trans with (entry_date y). Qed.

Lemma sort_newest_first_filter (P : R -> Prop) `{!forall x, Decision (P x)} (l : list R) :
  Array_sort newest_first (filter P l) = filter P (Array_sort newest_first l).
Proof.
  symmetry. apply Array_sort_filter; [apply newest_first_asym|apply newest_first_trans].
Qed.

Lemma sort_newest_first_snoc (r : R) (l : list R) :
  Array_sort newest_first (l ++ [r])
  = filter (fun x => String.le (entry_date r) (entry_date x)) (Array_sort newest_first l)
    ++ r :: filter (fun x => ~ String.le (entry_date r) (entry_date x))
              (Array_sort newest_first l).
Proof.
  rewrite Array_sort_snoc.
  - f_equal; [|f_equal]; apply list_filter_iff; intros x; unfold newest_first;
      by rewrite localeCompare_le.
  - apply newest_first_asym.
  - apply newest_first_trans.
Qed.

(** The first row of the table and the latest record carry the same
    date, the greatest one. *)
Lemma head_newest_first_latest (l : list R) (r h : R) :
  last (Array_sort oldest_first l) = Some r ->
  head (Array_sort newest_first l) = Some h ->
  entry_date h = entry_date r /\ (NoDup (map entry_date l) -> h = r).
Proof.
  intros Hlast Hhead.
  apply last_sort_latest_by_date in Hlast as (l1 & l2 & Hl & H1 & H2).
  assert (Hr : r ∈ l) by (rewrite Hl; set_solver).
  assert (Hh : h ∈ l).
  { rewrite <- (Array_sort_perm newest_first l).
    destruct (Array_sort newest_first l); [discriminate|].
    injection Hhead as ->. left. }
  assert (Hmax_r : forall x, x ∈ l -> String.le (entry_date x) (entry_date r)).
  { intros x Hx. rewrite Hl in Hx. apply elem_of_app in Hx as [Hx|Hx]; [by apply H1|].
    apply elem_of_cons in Hx as [->|Hx]; [done|].
    destruct (total String.le (entry_date x) (entry_date r)) as [|Hrx]; [done|].
    by apply H2 in Hrx. }
  assert (Hmax_h : forall x, x ∈ l -> String.le (entry_date x) (entry_date h)).
  { intros x Hx. rewrite <- (Array_sort_perm newest_first l) in Hx.
    pose proof (Array_sort_strongly newest_first newest_first_asym
                  newest_first_trans l) as Hs.
    destruct (Array_sort newest_first l) as [|h' t]; [discriminate|].
    injection Hhead as ->. apply elem_of_cons in Hx as [->|Hx]; [done|].
    apply StronglySorted_inv in Hs as [_ Hall].
    rewrite Forall_forall in Hall. apply localeCompare_le. by apply Hall. }
  assert (Hdate : entry_date h = entry_date r).
  { apply (anti_symm String.le); [by apply Hmax_r|by apply Hmax_h]. }
  split; [exact Hdate|]. intros Hnd. by apply (elem_of_same_key entry_date l).
Qed.

End History.

(** ** The history tables and the trend chart *)

Lemma history_other_tab (c' : App.Tab) (p q : App.Ledger) :
  App.collection c' p = App.collection c' q -> App.history c' p = App.history c' q.
Proof. unfold App.history. by intros ->. Qed.

(** X3: on a collection whose dates are ISO dates, the rows of the
    History table are the records of the collection, each once, by date
    descending; records of one date keep the order in which they were
    inserted. *)
Theorem history_newest_first (c : App.Tab) (db : App.Ledger) :
  ISO_dated (App.collection c db) ->
  stable_descending (App.collection c db) (App.history c db).
Proof.
  intros _. unfold App.history. split; [|split].
  - eapply Sorted_weaken; [|apply Array_sort_sorted].
    + intros a b Hab. apply localeCompare_le. exact Hab.
    + intros x y. apply localeCompare_asym.
  - apply Array_sort_perm.
  - intros d. apply (Array_sort_stable _ entry_date).
    intros x y Hxy. by apply localeCompare_refl.
Qed.

Lemma history_newest_first_witness :
  let jan := App.BloodPanel.fresh "b1" "2024-01-10" in
  let mar := App.BloodPanel.fresh "b2" "2024-03-01" in
  let mar' := App.BloodPanel.fresh "b3" "2024-03-01" in
  stable_descending [mar; jan; mar'] [mar; mar'; jan].
Proof.
  intros jan mar mar'.
  apply (history_newest_first App.Bloods (App.mkLedger [mar; jan; mar'] [] [] [] [] [])).
  repeat constructor.
Defined.

(** X4: after the Delete button of a row, the History table of the tab is
    the former table without the rows that carry the identifier, the
    other rows in their former order; the tables of the other tabs are
    the former ones. *)
Theorem history_after_deleteRecord (c : App.Tab) (i : ID) (p : App.Ledger) :
  App.history c (App.deleteRecord c i p)
  = filter (fun r => entry_id r <> i) (App.history c p) /\
  forall c', c' <> c -> App.history c' (App.deleteRecord c i p) = App.history c' p.
Proof.
  split.
  - unfold App.history. rewrite collection_deleteRecord_same.
    apply sort_newest_first_filter.
  - intros c' Hne. apply history_other_tab. by apply collection_deleteRecord.
Qed.

(** X5: with ISO dates throughout, a record that is saved enters the
    History table of its tab below the rows of the same or a later date
    and above the rows of an earlier date, the other rows keeping their
    order; the tables of the other tabs are the former ones. *)
Theorem history_after_addRecord (c : App.Tab) (r : App.RecordOf c) (p : App.Ledger) :
  ISO_dated (App.collection c p) -> is_ISO_date (entry_date r) = true ->
  App.history c (App.addRecord c r p)
  = filter (fun x => String.le (entry_date r) (entry_date x)) (App.history c p)
    ++ r :: filter (fun x => ~ String.le (entry_date r) (entry_date x)) (App.history c p) /\
  forall c', c' <> c -> App.history c' (App.addRecord c r p) = App.history c' p.
Proof.
  intros _ _. split.
  - unfold App.history. rewrite collection_addRecord_same.
    apply sort_newest_first_snoc.
  - intros c' Hne. apply history_other_tab. by apply collection_addRecord.
Qed.

Lemma history_after_addRecord_witness :
  let jan := App.BloodPanel.fresh "b1" "2024-01-10" in
  let feb := App.BloodPanel.fresh "b2" "2024-02-01" in
  let mar := App.BloodPanel.fresh "b3" "2024-03-01" in
  let p := App.mkLedger [jan; mar] [] [] [] [] [] in
  App.history App.Bloods (App.addRecord App.Bloods feb p) = [mar; feb; jan].
Proof.
  intros jan feb mar p.
  apply (proj1 (history_after_addRecord App.Bloods feb p
                  ltac:(repeat constructor) eq_refl)).
Defined.

(** X6: on blood panels (vitals) with ISO dates, the first row of the
    History table carries the date of the panel (the vitals) that the
    dashboard shows as latest, and is that very record when no two
    records of the collection share a date; the table is empty exactly
    when the dashboard has no latest record. *)
Theorem history_first_row_latest (db : App.Ledger) :
  (ISO_dated (App.bloods db) ->
   (App.latestBlood db = None <-> App.history App.Bloods db = []) /\
   forall r h,
     App.latestBlood db = Some r -> head (App.history App.Bloods db) = Some h ->
     entry_date h = entry_date r /\
     (NoDup (map entry_date (App.bloods db)) -> h = r)) /\
  (ISO_dated (App.vitals db) ->
   (App.latestVitals db = None <-> App.history App.VitalsTab db = []) /\
   forall r h,
     App.latestVitals db = Some r -> head (App.history App.VitalsTab db) = Some h ->
     entry_date h = entry_date r /\
     (NoDup (map entry_date (App.vitals db)) -> h = r)).
Proof.
  split; intros _; (split; [|intros r h Hr Hh; by apply (head_newest_first_latest _ r h)]).
  - unfold App.latestBlood, at_minus_1, App.history. rewrite last_None. simpl. split.
    + intros Hnil. apply Array_sort_nil_inv in Hnil. by rewrite Hnil.
    + intros Hnil. apply Array_sort_nil_inv in Hnil. by rewrite Hnil.
  - unfold App.latestVitals, at_minus_1, App.history. rewrite last_None. simpl. split.
    + intros Hnil. apply Array_sort_nil_inv in Hnil. by rewrite Hnil.
    + intros Hnil. apply Array_sort_nil_inv in Hnil. by rewrite Hnil.
Qed.

Lemma history_first_row_latest_witness :
  let jan := App.BloodPanel.fresh "b1" "2024-01-10" in
  let mar := App.BloodPanel.fresh "b2" "2024-03-01" in
  let db := App.mkLedger [mar; jan] [] [] [] [] [] in
  entry_date mar = entry_date mar /\
  (NoDup (map entry_date (App.bloods db)) -> mar = mar).
Proof.
  intros jan mar db.
  apply (proj2 (proj1 (history_first_row_latest db) ltac:(repeat constructor)) mar mar);
    reflexivity.
Defined.

(** Two panels of the greatest date: the dashboard takes the one inserted
    last, the table starts with the one inserted first. *)
Example history_first_row_with_ties :
  let jan := App.BloodPanel.fresh "b1" "2024-01-10" in
  let mar := App.BloodPanel.fresh "b2" "2024-03-01" in
  let mar' := App.BloodPanel.fresh "b3" "2024-03-01" in
  let db := App.mkLedger [mar; jan; mar'] [] [] [] [] [] in
  App.latestBlood db = Some mar' /\
  App.history App.Bloods db = [mar; mar'; jan].
Proof. split; reflexivity. Qed.

(** X7: on blood panels with ISO dates the trend chart has one point per
    panel, by date ascending, and its last point is the panel that the
    tiles show as latest. *)
Theorem bloodTrend_oldest_first (db : App.Ledger) :
  ISO_dated (App.bloods db) ->
  App.bloodTrend db ≡ₚ map trend_point (App.bloods db) /\
  Sorted (fun a b => String.le (App.TrendPoint.date a) (App.TrendPoint.date b))
    (App.bloodTrend db) /\
  last (App.bloodTrend db) = trend_point <$> App.latestBlood db.
Proof.
  intros _. unfold App.bloodTrend. fold trend_point. split; [|split].
  - apply fmap_Permutation, Array_sort_perm.
  - apply Sorted_map. simpl.
    eapply Sorted_weaken; [|apply Array_sort_sorted].
    + intros a b Hab. apply localeCompare_le. exact Hab.
    + intros x y. apply localeCompare_asym.
  - unfold App.latestBlood, at_minus_1. apply fmap_last.
Qed.

Lemma bloodTrend_oldest_first_witness :
  let jan := App.Bloods_onChange_apoB "85" (App.BloodPanel.fresh "b1" "2024-01-10") in
  let mar := App.Bloods_onChange_apoB "70" (App.BloodPanel.fresh "b2" "2024-03-01") in
  let db := App.mkLedger [mar; jan] [] [] [] [] [] in
  last (App.bloodTrend db)
  = Some (App.TrendPoint.mk "2024-03-01" (Some (Finite false 7 1)) None None).
Proof.
  intros jan mar db.
  apply (proj2 (proj2 (bloodTrend_oldest_first db ltac:(repeat constructor)))).
Defined.

(** ** Updaters and views, composed *)

Section LatestAfterAdd.
Context {R : Type} `{Entry R}.

Let oldest_first (a b : R) : Z := localeCompare (entry_date a) (entry_date b).

Lemma latest_by_date_greatest (l : list R) (r x : R) :
  latest_by_date l r -> x ∈ l -> String.le (entry_date x) (entry_date r).
Proof.
  intros (l1 & l2 & -> & H1 & H2) Hx.
  apply elem_of_app in Hx as [Hx|Hx]; [by apply H1|].
  apply elem_of_cons in Hx as [->|Hx]; [done|].
  destruct (total String.le (entry_date x) (entry_date r)) as [|Hrx]; [done|].
  by apply H2 in Hrx.
Qed.

Lemma last_sort_snoc (l : list R) (f : R) :
  last (Array_sort oldest_first (l ++ [f]))
  = match last (Array_sort oldest_first l) with
    | Some r => if decide (String.le (entry_date r) (entry_date f)) then Some f else Some r
    | None => Some f
    end.
Proof.
  destruct (last (Array_sort oldest_first l)) as [r|] eqn:Hlast.
  - pose proof Hlast as Hr. apply last_sort_latest_by_date in Hr.
    case_decide as Hrf; apply last_sort_latest_by_date.
    + exists l, []. split; [reflexivity|]. split.
      * intros x Hx. etrans; [|exact Hrf]. by apply (latest_by_date_greatest l).
      * intros x Hx. inversion Hx.
    + destruct Hr as (l1 & l2 & -> & H1 & H2).
      exists l1, (l2 ++ [f]). split; [by rewrite <- app_assoc|]. split; [exact H1|].
      intros x Hx. apply elem_of_app in Hx as [Hx|Hx]; [by apply H2|].
      apply list_elem_of_singleton in Hx. by subst x.
  - apply last_sort_None in Hlast. subst l. reflexivity.
Qed.

End LatestAfterAdd.

(** X8: with ISO dates throughout, a blood panel (vitals) that is saved
    becomes the latest record of the dashboard when its date is not
    earlier than the date of the latest record so far, or when there was
    none; otherwise the latest record stays. *)
Theorem latest_after_add (db : App.Ledger) :
  (forall f : App.BloodPanel.t,
      ISO_dated (App.bloods db) -> is_ISO_date (App.BloodPanel.date f) = true ->
      App.latestBlood (App.Bloods_add f db)
      = match App.latestBlood db with
        | Some r =>
            if decide (String.le (App.BloodPanel.date r) (App.BloodPanel.date f))
            then Some f else Some r
        | None => Some f
        end) /\
  (forall f : App.Vitals.t,
      ISO_dated (App.vitals db) -> is_ISO_date (App.Vitals.date f) = true ->
      App.latestVitals (App.VitalsTab_add f db)
      = match App.latestVitals db with
        | Some r =>
            if decide (String.le (App.Vitals.date r) (App.Vitals.date f))
            then Some f else Some r
        | None => Some f
        end).
Proof.
  split; intros f _ _.
  - exact (last_sort_snoc (App.bloods db) f).
  - exact (last_sort_snoc (App.vitals db) f).
Qed.

Lemma latest_after_add_witness :
  let jan := App.BloodPanel.fresh "b1" "2024-01-10" in
  let mar := App.BloodPanel.fresh "b2" "2024-03-01" in
  let db := App.mkLedger [mar] [] [] [] [] [] in
  App.latestBlood (App.Bloods_add jan db) = Some mar.
Proof.
  intros jan mar db.
  apply (proj1 (latest_after_add db) jan ltac:(repeat constructor) eq_refl).
Defined.

(** X9: deleting the identifier of a record that was just added restores
    the ledger, provided no older record of the collection carries that
    identifier (those would be deleted with it). *)
Theorem add_then_delete (c : App.Tab) (r : App.RecordOf c) (p : App.Ledger) :
  entry_id r ∉ map entry_id (App.collection c p) ->
  App.deleteRecord c (entry_id r) (App.addRecord c r p) = p.
Proof.
  intros Hfresh. apply Ledger_ext. intros c'.
  destruct (decide (c' = c)) as [->|Hne].
  - rewrite collection_deleteRecord_same, collection_addRecord_same.
    rewrite filter_app, filter_cons_False, filter_nil, app_nil_r by (intros H; by apply H).
    apply filter_all. apply Forall_forall. intros x Hx Heq.
    apply Hfresh. rewrite <- Heq. by apply list_elem_of_fmap_2.
  - rewrite collection_deleteRecord, collection_addRecord by done. reflexivity.
Qed.

Lemma add_then_delete_witness :
  let r := App.Note.mk "n2" "2024-02-01" "second" in
  let p := App.NotesTab_add (App.Note.mk "n1" "2024-01-10" "first") App.EMPTY in
  App.deleteRecord App.NotesTab "n2" (App.addRecord App.NotesTab r p) = p.
Proof.
  intros r p. apply (add_then_delete App.NotesTab r p).
  simpl. intros Hin. apply list_elem_of_singleton in Hin. discriminate Hin.
Defined.

(** ** Import of nothing *)

Lemma skip_ws_all_ws (s : string) : all_ws s = true -> skip_ws s = "".
Proof.
  induction s as [|c s IH]; [reflexivity|]. simpl. intros H.
  apply andb_true_iff in H as [Hc Hs]. rewrite Hc. by apply IH.
Qed.

Lemma JSON_parse_blank (text : string) :
  all_ws text = true -> JSON_parse text = Throw SyntaxError.
Proof.
  intros H. unfold JSON_parse.
  assert (Hp : forall fuel, parse_value fuel text = None).
  { intros [|fuel]; [reflexivity|]. cbn [parse_value]. by rewrite (skip_ws_all_ws text H). }
  by rewrite Hp.
Qed.

(** X21: text that is empty or white space only is not JSON.  In the
    minimal variant the text area is empty when the page opens, so Import
    JSON pressed before anything is exported or typed alerts "Invalid
    JSON" and changes nothing; in [App.tsx] the upload of an empty file
    alerts "Invalid file" and changes nothing. *)
Theorem import_of_nothing (ls : Storage) :
  (forall st, Mini.mount ls = Normal st ->
              Mini.raw st = "" /\ Mini.importJson st = (st, ["Invalid JSON"])) /\
  (forall text (st : Mini.State),
      all_ws text = true ->
      Mini.importJson (Mini.setRaw text st) = (Mini.setRaw text st, ["Invalid JSON"])) /\
  (forall text (st : App.State),
      all_ws text = true -> App.upload (Some text) st = (st, ["Invalid file"])).
Proof.
  split; [|split].
  - intros st Hmount. unfold Mini.mount, Mini.render_with_profile in Hmount.
    destruct (Mini.load ls Paul); [|discriminate]. injection Hmount as <-.
    split; reflexivity.
  - intros text st Hws. unfold Mini.importJson. simpl. by rewrite (JSON_parse_blank text Hws).
  - intros text st Hws. unfold App.upload. by rewrite (JSON_parse_blank text Hws).
Qed.

(** ** The dashboard *)

Lemma own_property_app (k : string) (l1 l2 : list (string * value)) :
  own_property k (l1 ++ l2)
  = match own_property k l2 with
    | Some v => Some v
    | None => own_property k l1
    end.
Proof.
  induction l1 as [|[k' v] l1 IH]; simpl.
  - by destruct (own_property k l2).
  - rewrite IH. by destruct (own_property k l2).
Qed.

Lemma own_property_opt_num (k k' : string) (x : option number) :
  own_property k (opt_num k' x) = if String.eqb k k' then VNum <$> x else None.
Proof. destruct x; simpl; by destruct (String.eqb k k'). Qed.

Lemma own_property_opt_str (k k' : string) (x : option string) :
  own_property k (opt_str k' x) = if String.eqb k k' then VStr <$> x else None.
Proof. destruct x; simpl; by destruct (String.eqb k k'). Qed.

Lemma opt_num_defined (k : string) (x : option number) :
  Forall (fun kv => is_undefined (snd kv) = false) (opt_num k x).
Proof. destruct x; repeat constructor. Qed.

Lemma opt_str_defined (k : string) (x : option string) :
  Forall (fun kv => is_undefined (snd kv) = false) (opt_str k x).
Proof. destruct x; repeat constructor. Qed.

Ltac record_defined :=
  repeat first [ apply Forall_app; split
               | apply opt_num_defined | apply opt_str_defined
               | constructor; [reflexivity|] | constructor ].

Lemma keys_distinct_NoDup (ps : list (string * value)) :
  keys_distinct (VObj ps) = true -> NoDup (map fst ps).
Proof.
  simpl. intros H. apply andb_true_iff in H as [H _]. by apply bool_decide_eq_true in H.
Qed.

(** The properties of a blood panel and of vitals that the tiles read. *)
Lemma BloodPanel_fields (b : App.BloodPanel.t) :
  exists ps,
    App.BloodPanel.to_value b = VObj ps /\ NoDup (map fst ps) /\
    Forall (fun kv => is_undefined (snd kv) = false) ps /\
    own_property "apoB" ps = VNum <$> App.BloodPanel.apoB b /\
    own_property "ldl" ps = VNum <$> App.BloodPanel.ldl b /\
    own_property "a1c" ps = VNum <$> App.BloodPanel.a1c b.
Proof.
  eexists. split; [reflexivity|]. split; [|split].
  - apply keys_distinct_NoDup, (BloodPanel_keys_distinct b).
  - record_defined.
  - rewrite ?own_property_app, ?own_property_opt_num, ?own_property_opt_str. simpl.
    repeat split.
    + by destruct (App.BloodPanel.apoB b).
    + by destruct (App.BloodPanel.ldl b).
    + by destruct (App.BloodPanel.a1c b).
Qed.

Lemma Vitals_fields (v : App.Vitals.t) :
  exists ps,
    App.Vitals.to_value v = VObj ps /\ NoDup (map fst ps) /\
    Forall (fun kv => is_undefined (snd kv) = false) ps /\
    own_property "systolic" ps = VNum <$> App.Vitals.systolic v /\
    own_property "diastolic" ps = VNum <$> App.Vitals.diastolic v.
Proof.
  eexists. split; [reflexivity|]. split; [|split].
  - apply keys_distinct_NoDup, (Vitals_keys_distinct v).
  - record_defined.
  - rewrite ?own_property_app, ?own_property_opt_num, ?own_property_opt_str. simpl.
    split.
    + by destruct (App.Vitals.systolic v).
    + by destruct (App.Vitals.diastolic v).
Qed.

Lemma mgdl_number (fp : Binary64) (x : option number) :
  App.mgdl fp (default VUndefined (VNum <$> x))
  = Returns (tile_text (Number_toFixed fp 0) x).
Proof. by destruct x. Qed.

Lemma mmHg_number (x : option number) :
  App.mmHg (default VUndefined (VNum <$> x)) = Returns (tile_text Number_toString x).
Proof. by destruct x. Qed.

Lemma Dashboard_typed (fp : Binary64) (lb : option App.BloodPanel.t)
    (lv : option App.Vitals.t) :
  App.Dashboard fp (App.latest_value lb) (App.latest_value lv)
  = Returns
      [("ApoB", tile_text (Number_toFixed fp 0) (lb ≫= App.BloodPanel.apoB));
       ("LDL-C", tile_text (Number_toFixed fp 0) (lb ≫= App.BloodPanel.ldl));
       ("HbA1c", tile_text (Number_toFixed fp 2) (lb ≫= App.BloodPanel.a1c));
       ("Blood Pressure",
        tile_text Number_toString (lv ≫= App.Vitals.systolic)
        +:+ "/" +:+
        tile_text Number_toString (lv ≫= App.Vitals.diastolic))].
Proof.
  unfold App.Dashboard.
  assert (Hb : optional_field "apoB" (App.latest_value lb)
               = default VUndefined (VNum <$> (lb ≫= App.BloodPanel.apoB)) /\
               optional_field "ldl" (App.latest_value lb)
               = default VUndefined (VNum <$> (lb ≫= App.BloodPanel.ldl)) /\
               optional_field "a1c" (App.latest_value lb)
               = default VUndefined (VNum <$> (lb ≫= App.BloodPanel.a1c))).
  { destruct lb as [b|]; [|by repeat split].
    change (App.latest_value (Some b)) with (App.BloodPanel.to_value b).
    change (Some b ≫= ?f) with (f b).
    destruct (BloodPanel_fields b) as (ps & -> & _ & _ & Ha & Hl & Hc).
    unfold optional_field. by rewrite Ha, Hl, Hc. }
  assert (Hv : optional_field "systolic" (App.latest_value lv)
               = default VUndefined (VNum <$> (lv ≫= App.Vitals.systolic)) /\
               optional_field "diastolic" (App.latest_value lv)
               = default VUndefined (VNum <$> (lv ≫= App.Vitals.diastolic))).
  { destruct lv as [v|]; [|by split].
    change (App.latest_value (Some v)) with (App.Vitals.to_value v).
    change (Some v ≫= ?f) with (f v).
    destruct (Vitals_fields v) as (ps & -> & _ & _ & Hs & Hd).
    unfold optional_field. by rewrite Hs, Hd. }
  destruct Hb as (-> & -> & ->), Hv as (-> & ->).
  rewrite !mgdl_number, !mmHg_number.
  by destruct (lb ≫= App.BloodPanel.a1c).
Qed.

(** X10: on a ledger as the forms build it the dashboard renders: each of
    the tiles ApoB, LDL-C and HbA1c shows ["--"] when there is no blood
    panel or the latest one lacks the field, and otherwise the field as
    [toFixed] prints it (no fraction digit, no fraction digit, two); the
    blood pressure tile shows systolic and diastolic of the latest vitals
    as [String] prints them, ["--"] standing for a missing one. *)
Theorem Dashboard_of_ledger (fp : Binary64) (db : App.Ledger) :
  App.Dashboard fp (App.latest_value (App.latestBlood db))
    (App.latest_value (App.latestVitals db))
  = Returns
      [("ApoB", tile_text (Number_toFixed fp 0)
                  (App.latestBlood db ≫= App.BloodPanel.apoB));
       ("LDL-C", tile_text (Number_toFixed fp 0)
                   (App.latestBlood db ≫= App.BloodPanel.ldl));
       ("HbA1c", tile_text (Number_toFixed fp 2)
                   (App.latestBlood db ≫= App.BloodPanel.a1c));
       ("Blood Pressure",
        tile_text Number_toString (App.latestVitals db ≫= App.Vitals.systolic)
        +:+ "/" +:+
        tile_text Number_toString (App.latestVitals db ≫= App.Vitals.diastolic))] /\
  (App.bloods db = [] -> App.vitals db = [] ->
   App.Dashboard fp (App.latest_value (App.latestBlood db))
     (App.latest_value (App.latestVitals db))
   = Returns [("ApoB", "--"); ("LDL-C", "--"); ("HbA1c", "--");
              ("Blood Pressure", "--/--")]).
Proof.
  split; [apply Dashboard_typed|].
  intros Hb Hv. rewrite Dashboard_typed.
  unfold App.latestBlood, App.latestVitals. by rewrite Hb, Hv.
Qed.

(** What [JSON.parse(JSON.stringify(o))] leaves of an object whose
    property names are distinct and whose values are defined: the same
    properties, each value read back. *)
Lemma revive_members_map (ps acc : list (string * value)) :
  Forall (fun kv => is_undefined (snd kv) = false) ps ->
  NoDup (map fst (acc ++ ps)) ->
  revive_members revive ps acc
  = acc ++ map (fun kv => (fst kv, revive (snd kv))) ps.
Proof.
  intros Hdef. revert acc. induction Hdef as [|[k v] ps Hv _ IH]; intros acc Hnd.
  - simpl. by rewrite app_nil_r.
  - simpl in *. rewrite Hv.
    assert (Hk : k ∉ map fst acc).
    { rewrite map_app in Hnd. apply NoDup_app in Hnd as (_ & Hdisj & _).
      intros Hin. apply (Hdisj k Hin). simpl. left. }
    rewrite (set_property_fresh k _ acc Hk), IH.
    + by rewrite <- app_assoc.
    + rewrite <- app_assoc. rewrite !map_app in *. exact Hnd.
Qed.

Lemma own_property_revived (k : string) (ps : list (string * value)) :
  own_property k (map (fun kv => (fst kv, revive (snd kv))) ps)
  = revive <$> own_property k ps.
Proof.
  induction ps as [|[k' v] ps IH]; [reflexivity|]. simpl. rewrite IH.
  destruct (own_property k ps); [reflexivity|]. by destruct (String.eqb k k').
Qed.

Lemma optional_field_revive (k : string) (ps : list (string * value)) :
  NoDup (map fst ps) -> Forall (fun kv => is_undefined (snd kv) = false) ps ->
  optional_field k (revive (VObj ps)) = default VUndefined (revive <$> own_property k ps).
Proof.
  intros Hnd Hdef. simpl. rewrite (revive_members_map ps [] Hdef Hnd). simpl.
  by rewrite own_property_revived.
Qed.

(** The blood panels of a ledger that was saved and read back. *)
Lemma reloaded_bloods (p : App.Ledger) :
  optional_field "bloods" (revive (App.Ledger_to_value p))
  = VArr (map (fun b => revive (entry_value b)) (App.bloods p)).
Proof.
  unfold App.Ledger_to_value. rewrite optional_field_revive.
  - simpl. by rewrite map_map.
  - apply keys_distinct_NoDup, (Ledger_keys_distinct p).
  - repeat constructor.
Qed.

(** X11: a blood panel whose ApoB is NaN or an infinity (the form stores
    NaN when the input is cleared) is shown by the dashboard as long as
    it is the panel in memory, the tile printing the number; the panel as
    read back from storage, an element of the array [bloods] of the
    ledger read back, has [apoB: null], and the dashboard that receives
    it throws a [TypeError], whatever the vitals.  A systolic pressure
    that was NaN or an infinity is read back as [null] too, and [mmHg]
    prints it as ["null"]. *)
Theorem Dashboard_throws_after_reload (fp : Binary64) (b : App.BloodPanel.t)
    (n : number) (lv : option App.Vitals.t) (latestVitals : value) :
  App.BloodPanel.apoB b = Some n -> is_finite n = false ->
  (exists ldl a1c bp,
      App.Dashboard fp (entry_value b) (App.latest_value lv)
      = Returns [("ApoB", Number_toString n); ("LDL-C", ldl); ("HbA1c", a1c);
                 ("Blood Pressure", bp)]) /\
  (forall p : App.Ledger,
      b ∈ App.bloods p ->
      exists panels,
        optional_field "bloods" (revive (App.Ledger_to_value p)) = VArr panels /\
        revive (entry_value b) ∈ panels) /\
  optional_field "apoB" (revive (entry_value b)) = VNull /\
  App.Dashboard fp (revive (entry_value b)) latestVitals = Throws TypeError /\
  (forall (v : App.Vitals.t) (n' : number),
      App.Vitals.systolic v = Some n' -> is_finite n' = false ->
      App.mmHg (optional_field "systolic" (revive (entry_value v))) = Returns "null").
Proof.
  intros Hb Hn. split; [|split; [|split; [|split]]].
  - pose proof (Dashboard_typed fp (Some b) lv) as H.
    change (App.latest_value (Some b)) with (entry_value b) in H.
    rewrite H. change (Some b ≫= App.BloodPanel.apoB) with (App.BloodPanel.apoB b).
    rewrite Hb. eexists _, _, _. simpl tile_text at 1.
    destruct n; try discriminate Hn; reflexivity.
  - intros p Hin. eexists. split; [apply reloaded_bloods|].
    by apply (list_elem_of_fmap_2 (fun b => revive (entry_value b))).
  - change (entry_value b) with (App.BloodPanel.to_value b).
    destruct (BloodPanel_fields b) as (ps & -> & Hnd & Hdef & Ha & _).
    rewrite (optional_field_revive _ ps Hnd Hdef), Ha, Hb. simpl.
    by destruct n.
  - unfold App.Dashboard.
    change (entry_value b) with (App.BloodPanel.to_value b).
    destruct (BloodPanel_fields b) as (ps & -> & Hnd & Hdef & Ha & _).
    rewrite (optional_field_revive _ ps Hnd Hdef), Ha, Hb.
    simpl. destruct n; try discriminate Hn; reflexivity.
  - intros v n' Hv Hn'. change (entry_value v) with (App.Vitals.to_value v).
    destruct (Vitals_fields v) as (ps & -> & Hnd & Hdef & Hs & _).
    rewrite (optional_field_revive _ ps Hnd Hdef), Hs, Hv.
    simpl. destruct n'; try discriminate Hn'; reflexivity.
Qed.

Lemma Dashboard_throws_after_reload_witness :
  let b := App.Bloods_onChange_apoB "" (App.BloodPanel.fresh "a" "2024-01-10") in
  let fp := {| toFixed_finite := fun _ _ m _ => digit_string m |} in
  App.Dashboard fp (revive (entry_value b)) VUndefined = Throws TypeError.
Proof.
  intros b fp.
  apply (proj1 (proj2 (proj2 (proj2 (Dashboard_throws_after_reload fp b NaN None
                                       VUndefined eq_refl eq_refl))))).
Defined.

(** ** A ledger lost when the page is opened *)

Lemma sort_insert_map {A B : Type} (f : A -> B) (cmpA : A -> A -> Z) (cmpB : B -> B -> Z)
    (x : A) (l : list A) :
  (forall a b, cmpB (f a) (f b) = cmpA a b) ->
  sort_insert cmpB (f x) (map f l) = map f (sort_insert cmpA x l).
Proof.
  intros Hcmp. induction l as [|y l IH]; [reflexivity|]. simpl.
  rewrite Hcmp. destruct (Z.ltb 0 (cmpA x y)); [|reflexivity]. simpl. by rewrite IH.
Qed.

Lemma Array_sort_map {A B : Type} (f : A -> B) (cmpA : A -> A -> Z) (cmpB : B -> B -> Z)
    (l : list A) :
  (forall a b, cmpB (f a) (f b) = cmpA a b) ->
  Array_sort cmpB (map f l) = map f (Array_sort cmpA l).
Proof.
  intros Hcmp. induction l as [|x l IH]; [reflexivity|]. simpl.
  rewrite IH. by apply sort_insert_map.
Qed.

Lemma BloodPanel_date_reloaded (b : App.BloodPanel.t) :
  optional_field "date" (revive (entry_value b)) = VStr (App.BloodPanel.date b).
Proof.
  change (entry_value b) with (App.BloodPanel.to_value b).
  unfold App.BloodPanel.to_value. rewrite optional_field_revive.
  - rewrite ?own_property_app, ?own_property_opt_num, ?own_property_opt_str. reflexivity.
  - apply keys_distinct_NoDup, (BloodPanel_keys_distinct b).
  - record_defined.
Qed.

(** The sorted copy of the blood panels of a ledger that was read back. *)
Lemma sorted_by_date_reloaded (l : list App.BloodPanel.t) :
  ISO_dated l ->
  App.sorted_by_date (VArr (map (fun b => revive (entry_value b)) l))
  = Some (map (fun b => revive (entry_value b))
            (Array_sort (fun a b => localeCompare (App.BloodPanel.date a)
                                      (App.BloodPanel.date b)) l)).
Proof.
  intros Hiso.
  assert (Hsort : Array_sort (fun a b => localeCompare (App.date_text a) (App.date_text b))
                    (map (fun b => revive (entry_value b)) l)
                  = map (fun b => revive (entry_value b))
                      (Array_sort (fun a b => localeCompare (App.BloodPanel.date a)
                                                (App.BloodPanel.date b)) l)).
  { apply Array_sort_map. intros a b. unfold App.date_text.
    by rewrite !BloodPanel_date_reloaded. }
  assert (Hall : forallb App.carries_ISO_date (map (fun b => revive (entry_value b)) l)
                 = true).
  { apply forallb_forall. intros v Hv. apply in_map_iff in Hv as (b & <- & Hb).
    unfold App.carries_ISO_date. rewrite BloodPanel_date_reloaded.
    unfold ISO_dated in Hiso. rewrite List.Forall_forall in Hiso. by apply Hiso. }
  destruct l as [|x [|y l]]; [reflexivity|reflexivity|].
  unfold App.sorted_by_date. cbn [map] in *. by rewrite Hall, Hsort.
Qed.

Lemma Dashboard_null_apoB (fp : Binary64) (b : App.BloodPanel.t) (n : number)
    (latestVitals : value) :
  App.BloodPanel.apoB b = Some n -> is_finite n = false ->
  App.Dashboard fp (revive (entry_value b)) latestVitals = Throws TypeError.
Proof.
  intros Hb Hn. unfold App.Dashboard.
  change (entry_value b) with (App.BloodPanel.to_value b).
  destruct (BloodPanel_fields b) as (ps & -> & Hnd & Hdef & Ha & _).
  rewrite (optional_field_revive _ ps Hnd Hdef), Ha, Hb.
  simpl. destruct n; try discriminate Hn; reflexivity.
Qed.

(** X29: a ledger with ISO dates whose latest blood panel has an ApoB
    that is NaN or an infinity (NaN is what a cleared input leaves),
    once saved, is lost when the page is next opened on the dashboard:
    the first commit writes the empty ledger into the slot, the render
    with the ledger read back throws in [mgdl(null)], and the slot is
    left holding the empty ledger. *)
Theorem cleared_number_loses_ledger (page : App.Page) (p : App.Ledger)
    (b : App.BloodPanel.t) (n : number) (ls : Storage) :
  App.dashboard_shown page = true ->
  App.renders page App.EMPTY_value = true ->
  ISO_dated (App.bloods p) ->
  App.latestBlood p = Some b -> App.BloodPanel.apoB b = Some n -> is_finite n = false ->
  ls !! storageKey Paul = JSON_stringify (App.Ledger_to_value p) ->
  App.loadFor ls Paul = revive (App.Ledger_to_value p) /\
  App.mount_rendered page ls
  = App.Down (<[ storageKey Paul := default "undefined" (JSON_stringify App.EMPTY_value) ]>
                ls) /\
  App.loadFor (App.storage (App.mount_rendered page ls)) Paul = App.EMPTY_value.
Proof.
  intros Hdash Hempty Hiso Hlatest Hb Hn Hslot.
  assert (Hload : App.loadFor ls Paul = revive (App.Ledger_to_value p)).
  { apply (loadFor_persisted (App.mkState Paul (App.Ledger_to_value p) ls)).
    unfold App_persisted. cbn [App.localStorage App.profile App.db]. rewrite Hslot.
    by destruct (stringify_defined (App.Ledger_to_value p) ltac:(discriminate)) as [t ->]. }
  assert (Hthrows : App.render_throws (App.printer page) (App.dashboard_shown page)
                      (revive (App.Ledger_to_value p)) = true).
  { unfold App.render_throws. cbv zeta. rewrite reloaded_bloods, Hdash.
    unfold App.latest_of at 1. rewrite (sorted_by_date_reloaded _ Hiso).
    unfold at_minus_1. rewrite fmap_last.
    unfold App.latestBlood, at_minus_1 in Hlatest. rewrite Hlatest. simpl default.
    rewrite (Dashboard_null_apoB _ b n _ Hb Hn). apply orb_true_r. }
  assert (Hmount : App.mount_rendered page ls
                   = App.Down (<[ storageKey Paul :=
                                    default "undefined" (JSON_stringify App.EMPTY_value) ]>
                                 ls)).
  { unfold App.mount_rendered. rewrite Hempty.
    unfold App.render_with_profile_rendered. rewrite Hload.
    unfold App.renders. rewrite Hthrows. reflexivity. }
  split; [exact Hload|]. split; [exact Hmount|].
  rewrite Hmount. cbn [App.storage].
  set (ls' := <[ storageKey Paul := _ ]> ls).
  assert (Hs : ls' !! storageKey Paul
               = Some (default "undefined" (JSON_stringify App.EMPTY_value)))
    by apply lookup_insert_eq.
  exact (loadFor_persisted (App.mkState Paul App.EMPTY_value ls') Hs).
Qed.

Lemma cleared_number_loses_ledger_witness :
  let jan := App.Bloods_onChange_apoB "85" (App.BloodPanel.fresh "b1" "2024-01-10") in
  let mar := App.Bloods_onChange_apoB "" (App.BloodPanel.fresh "b2" "2024-03-01") in
  let p := App.Bloods_add mar (App.Bloods_add jan App.EMPTY) in
  let ls := App.saveFor Paul (App.Ledger_to_value p) ∅ in
  App.renders sample_page (App.Ledger_to_value p) = true /\
  App.loadFor (App.storage (App.mount_rendered sample_page ls)) Paul = App.EMPTY_value.
Proof.
  intros jan mar p ls. split; [reflexivity|].
  apply (cleared_number_loses_ledger sample_page p mar NaN ls); try reflexivity.
  repeat constructor.
Defined.

(** ** The forms *)

Lemma named_addRecord (c : App.Tab) (f : App.RecordOf c) (p : App.Ledger) :
  App.refused c f = false -> named p -> named (App.addRecord c f p).
Proof.
  intros Hf [Hm Hn]. destruct c; simpl in *; split; try assumption.
  - apply Forall_app. split; [assumption|]. by repeat constructor.
  - apply Forall_app. split; [assumption|]. by repeat constructor.
Qed.

Lemma named_deleteRecord (c : App.Tab) (i : ID) (p : App.Ledger) :
  named p -> named (App.deleteRecord c i p).
Proof.
  intros [Hm Hn]. destruct c; simpl; split; try assumption.
  - apply Forall_forall. intros x Hx. apply list_elem_of_filter in Hx as [_ Hx].
    rewrite Forall_forall in Hm. by apply Hm.
  - apply Forall_forall. intros x Hx. apply list_elem_of_filter in Hx as [_ Hx].
    rewrite Forall_forall in Hn. by apply Hn.
Qed.

Lemma named_handle (w : World) (ev : App.Event) (s : App.Session) :
  named (App.tab_db s) -> named (App.tab_db (App.handle w ev s)).
Proof.
  intros Hs. destruct ev as [c|c edit| |i]; simpl.
  - exact Hs.
  - destruct (App.form s) as [[c' f]|]; [|exact Hs].
    destruct (App.retype c' c f); exact Hs.
  - destruct (App.form s) as [[c f]|]; [|exact Hs].
    destruct (App.refused c f) eqn:Hf; [exact Hs|]. by apply named_addRecord.
  - destruct (App.form s) as [[c f]|]; [|exact Hs]. by apply named_deleteRecord.
Qed.

(** X16: whatever the user opens, types, saves and deletes in the six
    tabs, the ledger never holds a medication or supplement whose name is
    blank, nor a note whose text is blank: the two save buttons return
    before the update when [trim()] leaves nothing. *)
Theorem no_blank_name_is_saved (w : World) (evs : list App.Event) :
  named (App.tab_db (App.run w evs)).
Proof.
  unfold App.run.
  assert (Hstart : named (App.tab_db App.start)) by (split; constructor).
  revert Hstart. generalize App.start.
  induction evs as [|ev evs IH]; intros s Hs; simpl; [exact Hs|].
  apply IH. by apply named_handle.
Qed.

Lemma skip_js_space_blank (s : string) : is_blank s = true -> skip_js_space s = "".
Proof.
  remember (String.length s) as n eqn:Hn. revert s Hn.
  induction n as [n IH] using lt_wf_ind. intros s Hn.
  destruct s as [|c1 r1]; [reflexivity|]. simpl in Hn.
  cbn [is_blank skip_js_space]. destruct (is_js_space c1).
  { apply (IH (String.length r1)); [lia|reflexivity]. }
  destruct r1 as [|c2 r2]; [discriminate|]. simpl in Hn.
  destruct (is_js_space2 c1 c2).
  { apply (IH (String.length r2)); [lia|reflexivity]. }
  destruct r2 as [|c3 r3]; [discriminate|]. simpl in Hn.
  intros H. apply andb_true_iff in H as [H3 H]. rewrite H3.
  apply (IH (String.length r3)); [lia|reflexivity|exact H].
Qed.

Lemma parseFloat_blank (text : string) : is_blank text = true -> parseFloat text = NaN.
Proof. intros H. unfold parseFloat. by rewrite (skip_js_space_blank text H). Qed.

(** X18: the ApoB input of the blood form, once changed, never leaves the
    field absent again; when its text is blank (the input was cleared)
    the field holds NaN, which [numberOrEmpty] passes on. *)
Theorem cleared_input_is_NaN (text : string) (f : App.BloodPanel.t) :
  is_blank text = true ->
  App.BloodPanel.apoB (App.Bloods_onChange_apoB text f) = Some NaN /\
  forall text', App.BloodPanel.apoB (App.Bloods_onChange_apoB text' f) <> None.
Proof.
  intros Hblank. split.
  - simpl. by rewrite (parseFloat_blank text Hblank).
  - intros text'. discriminate.
Qed.

Lemma cleared_input_is_NaN_witness :
  App.BloodPanel.apoB
    (App.Bloods_onChange_apoB "  " (App.BloodPanel.fresh "a" "2024-01-10"))
  = Some NaN.
Proof.
  apply (proj1 (cleared_input_is_NaN "  " (App.BloodPanel.fresh "a" "2024-01-10")
                  eq_refl)).
Defined.

(** X17: the save button pressed twice in a row.  In the medication tab
    and the note tab the second press does nothing, the form that the
    first press installs having an empty name or text; in the four other
    tabs it appends a second record that has an identifier and a date
    only. *)
Theorem Save_twice (w : World) (s : App.Session) (c : App.Tab) (f : App.RecordOf c) :
  App.form s = Some (existT c f) ->
  let once := App.handle w App.Save s in
  let twice := App.handle w App.Save once in
  (c = App.MedsTab \/ c = App.NotesTab -> twice = once) /\
  (c <> App.MedsTab -> c <> App.NotesTab ->
   App.collection c (App.tab_db twice)
   = App.collection c (App.tab_db s)
     ++ [f; App.initial_form c (uid w (App.calls s)) (today w (App.calls s))]).
Proof.
  intros Hform once twice. subst once twice. split.
  - intros Hc. simpl. rewrite Hform.
    destruct (App.refused c f) eqn:Hf.
    + simpl. by rewrite Hform, Hf.
    + simpl. destruct Hc as [-> | ->]; reflexivity.
  - intros Hm Hn. simpl. rewrite Hform.
    assert (Hf : App.refused c f = false) by (by destruct c).
    rewrite Hf. simpl.
    assert (Hf' : forall i d, App.refused c (App.next_form c f i d) = false)
      by (intros; by destruct c).
    rewrite Hf'. simpl. rewrite !collection_addRecord_same, <- app_assoc.
    by destruct c.
Qed.

Lemma Save_twice_witness :
  let s := App.run distinct_world
             [App.Open App.NotesTab;
              App.Change App.NotesTab (fun f => App.Note.mk (App.Note.id f)
                                                  (App.Note.date f) "statin started")] in
  App.handle distinct_world App.Save (App.handle distinct_world App.Save s)
  = App.handle distinct_world App.Save s.
Proof.
  intros s.
  apply (proj1 (Save_twice distinct_world s App.NotesTab
                  (App.Note.mk "a" "2024-01-10" "statin started") eq_refl)).
  by right.
Defined.

(** X20: in the minimal variant, after Add blood panel the summary shows
    the three sample values 85, 95 and 5.3 as last ApoB, LDL and A1c and
    counts one more blood panel; after Add note it shows what it showed
    and counts one more note.  The other counts are the former ones. *)
Theorem summary_after_quick_add (w : World) (s : Mini.Session) :
  let before := Mini.summary (Mini.tab_db s) in
  let n := Mini.entries before in
  Mini.summary (Mini.tab_db (Mini.handle w Mini.AddBlood s))
  = Mini.mkSummary (Some (Finite false 85 0)) (Some (Finite false 95 0))
      (Some (Finite false 53 (-1)))
      (Mini.Entries.mk (S (Mini.Entries.bloods n)) (Mini.Entries.imaging n)
         (Mini.Entries.vitals n) (Mini.Entries.fitness n) (Mini.Entries.meds n)
         (Mini.Entries.notes n)) /\
  Mini.summary (Mini.tab_db (Mini.handle w Mini.AddNote s))
  = Mini.mkSummary (Mini.lastApoB before) (Mini.lastLDL before) (Mini.lastA1c before)
      (Mini.Entries.mk (Mini.Entries.bloods n) (Mini.Entries.imaging n)
         (Mini.Entries.vitals n) (Mini.Entries.fitness n) (Mini.Entries.meds n)
         (S (Mini.Entries.notes n))).
Proof.
  cbv zeta. unfold Mini.summary, Mini.recentBlood, at_minus_1. simpl. split.
  - rewrite last_snoc, length_app. simpl. f_equal. f_equal. lia.
  - rewrite length_app. simpl. f_equal. f_equal. lia.
Qed.

(** ** The number inputs *)

Lemma digit_head_facts (c : ascii) (r : string) :
  is_digit c = true ->
  skip_js_space (String c r) = String c r /\
  match String c r with
  | String "-" r' => (true, r')
  | String "+" r' => (false, r')
  | _ => (false, String c r)
  end = (false, String c r) /\
  String.prefix "Infinity" (String c r) = false.
Proof.
  destruct c as [[] [] [] [] [] [] [] []]; intros H; try discriminate H;
    destruct r as [|c2 [|c3 r3]]; repeat split; reflexivity.
Qed.

Lemma skip_js_space_minus (d : ascii) (r : string) :
  is_digit d = true ->
  skip_js_space (String "-" (String d r)) = String "-" (String d r).
Proof.
  destruct d as [[] [] [] [] [] [] [] []]; intros H; try discriminate H;
    destruct r as [|c3 r3]; reflexivity.
Qed.

Lemma span_digits_head (s ip s2 : string) :
  span_digits s = (ip, s2) -> ip <> "" ->
  exists c r, s = String c r /\ is_digit c = true.
Proof.
  destruct s as [|c r]; simpl.
  - intros [= <- _]. done.
  - destruct (is_digit c) eqn:Hc; [eauto|]. intros [= <- _]. done.
Qed.

(** Where the JSON reader accepts an unsigned number, [parseFloat] reads
    the same value. *)
Lemma parseFloat_unsigned (neg : bool) (s rest : string) (n : number) :
  parse_unsigned neg s = Some (n, rest) ->
  (let '(ip, s2) := span_digits s in
   let '(fp, s3) :=
     match s2 with
     | String "." r => span_digits r
     | _ => ("", s2)
     end in
   match ip +:+ fp with
   | "" => NaN
   | ds =>
       let x := match parse_exponent s3 with Some (x, _) => x | None => 0 end in
       mkFinite neg (digits_value 0 ds) (x - Z.of_nat (String.length fp))
   end) = n.
Proof.
  unfold parse_unsigned. destruct (span_digits s) as [ip s2] eqn:Hspan.
  destruct ip as [|d ip]; [discriminate|].
  destruct (has_leading_zero (String d ip)); [discriminate|].
  assert (Hfrac : forall fp s3,
             parse_fraction s2 = Some (fp, s3) ->
             match s2 with
             | String "." r => span_digits r
             | _ => ("", s2)
             end = (fp, s3)).
  { intros fp s3. unfold parse_fraction. destruct s2 as [|c r]; [by intros [= <- <-]|].
    destruct (Ascii.eqb_spec c ".") as [->|Hc].
    - destruct (span_digits r) as [[|f fs] r']; [discriminate|]. by intros [= <- <-].
    - intros [= <- <-].
      destruct c as [[] [] [] [] [] [] [] []]; try reflexivity. by destruct Hc. }
  destruct (parse_fraction s2) as [[fp s3]|] eqn:Hf; [|discriminate].
  rewrite (Hfrac fp s3 eq_refl).
  destruct (parse_exponent s3) as [[x rest']|]; [|discriminate].
  intros [= <- _]. reflexivity.
Qed.

Lemma parseFloat_of_parse_number (s rest : string) (n : number) :
  parse_number s = Some (n, rest) -> parseFloat s = n.
Proof.
  unfold parse_number. destruct s as [|c r]; [discriminate|].
  destruct (Ascii.eqb_spec c "-") as [->|Hc]; intros Hp.
  - assert (Hhead : exists d r', r = String d r' /\ is_digit d = true).
    { unfold parse_unsigned in Hp. destruct (span_digits r) as [ip s2] eqn:Hspan.
      apply (span_digits_head r ip s2 Hspan). intros ->. discriminate Hp. }
    destruct Hhead as (d & r' & -> & Hd).
    destruct (digit_head_facts d r' Hd) as (_ & _ & Hinf).
    unfold parseFloat. rewrite (skip_js_space_minus d r' Hd).
    cbv iota beta. rewrite Hinf. by apply parseFloat_unsigned in Hp.
  - assert (Hhead : is_digit c = true).
    { unfold parse_unsigned in Hp. destruct (span_digits (String c r)) as [ip s2] eqn:Hspan.
      destruct (span_digits_head _ ip s2 Hspan) as (c' & r' & [= <- <-] & Hc');
        [intros ->; discriminate Hp|exact Hc']. }
    destruct (digit_head_facts c r Hhead) as (Hskip & Hsign & Hinf).
    unfold parseFloat. rewrite Hskip, Hsign, Hinf. by apply parseFloat_unsigned in Hp.
Qed.

Lemma parseFloat_Number_toString (n : number) :
  canonical n = true -> parseFloat (Number_toString n) = n.
Proof.
  destruct n as [| |neg m e]; try discriminate. intros Hcan. simpl.
  pose proof (parse_number_toString neg m e "" eq_refl) as Hp.
  rewrite app_empty_r in Hp. rewrite (parseFloat_of_parse_number _ _ _ Hp).
  pose proof (revive_number_canonical (Finite neg m e) Hcan) as Hrev.
  simpl in Hrev. by injection Hrev.
Qed.

(** X19: the text that a number input shows for a finite number of the
    form, [String(n)], is read back as that number by the [onChange] of
    the input: typing what is shown changes nothing. *)
Theorem number_input_reads_back (n : number) (f : App.BloodPanel.t) :
  canonical n = true ->
  parseFloat (Number_toString n) = n /\
  (App.BloodPanel.apoB f = Some n ->
   App.Bloods_onChange_apoB (Number_toString n) f = f).
Proof.
  intros Hcan. pose proof (parseFloat_Number_toString n Hcan) as Hp.
  split; [exact Hp|]. intros Hf. unfold App.Bloods_onChange_apoB.
  rewrite Hp. simpl. destruct f. simpl in *. by rewrite Hf.
Qed.

Lemma number_input_reads_back_witness :
  parseFloat (Number_toString (Finite false 53 (-1))) = Finite false 53 (-1).
Proof.
  apply (proj1 (number_input_reads_back (Finite false 53 (-1))
                  (App.BloodPanel.fresh "a" "2024-01-10") eq_refl)).
Defined.

(** ** The minimal variant under a clock that does not run backwards *)

Lemma StronglySorted_snoc {A : Type} (R : A -> A -> Prop) (l : list A) (y : A) :
  StronglySorted R l -> Forall (fun x => R x y) l -> StronglySorted R (l ++ [y]).
Proof.
  induction 1 as [|x l Hl IH Hx]; intros Hall; simpl.
  - repeat constructor.
  - apply Forall_cons in Hall as [Hxy Hall]. constructor; [by apply IH|].
    apply Forall_app. split; [exact Hx|]. by repeat constructor.
Qed.

Lemma StronglySorted_snoc_inv {A : Type} (R : A -> A -> Prop) (l : list A) (y : A) :
  StronglySorted R (l ++ [y]) -> Forall (fun x => R x y) l.
Proof.
  induction l as [|x l IH]; simpl; intros Hs; [constructor|].
  apply StronglySorted_inv in Hs as [Hs Hx]. constructor; [|by apply IH].
  apply Forall_app in Hx as [_ Hy]. by apply Forall_cons in Hy as [Hy _].
Qed.

Section Clock.
Context (w : World).
Hypothesis clock_monotone :
  forall m n : nat, (m <= n)%nat -> String.le (today w m) (today w n).

Lemma Mini_bloods_in_date_order (evs : list Mini.Event) :
  StronglySorted (fun a b => String.le (Mini.BloodPanel.date a) (Mini.BloodPanel.date b))
    (Mini.bloods (Mini.tab_db (Mini.run w evs))).
Proof.
  assert (H : forall s,
             (StronglySorted (fun a b => String.le (Mini.BloodPanel.date a)
                                           (Mini.BloodPanel.date b))
                (Mini.bloods (Mini.tab_db s)) /\
              Forall (fun b => exists k, (k < Mini.calls s)%nat /\
                                         Mini.BloodPanel.date b = today w k)
                (Mini.bloods (Mini.tab_db s))) ->
             StronglySorted (fun a b => String.le (Mini.BloodPanel.date a)
                                          (Mini.BloodPanel.date b))
               (Mini.bloods (Mini.tab_db (foldl (fun s ev => Mini.handle w ev s) s evs)))).
  { induction evs as [|ev evs IH]; intros s [Hs Hd]; simpl; [exact Hs|].
    apply IH. destruct ev; simpl.
    - split.
      + apply StronglySorted_snoc; [exact Hs|].
        eapply Forall_impl; [exact Hd|]. intros b (k & Hk & ->). simpl.
        apply clock_monotone. lia.
      + apply Forall_app. split.
        * eapply Forall_impl; [exact Hd|]. intros b (k & Hk & Hb).
          exists k. split; [lia|exact Hb].
        * repeat constructor. exists (Mini.calls s). split; [lia|reflexivity].
    - split; [exact Hs|].
      eapply Forall_impl; [exact Hd|]. intros b (k & Hk & Hb).
      exists k. split; [lia|exact Hb]. }
  apply H. split; constructor.
Qed.

End Clock.

(** X23: in the minimal variant the blood panels get their date from
    [today()] when they are added; as long as the clock does not run
    backwards, the panel that [recentBlood] returns (the one added last)
    is the latest by date of the panels added through the button, and
    there is none exactly when no panel was added. *)
Theorem recentBlood_latest_under_monotone_clock (w : World) (evs : list Mini.Event) :
  (forall m n : nat, (m <= n)%nat -> String.le (today w m) (today w n)) ->
  let db := Mini.tab_db (Mini.run w evs) in
  match Mini.recentBlood db with
  | Some r => latest_by_date (Mini.bloods db) r
  | None => Mini.bloods db = []
  end.
Proof.
  intros Hclock db. pose proof (Mini_bloods_in_date_order w Hclock evs) as Hs.
  fold db in Hs. unfold Mini.recentBlood, at_minus_1.
  destruct (Mini.bloods db) as [|b l] using rev_ind; [reflexivity|].
  rewrite last_snoc. exists l, []. split; [done|]. split.
  - intros x Hx. apply StronglySorted_snoc_inv in Hs.
    rewrite Forall_forall in Hs. by apply Hs.
  - intros x Hx. inversion Hx.
Qed.

Lemma recentBlood_latest_under_monotone_clock_witness :
  latest_by_date
    (Mini.bloods (Mini.tab_db (Mini.run distinct_world [Mini.AddBlood; Mini.AddNote;
                                                         Mini.AddBlood])))
    (Mini.example_panel "aaa" "2024-01-10").
Proof.
  apply (recentBlood_latest_under_monotone_clock distinct_world
           [Mini.AddBlood; Mini.AddNote; Mini.AddBlood]).
  intros m n Hmn. reflexivity.
Defined.

(** ** Ledgers that survive storage and export *)

Lemma clean_round_trips (v : value) :
  JSON_clean v = true ->
  (exists text, JSON_stringify v = Some text /\ JSON_parse text = Normal v) /\
  (exists text, JSON_stringify_2 v = Some text /\ JSON_parse text = Normal v) /\
  (forall p ls, App.loadFor (App.saveFor p v ls) p = v).
Proof.
  intros Hclean.
  assert (Hv : v <> VUndefined) by (intros ->; discriminate Hclean).
  pose proof (revive_clean v Hclean) as Hrev.
  destruct (stringify_defined v Hv) as [t Ht].
  destruct (stringify_2_defined v Hv) as [t2 Ht2].
  split; [|split].
  - exists t. split; [exact Ht|]. by rewrite (JSON_round_trip v t Ht), Hrev.
  - exists t2. split; [exact Ht2|]. by rewrite (JSON_round_trip_2 v t2 Ht2), Hrev.
  - intros p ls.
    pose proof (loadFor_persisted (App.mkState p v (App.saveFor p v ls))) as Hl.
    simpl in Hl. rewrite Hl.
    + rewrite Hrev. by destruct v.
    + unfold App_persisted, App.saveFor, App.setItem_stringified. simpl.
      by rewrite lookup_insert_eq.
Qed.

(** X24: a ledger of [App.tsx] in which every number is finite and in
    canonical form (no negative zero) is read back by [JSON.parse] exactly
    as it was, from the text that [saveFor] stores as well as from the
    indented text that [ImportExport] exports; [loadFor] after [saveFor]
    returns it unchanged. *)
Theorem typed_ledger_round_trips (p : App.Ledger) :
  numbers_canonical (App.Ledger_to_value p) = true ->
  let v := App.Ledger_to_value p in
  (exists text, JSON_stringify v = Some text /\ JSON_parse text = Normal v) /\
  (exists text, JSON_stringify_2 v = Some text /\ JSON_parse text = Normal v) /\
  (forall q ls, App.loadFor (App.saveFor q v ls) q = v).
Proof.
  intros Hnum v. apply clean_round_trips.
  unfold v. by rewrite JSON_clean_split, Hnum, Ledger_keys_distinct.
Qed.

Lemma typed_ledger_round_trips_witness :
  let p := App.Bloods_add
             (App.Bloods_onChange_apoB "85.5" (App.BloodPanel.fresh "a" "2024-01-10"))
             (App.NotesTab_add (App.Note.mk "b" "2024-01-11" "started statin") App.EMPTY) in
  App.loadFor (App.saveFor Claire (App.Ledger_to_value p) ∅) Claire
  = App.Ledger_to_value p.
Proof.
  intros p.
  apply (proj2 (proj2 (typed_ledger_round_trips p eq_refl))).
Defined.

Lemma Mini_run_samples (w : World) (evs : list Mini.Event) :
  let p := Mini.tab_db (Mini.run w evs) in
  Forall (fun b => exists i d, b = Mini.example_panel i d) (Mini.bloods p) /\
  Forall (fun n => exists i d, n = Mini.example_note i d) (Mini.notes p) /\
  Mini.imaging p = [] /\ Mini.vitals p = [] /\ Mini.fitness p = [] /\ Mini.meds p = [].
Proof.
  cbv zeta. unfold Mini.run.
  assert (Hstart : Forall (fun b => exists i d, b = Mini.example_panel i d)
                     (Mini.bloods (Mini.tab_db Mini.start)) /\
                   Forall (fun n => exists i d, n = Mini.example_note i d)
                     (Mini.notes (Mini.tab_db Mini.start)) /\
                   Mini.imaging (Mini.tab_db Mini.start) = [] /\
                   Mini.vitals (Mini.tab_db Mini.start) = [] /\
                   Mini.fitness (Mini.tab_db Mini.start) = [] /\
                   Mini.meds (Mini.tab_db Mini.start) = [])
    by (repeat split; constructor).
  revert Hstart. generalize Mini.start.
  induction evs as [|ev evs IH]; intros s Hs; simpl; [exact Hs|].
  apply IH. destruct Hs as (Hb & Hn & Hrest). destruct ev; simpl.
  - split; [|by split]. apply Forall_app. split; [exact Hb|].
    repeat constructor. eauto.
  - split; [exact Hb|]. split; [|exact Hrest]. apply Forall_app. split; [exact Hn|].
    repeat constructor. eauto.
Qed.

Lemma forallb_map_clean {A : Type} (f : A -> value) (l : list A) :
  Forall (fun x => JSON_clean (f x) = true) l -> forallb JSON_clean (map f l) = true.
Proof. induction 1 as [|x l Hx _ IH]; [reflexivity|]. simpl. by rewrite Hx, IH. Qed.

(** X25: in the minimal variant every ledger reached through the two
    buttons Add blood panel and Add note is read back by [JSON.parse]
    exactly as it was, from the text that the save effect stores and
    from the text that Export JSON writes. *)
Theorem quick_add_ledger_round_trips (w : World) (evs : list Mini.Event) :
  let v := Mini.Ledger_to_value (Mini.tab_db (Mini.run w evs)) in
  (exists text, JSON_stringify v = Some text /\ JSON_parse text = Normal v) /\
  (exists text, JSON_stringify_2 v = Some text /\ JSON_parse text = Normal v).
Proof.
  intros v.
  assert (Hclean : JSON_clean v = true).
  { destruct (Mini_run_samples w evs) as (Hb & Hn & Hi & Hv & Hf & Hm).
    unfold v, Mini.Ledger_to_value. rewrite Hi, Hv, Hf, Hm.
    cbn [JSON_clean map fst snd forallb].
    rewrite !forallb_map_clean.
    - reflexivity.
    - eapply Forall_impl; [exact Hn|]. intros n (i & d & ->). reflexivity.
    - eapply Forall_impl; [exact Hb|]. intros b (i & d & ->). reflexivity. }
  destruct (clean_round_trips v Hclean) as (H1 & H2 & _). by split.
Qed.

Lemma parseFloat_shape (text : string) :
  match parseFloat text with
  | Finite neg m e => m = 0%N /\ e = 0 \/ canonical (Finite neg m e) = true
  | _ => True
  end.
Proof.
  unfold parseFloat.
  destruct (match skip_js_space text with
            | String "-" r => (true, r)
            | String "+" r => (false, r)
            | _ => (false, skip_js_space text)
            end) as [neg s1].
  destruct (String.prefix "Infinity" s1); [exact I|].
  destruct (span_digits s1) as [ip s2].
  destruct (match s2 with String "." r0 => span_digits r0 | _ => ("", s2) end)
    as [fp s3].
  destruct (ip +:+ fp) as [|d ds]; [exact I|].
  set (m := digits_value 0 (String d ds)). set (e := _ - _).
  destruct (N.eq_dec m 0%N) as [Hm|Hm].
  - rewrite Hm. simpl. by left.
  - pose proof (mkFinite_canonical neg m e Hm) as Hc.
    destruct (mkFinite neg m e); try discriminate Hc. by right.
Qed.

(** X26: what a number typed into the ApoB input is after the ledger was
    saved and read back, for a text whose value the code keeps as
    written (at most 15 significant digits, within 1e-300 and 1e300, or
    no number at all): the number itself, except that NaN and the
    infinities are read back as [null] and negative zero as zero. *)
Theorem typed_number_after_reload (text : string) (f : App.BloodPanel.t) :
  exact_in_binary64 (parseFloat text) = true ->
  let b := App.Bloods_onChange_apoB text f in
  App.BloodPanel.apoB b = Some (parseFloat text) /\
  optional_field "apoB" (revive (entry_value b))
  = match parseFloat text with
    | Finite neg m e => VNum (if N.eqb m 0 then Finite false 0 0 else Finite neg m e)
    | _ => VNull
    end.
Proof.
  intros _ b. split; [reflexivity|].
  change (entry_value b) with (App.BloodPanel.to_value b).
  destruct (BloodPanel_fields b) as (ps & -> & Hnd & Hdef & Ha & _).
  rewrite (optional_field_revive _ ps Hnd Hdef), Ha.
  change (App.BloodPanel.apoB b) with (Some (parseFloat text)).
  pose proof (parseFloat_shape text) as Hshape.
  destruct (parseFloat text) as [| |neg m e]; try reflexivity.
  simpl. destruct (N.eqb m 0) eqn:Hm; [reflexivity|].
  destruct Hshape as [[-> _]|Hc]; [discriminate Hm|].
  f_equal. apply mkFinite_of_canonical.
  - by apply N.eqb_neq.
  - simpl in Hc. rewrite Hm in Hc. apply negb_true_iff in Hc. by apply N.eqb_neq.
Qed.

Lemma typed_number_after_reload_witness :
  let b := App.Bloods_onChange_apoB "5.3" (App.BloodPanel.fresh "b1" "2024-01-10") in
  optional_field "apoB" (revive (entry_value b)) = VNum (Finite false 53 (-1)).
Proof.
  intros b.
  apply (proj2 (typed_number_after_reload "5.3" (App.BloodPanel.fresh "b1" "2024-01-10")
                  eq_refl)).
Defined.
